(** * Wordle-math solver: the constraint-based candidate search

    A shallow embedding of the solver core of the repository
    ([isValidEquation], [checkPatternConsistency],
    [buildConstraintsFromGuesses], [scoreCandidate], [generateCandidates])
    and the properties of it that the specification states.

    The repository carries the solver twice: the copy that starts at line 879
    of [src/app.js] (module [App] below) and the older copy [src/solver.js]
    (module [Solver]).  [isValidEquation] is the same text in both and is
    embedded once. *)

From Stdlib Require Import List Ascii String ZArith Lia Bool Arith PeanoNat.
From Stdlib Require Import Permutation SpecFloat.
Import ListNotations.

Set Implicit Arguments.
Local Open Scope char_scope.
Local Open Scope nat_scope.

(** ** JavaScript data as the code uses it *)

(** A JavaScript string, one [ascii] per code unit. *)
Definition str := list ascii.

(** String literals of the source, e.g. [lit "0123456789+-*/="]. *)
Definition lit (s : string) : str := list_ascii_of_string s.

(** [s.includes(c)] for a one-character [c]; also [Set.prototype.has]. *)
Definition includes (s : str) (c : ascii) : bool := existsb (Ascii.eqb c) s.

Definition digits : str := lit "0123456789".
Definition operators : str := lit "+-*/".
Definition alphabet : str := lit "0123456789+-*/=".

Definition isDigit (c : ascii) : bool := includes digits c.

(** [(s.match(/c/g) || []).length] *)
Definition countChar (c : ascii) (s : str) : nat := count_occ ascii_dec s c.

(** [s.split(sep)] for a one-character separator. *)
Fixpoint split (sep : ascii) (s : str) : list str :=
  match s with
  | [] => [[]]
  | c :: rest =>
      if Ascii.eqb c sep then [] :: split sep rest
      else match split sep rest with
           | [] => [[c]]
           | part :: parts => (c :: part) :: parts
           end
  end.

(** *** Objects used as maps from one-character keys

    A JavaScript object keeps its own keys in insertion order, except that
    integer-like keys (here: the one-character keys ['0'] .. ['9']) are
    enumerated first, in ascending order.  That order is observable through
    [Object.entries] and [for .. in], so objects are association lists in
    insertion order and [entries] re-creates the enumeration order. *)
Module Obj.
Section WithValue.
Variable V : Type.

Definition t := list (ascii * V).

Definition empty : t := [].

(** [o[k]]; [None] is [undefined]. *)
Fixpoint get (o : t) (k : ascii) : option V :=
  match o with
  | [] => None
  | (k', v) :: rest => if Ascii.eqb k k' then Some v else get rest k
  end.

(** [o[k] = v]: an existing key keeps its place, a new one goes last. *)
Fixpoint set (o : t) (k : ascii) (v : V) : t :=
  match o with
  | [] => [(k, v)]
  | (k', v') :: rest =>
      if Ascii.eqb k k' then (k', v) :: rest else (k', v') :: set rest k v
  end.

Definition entriesOf (o : t) (k : ascii) : t :=
  filter (fun kv => Ascii.eqb (fst kv) k) o.

(** [Object.entries(o)] *)
Definition entries (o : t) : list (ascii * V) :=
  flat_map (entriesOf o) digits
  ++ filter (fun kv => negb (isDigit (fst kv))) o.

(** the keys as [for (const k in o)] visits them *)
Definition keys (o : t) : list ascii := map fst (entries o).
End WithValue.

Arguments empty {V}.
End Obj.

(** [o[k] || 0] *)
Definition getOr0 (o : Obj.t nat) (k : ascii) : nat :=
  match Obj.get o k with Some n => n | None => 0 end.

(** [o[k] = (o[k] || 0) + 1] *)
Definition increment (o : Obj.t nat) (k : ascii) : Obj.t nat :=
  Obj.set o k (getOr0 o k + 1).

(** *** Sets ([new Set()], [add], [has], [delete]) in insertion order *)
Module JsSet.
Section WithElem.
Variable A : Type.
Variable eqb : A -> A -> bool.

Definition has (s : list A) (x : A) : bool := existsb (eqb x) s.
Definition add (s : list A) (x : A) : list A :=
  if has s x then s else s ++ [x].
Definition delete (s : list A) (x : A) : list A :=
  filter (fun y => negb (eqb x y)) s.
End WithElem.
End JsSet.

Definition hasChar := JsSet.has Ascii.eqb.
Definition addChar := JsSet.add Ascii.eqb.
Definition deleteChar := JsSet.delete Ascii.eqb.
Definition hasPos := JsSet.has Nat.eqb.
Definition addPos := JsSet.add Nat.eqb.

(** *** Arrays with holes filled by [null]

    [a[i] = v] on an index past the end extends the array. *)
Fixpoint arraySet (A : Type) (a : list (option A)) (i : nat) (v : A)
  : list (option A) :=
  match i, a with
  | 0, [] => [Some v]
  | 0, _ :: rest => Some v :: rest
  | S i', [] => None :: arraySet [] i' v
  | S i', x :: rest => x :: arraySet rest i' v
  end.

(** [a[i]] when the result is only tested for truthiness or used as a
    character: [None] stands for [null] and for [undefined]. *)
Definition arrayGet (A : Type) (a : list (option A)) (i : nat) : option A :=
  match nth_error a i with
  | Some (Some v) => Some v
  | _ => None
  end.

(** *** Numbers

    A JavaScript Number is an IEEE 754 binary64 value. *)
Definition prec : Z := 53.
Definition emax : Z := 1024.
Definition JsNumber := spec_float.

(** The Number nearest to an integer (ties to even). *)
Definition numberOfZ (z : Z) : JsNumber := binary_normalize prec emax z 0 false.

(** What a call can produce: a Number, or a value of another type (the
    engine below only ever meets regular-expression objects, strings built
    from them, and [undefined]); or the call throws. *)
Inductive JsValue :=
| JsNum (x : JsNumber)
| JsOther.

Inductive Completion :=
| Throws
| Returns (v : JsValue).

(** [Number.isFinite(v)] *)
Definition Number_isFinite (v : JsValue) : bool :=
  match v with
  | JsNum (S754_zero _) | JsNum (S754_finite _ _ _) => true
  | _ => false
  end.

(** [v === w] when [w] is a Number *)
Definition strictEqualsNumber (v : JsValue) (w : JsNumber) : bool :=
  match v with
  | JsNum x => SFeqb x w
  | JsOther => false
  end.

(** The value of a run of decimal digits read in the given radix. *)
Definition digitValue (c : ascii) : Z := Z.of_nat (nat_of_ascii c) - 48.

Definition digitsValue (radix : Z) (ds : str) : Z :=
  fold_left (fun acc c => acc * radix + digitValue c)%Z ds 0%Z.

(** [parseInt(s, 10)] for an [s] that matches [/^-?\d+$/]. *)
Definition parseInt10 (s : str) : JsNumber :=
  match s with
  | "-" :: ds =>
      match digitsValue 10 ds with
      | Z0 => S754_zero true
      | z => numberOfZ (- z)
      end
  | ds => numberOfZ (digitsValue 10 ds)
  end.

(** ** The equation validator ([isValidEquation], both copies)

    [Function('return ' + left)()] hands the left side to the host's
    JavaScript engine.  The engine is a parameter of the validator and of
    everything that calls it, so the general theorems below hold for whatever
    the engine answers; [Engine.run] further down is a reference evaluator
    used for the concrete scenarios. *)

(** [/^[0-9+\-*/=]+$/.test(s)] *)
Definition matchesEquationChars (s : str) : bool :=
  negb (Nat.eqb (List.length s) 0) && forallb (includes alphabet) s.

(** [/^[0-9+\-*/]+$/.test(s)] *)
Definition matchesExpressionChars (s : str) : bool :=
  negb (Nat.eqb (List.length s) 0)
  && forallb (fun c => isDigit c || includes operators c) s.

(** [/^-?\d+$/.test(s)] *)
Definition matchesInteger (s : str) : bool :=
  let ds := match s with "-" :: rest => rest | _ => s end in
  negb (Nat.eqb (List.length ds) 0) && forallb isDigit ds.

Section Validator.
Variable evalReturn : str -> Completion.

Definition isValidEquation (expr : str) : bool :=
  if Nat.eqb (List.length expr) 0 || (List.length expr <? 5) then false
  else if negb (matchesEquationChars expr) then false
  else
    let equalCount := countChar "=" expr in
    if negb (Nat.eqb equalCount 1) then false
    else if match nth_error expr 0 with Some "=" => true | _ => false end
            || match nth_error expr (List.length expr - 1) with
               | Some "=" => true
               | _ => false
               end
    then false
    else
      match split "=" expr with
      | [left_; right_] =>
          if Nat.eqb (List.length left_) 0 || Nat.eqb (List.length right_) 0
          then false
          else if negb (matchesInteger right_) then false
          else if match left_ with
                  | "*" :: _ | "/" :: _ => true
                  | _ => false
                  end
          then false
          else if negb (matchesExpressionChars left_) then false
          else
            match evalReturn left_ with
            | Throws => false
            | Returns leftValue =>
                let rightValue := parseInt10 right_ in
                if negb (Number_isFinite leftValue)
                   || negb (Number_isFinite (JsNum rightValue))
                then false
                else strictEqualsNumber leftValue rightValue
            end
      | _ => false
      end.
End Validator.

(** ** A reference engine for [Function('return ' + left)()]

    The validator only calls the engine on non-empty strings over
    [0-9 + - * /]; on those the source text is tokenised and parsed as
    ECMAScript does in sloppy mode:
    - a digit run is one numeric literal; with a leading [0] and only octal
      digits it is a legacy octal literal;
    - [++] and [--] are single tokens and need an assignable operand, which
      no string of this alphabet provides: a syntax error;
    - [**] is exponentiation, right associative, and its base may not carry
      a unary sign;
    - [//] starts a comment that runs to the end, [/* .. */] is a comment;
    - a [/] where an operand is expected starts a regular-expression
      literal: its body may not start with a quantifier or have two in a
      row, and no digit may follow the closing [/] (it would be a flag).
    A syntax error makes the call throw.  Arithmetic is binary64. *)
Module Engine.

Inductive Token :=
| TNum (x : JsNumber)
| TRegex
| TPlus | TMinus | TStar | TStarStar | TSlash.

Definition isOctalDigit (c : ascii) : bool := includes (lit "01234567") c.

(** The value of a numeric literal made of the digits [ds]. *)
Definition literalValue (ds : str) : JsNumber :=
  match ds with
  | "0" :: (_ :: _) as rest =>
      if forallb isOctalDigit rest then numberOfZ (digitsValue 8 ds)
      else numberOfZ (digitsValue 10 ds)
  | _ => numberOfZ (digitsValue 10 ds)
  end.

Inductive Mode :=
| Code (afterOperand : bool)
| Digits (afterOperand : bool) (seen : str)
| BlockComment (afterOperand : bool) (sawStar : bool)
| RegexBody (afterAtom : bool).

Definition startsWith (c : ascii) (s : str) : bool :=
  match s with
  | c' :: _ => Ascii.eqb c c'
  | [] => false
  end.

Definition startsWithDigit (s : str) : bool :=
  match s with
  | c :: _ => isDigit c
  | [] => false
  end.

Definition emit (t : Token) (ts : option (list Token)) : option (list Token) :=
  option_map (cons t) ts.

(** One pass over the characters; [None] is a lexical error. *)
Fixpoint lex (m : Mode) (s : str) {struct s} : option (list Token) :=
  match s with
  | [] =>
      match m with
      | Code _ => Some []
      | _ => None
      end
  | c :: rest =>
      match m with
      | BlockComment ao sawStar =>
          if sawStar && Ascii.eqb c "/" then lex (Code ao) rest
          else lex (BlockComment ao (Ascii.eqb c "*")) rest
      | RegexBody afterAtom =>
          if Ascii.eqb c "/" then
            if startsWithDigit rest then None
            else emit TRegex (lex (Code true) rest)
          else if Ascii.eqb c "+" || Ascii.eqb c "*" then
            if afterAtom then lex (RegexBody false) rest else None
          else if isDigit c || Ascii.eqb c "-" then lex (RegexBody true) rest
          else None
      | Digits ao seen =>
          if startsWithDigit rest then lex (Digits ao (seen ++ [c])) rest
          else emit (TNum (literalValue (seen ++ [c]))) (lex (Code true) rest)
      | Code ao =>
          if isDigit c then
            if startsWithDigit rest then lex (Digits ao [c]) rest
            else emit (TNum (literalValue [c])) (lex (Code true) rest)
          else if Ascii.eqb c "+" then
            if startsWith "+" rest then None
            else emit TPlus (lex (Code false) rest)
          else if Ascii.eqb c "-" then
            if startsWith "-" rest then None
            else emit TMinus (lex (Code false) rest)
          else if Ascii.eqb c "*" then
            match rest with
            | "*" :: rest' => emit TStarStar (lex (Code false) rest')
            | _ => emit TStar (lex (Code false) rest)
            end
          else if Ascii.eqb c "/" then
            match rest with
            | "/" :: _ => Some []
            | "*" :: rest' => lex (BlockComment ao false) rest'
            | _ =>
                if ao then emit TSlash (lex (Code false) rest)
                else lex (RegexBody false) rest
            end
          else None
      end
  end.

Definition nan : JsNumber := S754_nan.
Definition one : JsNumber := numberOfZ 1.

(** [ToNumber]: a regular expression or a string that contains [/] is
    not numeric. *)
Definition toNumber (v : JsValue) : JsNumber :=
  match v with
  | JsNum x => x
  | JsOther => nan
  end.

(** Binary [+] concatenates strings as soon as one side is not a Number. *)
Definition add (a b : JsValue) : JsValue :=
  match a, b with
  | JsNum x, JsNum y => JsNum (SFadd prec emax x y)
  | _, _ => JsOther
  end.

Definition arith (op : JsNumber -> JsNumber -> JsNumber) (a b : JsValue)
  : JsValue :=
  JsNum (op (toNumber a) (toNumber b)).

(** The integer a finite Number stands for, when it is one. *)
Definition integerOf (x : JsNumber) : option Z :=
  match x with
  | S754_zero _ => Some 0%Z
  | S754_finite s m e =>
      let z := if s then Zneg m else Zpos m in
      if (0 <=? e)%Z then Some (z * 2 ^ e)%Z
      else if (Z.modulo z (2 ^ (- e)) =? 0)%Z then Some (z / 2 ^ (- e))%Z
      else None
  | _ => None
  end.

Definition isNegative (x : JsNumber) : bool := SFltb x (S754_zero false).

Definition oddInteger (x : JsNumber) : bool :=
  match integerOf x with
  | Some z => Z.odd z
  | None => false
  end.

(** [Number::exponentiate].  Where ECMAScript fixes the result it is
    followed; for a finite non-zero base and an integral exponent the
    correctly rounded power is taken.  A fractional exponent is left to the
    implementation by ECMAScript; the reference engine answers [NaN] there,
    and no scenario of this file evaluates one. *)
Definition exponentiate (b e : JsNumber) : JsNumber :=
  match e with
  | S754_nan => nan
  | S754_zero _ => one
  | S754_infinity es =>
      match b with
      | S754_nan => nan
      | _ =>
          let big := SFltb one (SFabs b) in
          let unit := SFeqb one (SFabs b) in
          if unit then nan
          else if Bool.eqb big es then S754_zero false
          else S754_infinity false
      end
  | S754_finite es _ _ =>
      match b with
      | S754_nan => nan
      | S754_infinity bs =>
          let neg := bs && oddInteger e in
          if es then S754_zero neg else S754_infinity neg
      | S754_zero bs =>
          let neg := bs && oddInteger e in
          if es then S754_infinity neg else S754_zero neg
      | S754_finite bs bm be =>
          match integerOf e with
          | Some (Zpos n) =>
              binary_normalize prec emax
                ((if bs then Zneg bm else Zpos bm) ^ Zpos n) (be * Zpos n) false
          | Some (Zneg n) =>
              SFdiv prec emax one
                (match ((if bs then Zneg bm else Zpos bm) ^ Zpos n)%Z with
                 | Zpos p => S754_finite false p (be * Zpos n)
                 | Zneg p => S754_finite true p (be * Zpos n)
                 | Z0 => S754_zero false
                 end)
          | _ => nan
          end
      end
  end.

Definition parsePrimary (ts : list Token) : option (JsValue * list Token) :=
  match ts with
  | TNum x :: rest => Some (JsNum x, rest)
  | TRegex :: rest => Some (JsOther, rest)
  | _ => None
  end.

(** UnaryExpression: signs in front of a literal. *)
Fixpoint parseUnary (ts : list Token) : option (JsValue * list Token) :=
  match ts with
  | TPlus :: rest =>
      match parseUnary rest with
      | Some (v, rest') => Some (JsNum (toNumber v), rest')
      | None => None
      end
  | TMinus :: rest =>
      match parseUnary rest with
      | Some (v, rest') => Some (JsNum (SFopp (toNumber v)), rest')
      | None => None
      end
  | _ => parsePrimary ts
  end.

(** ExponentiationExpression *)
Fixpoint parseExponentiation (ts : list Token)
  : option (JsValue * list Token) :=
  match ts with
  | TNum x :: TStarStar :: rest =>
      match parseExponentiation rest with
      | Some (e, rest') =>
          Some (JsNum (exponentiate x (toNumber e)), rest')
      | None => None
      end
  | TRegex :: TStarStar :: rest =>
      match parseExponentiation rest with
      | Some (e, rest') =>
          Some (JsNum (exponentiate nan (toNumber e)), rest')
      | None => None
      end
  | _ =>
      match parseUnary ts with
      | Some (v, TStarStar :: _) => None
      | r => r
      end
  end.

(** MultiplicativeExpression, left to right; every round consumes at
    least two tokens, so [fuel = length ts] is never exhausted. *)
Fixpoint parseMultiplicativeRest (fuel : nat) (acc : JsValue)
  (ts : list Token) : option (JsValue * list Token) :=
  match fuel with
  | 0 => None
  | S fuel' =>
      match ts with
      | TStar :: rest =>
          match parseExponentiation rest with
          | Some (v, rest') =>
              parseMultiplicativeRest fuel' (arith (SFmul prec emax) acc v) rest'
          | None => None
          end
      | TSlash :: rest =>
          match parseExponentiation rest with
          | Some (v, rest') =>
              parseMultiplicativeRest fuel' (arith (SFdiv prec emax) acc v) rest'
          | None => None
          end
      | _ => Some (acc, ts)
      end
  end.

Definition parseMultiplicative (fuel : nat) (ts : list Token)
  : option (JsValue * list Token) :=
  match parseExponentiation ts with
  | Some (v, rest) => parseMultiplicativeRest fuel v rest
  | None => None
  end.

(** AdditiveExpression, left to right. *)
Fixpoint parseAdditiveRest (fuel : nat) (acc : JsValue) (ts : list Token)
  : option (JsValue * list Token) :=
  match fuel with
  | 0 => None
  | S fuel' =>
      match ts with
      | TPlus :: rest =>
          match parseMultiplicative fuel rest with
          | Some (v, rest') => parseAdditiveRest fuel' (add acc v) rest'
          | None => None
          end
      | TMinus :: rest =>
          match parseMultiplicative fuel rest with
          | Some (v, rest') =>
              parseAdditiveRest fuel' (arith (SFsub prec emax) acc v) rest'
          | None => None
          end
      | _ => Some (acc, ts)
      end
  end.

Definition parseExpression (ts : list Token) : option JsValue :=
  let fuel := S (List.length ts) in
  match parseMultiplicative fuel ts with
  | Some (v, rest) =>
      match parseAdditiveRest fuel v rest with
      | Some (v', []) => Some v'
      | _ => None
      end
  | None => None
  end.

(** [Function('return ' + src)()] *)
Definition run (src : str) : Completion :=
  match lex (Code false) src with
  | None => Throws
  | Some [] => Returns JsOther
  | Some ts =>
      match parseExpression ts with
      | Some v => Returns v
      | None => Throws
      end
  end.

End Engine.

(** ** Data shared by both copies of the solver *)

(** The constraint object built by [buildConstraintsFromGuesses]. *)
Record ConstraintSet := {
  greens : list (option ascii);
  requiredCounts : Obj.t nat;
  maxCounts : Obj.t nat;
  excluded : list ascii;
  yellowForbiddenPositions : Obj.t (list nat)
}.

(** [patterns] is one feedback string, or an array of them in 4-target
    mode. *)
Inductive Patterns :=
| Single (pattern : str)
| Multi (patterns : list str).

Record GuessRecord := {
  guess : str;
  patterns : Patterns;
  solved : bool
}.

(** [Array.isArray(patterns) ? patterns[0] : patterns]; [None] is
    [undefined]. *)
Definition firstPattern (ps : Patterns) : option str :=
  match ps with
  | Single p => Some p
  | Multi l => nth_error l 0
  end.

(** [!pattern || pattern.length !== guess.length] *)
Definition patternMismatch (pattern : option str) (g : str) : bool :=
  match pattern with
  | None => true
  | Some p =>
      Nat.eqb (List.length p) 0
      || negb (Nat.eqb (List.length p) (List.length g))
  end.

(** The positions [i = 0 .. guess.length - 1] with [guess[i]] and
    [pattern[i]], for a pattern as long as the guess. *)
Definition positions (g pattern : str) : list (nat * (ascii * ascii)) :=
  combine (seq 0 (List.length g)) (combine g pattern).

(** [yellowForbiddenPositions[ch]?.has(pos)] *)
Definition forbiddenAt (c : ConstraintSet) (ch : ascii) (pos : nat) : bool :=
  match Obj.get (yellowForbiddenPositions c) ch with
  | Some s => hasPos s pos
  | None => false
  end.

(** What the [error] text of a rejection reports. *)
Inductive Reason :=
| LengthMismatch
| FixedToOther (position : nat) (fixed ch : ascii)
| FixedNotGreen (position : nat) (ch : ascii)
| ExcludedMarked (ch : ascii)
| ForbiddenMarked (ch : ascii) (position : nat)
| OverMaxCount (ch : ascii) (count max : nat).

Record CheckResult := {
  valid : bool;
  error : option Reason
}.

Definition accept : CheckResult := {| valid := true; error := None |}.
Definition reject (r : Reason) : CheckResult :=
  {| valid := false; error := Some r |}.

(** The loop over the positions of [checkPatternConsistency]: the first
    position whose tests [return] decides. *)
Fixpoint checkPositions (check : nat -> ascii -> ascii -> option Reason)
  (ps : list (nat * (ascii * ascii))) : option Reason :=
  match ps with
  | [] => None
  | (i, (ch, color)) :: rest =>
      match check i ch color with
      | Some r => Some r
      | None => checkPositions check rest
      end
  end.

(** The second half of [checkPatternConsistency], the same in both copies:
    tally the green and yellow marks of the new guess and compare them with
    the known caps. *)
Definition markedCounts (g pattern : str) : Obj.t nat :=
  fold_left
    (fun charCounts '(_, (ch, color)) =>
       if Ascii.eqb color "g" || Ascii.eqb color "y"
       then increment charCounts ch
       else charCounts)
    (positions g pattern) Obj.empty.

Fixpoint firstOverMax (c : ConstraintSet) (es : list (ascii * nat))
  : option Reason :=
  match es with
  | [] => None
  | (ch, count) :: rest =>
      match Obj.get (maxCounts c) ch with
      | Some max =>
          if max <? count then Some (OverMaxCount ch count max)
          else firstOverMax c rest
      | None => firstOverMax c rest
      end
  end.

(** [scoreCandidate], in halves: [uniqueChars * 1.5 - operatorCount] is
    [scoreCandidate2 / 2], and both are exact in binary64. *)
Definition scoreCandidate2 (expr : str) : Z :=
  let uniqueChars := List.length (nodup ascii_dec expr) in
  let operatorCount := List.length (filter (includes operators) expr) in
  (3 * Z.of_nat uniqueChars - 2 * Z.of_nat operatorCount)%Z.

(** [results.sort((a, b) => scoreCandidate(b) - scoreCandidate(a))]: by
    falling score, equal scores keep their order. *)
Fixpoint insertByScore (x : str) (sorted : list str) : list str :=
  match sorted with
  | [] => [x]
  | y :: rest =>
      if (scoreCandidate2 x <? scoreCandidate2 y)%Z
      then y :: insertByScore x rest
      else x :: sorted
  end.

Definition sortByScore (l : list str) : list str :=
  fold_right insertByScore [] l.

(** The options object of [generateCandidates].  [cancelledRef n] is what
    reading [cancelledRef.value] gives in the [n]-th call of [dfs]: the flag
    belongs to the caller. *)
Record Options := {
  length : nat;
  maxResults : nat;
  timeoutMs : Z;
  cancelledRef : nat -> bool
}.

(** The variables of [generateCandidates] that [dfs] updates. *)
Record SearchState := {
  dfsCallCount : nat;
  results : list str
}.

Definition countCall (st : SearchState) : SearchState :=
  {| dfsCallCount := S (dfsCallCount st); results := results st |}.

Definition pushResult (st : SearchState) (s : str) : SearchState :=
  {| dfsCallCount := dfsCallCount st; results := results st ++ [s] |}.

Definition initialState : SearchState :=
  {| dfsCallCount := 0; results := [] |}.

(** Parts of [dfs] that both copies share. *)
Section SearchCommon.
Variable constraints : ConstraintSet.

(** the characters of [0123456789+-*/=] that [excluded] does not have *)
Definition allowedChars : str :=
  filter (fun ch => negb (hasChar (excluded constraints) ch)) alphabet.

(** the loop over [Object.entries(constraints.requiredCounts)] at a
    completed candidate *)
Definition meetsRequired (used : Obj.t nat) : bool :=
  forallb (fun '(ch, minCount) => negb (getOr0 used ch <? minCount))
          (Obj.entries (requiredCounts constraints)).

(** [maxCounts[ch] && newUsed[ch] > maxCounts[ch]]: a cap of 0 is falsy *)
Definition exceedsMax (newUsed : Obj.t nat) (ch : ascii) : bool :=
  match Obj.get (maxCounts constraints) ch with
  | Some max => negb (Nat.eqb max 0) && (max <? getOr0 newUsed ch)
  | None => false
  end.

(** the sum [needMore] of the requirements still open *)
Definition needMore (newUsed : Obj.t nat) : nat :=
  fold_left
    (fun acc '(reqCh, minCount) =>
       let currentCount := getOr0 newUsed reqCh in
       if currentCount <? minCount then acc + (minCount - currentCount)
       else acc)
    (Obj.entries (requiredCounts constraints)) 0.

(** the sum [needOperators], over the operator keys only *)
Definition needOperators (used : Obj.t nat) : nat :=
  fold_left
    (fun acc '(reqCh, minCount) =>
       if includes operators reqCh then
         let currentCount := getOr0 used reqCh in
         if currentCount <? minCount then acc + (minCount - currentCount)
         else acc
       else acc)
    (Obj.entries (requiredCounts constraints)) 0.

(** [pos > 0 ? current[pos - 1] : null] *)
Definition lastCharOf (pos : nat) (current : str) : option ascii :=
  if 0 <? pos then nth_error current (pos - 1) else None.
End SearchCommon.

(** Parts of [buildConstraintsFromGuesses] that both copies share. *)

Record Colors := { green : nat; yellow : nat; gray : nat }.

(** the loop that fills [charColors] for one guess, one position *)
Definition tally (charColors : Obj.t Colors) (ch color : ascii)
  : Obj.t Colors :=
  let charColors :=
    match Obj.get charColors ch with
    | None => Obj.set charColors ch {| green := 0; yellow := 0; gray := 0 |}
    | Some _ => charColors
    end in
  match Obj.get charColors ch with
  | Some c =>
      if Ascii.eqb color "g" then
        Obj.set charColors ch
          {| green := green c + 1; yellow := yellow c; gray := gray c |}
      else if Ascii.eqb color "y" then
        Obj.set charColors ch
          {| green := green c; yellow := yellow c + 1; gray := gray c |}
      else if Ascii.eqb color "x" then
        Obj.set charColors ch
          {| green := green c; yellow := yellow c; gray := gray c + 1 |}
      else charColors
  | None => charColors
  end.

Definition charColorsOf (g pattern : str) : Obj.t Colors :=
  fold_left (fun cc '(_, (ch, color)) => tally cc ch color)
            (positions g pattern) Obj.empty.

(** [yellowForbiddenPositions[ch].add(i)], creating the set first when it
    is missing *)
Definition forbid (f : Obj.t (list nat)) (ch : ascii) (i : nat)
  : Obj.t (list nat) :=
  match Obj.get f ch with
  | Some s => Obj.set f ch (addPos s i)
  | None => Obj.set f ch (addPos [] i)
  end.

(** ** The solver of [src/app.js] *)
Module App.

(** *** [checkPatternConsistency] *)

(** The tests of one round of the loop over the positions; [Some r] is an
    early [return]. *)
Definition checkPosition (c : ConstraintSet) (i : nat) (ch color : ascii)
  : option Reason :=
  let fixedCheck :=
    match arrayGet (greens c) i with
    | Some fixed =>
        if negb (Ascii.eqb fixed ch) then
          if Ascii.eqb color "g" then Some (FixedToOther i fixed ch)
          else None
        else
          if negb (Ascii.eqb color "g") then Some (FixedNotGreen i ch)
          else None
    | None => None
    end in
  match fixedCheck with
  | Some r => Some r
  | None =>
      if hasChar (excluded c) ch
         && (Ascii.eqb color "g" || Ascii.eqb color "y")
      then Some (ExcludedMarked ch)
      else if forbiddenAt c ch i && Ascii.eqb color "g"
      then Some (ForbiddenMarked ch i)
      else None
  end.

Definition checkPatternConsistency (g : str) (ps : Patterns)
  (existingConstraints : ConstraintSet) : CheckResult :=
  let pattern := firstPattern ps in
  match pattern with
  | None => reject LengthMismatch
  | Some p =>
      if patternMismatch pattern g then reject LengthMismatch
      else
        match checkPositions (checkPosition existingConstraints) (positions g p) with
        | Some r => reject r
        | None =>
            match firstOverMax existingConstraints
                    (Obj.entries (markedCounts g p)) with
            | Some r => reject r
            | None => accept
            end
        end
  end.

(** *** [buildConstraintsFromGuesses] *)

(** [o[ch].push(n)], creating the array first when it is missing *)
Definition pushTo (o : Obj.t (list nat)) (ch : ascii) (n : nat)
  : Obj.t (list nat) :=
  match Obj.get o ch with
  | Some l => Obj.set o ch (l ++ [n])
  | None => Obj.set o ch [n]
  end.

(** What the loop over the guesses updates. *)
Record BuildState := {
  constraints : ConstraintSet;
  charRequirements : Obj.t (list nat);
  charMaxLimits : Obj.t (list nat)
}.

(** the loop over [Object.entries(charColors)] *)
Definition recordRequirement (b : BuildState) (e : ascii * Colors)
  : BuildState :=
  let '(ch, colors) := e in
  let required := green colors + yellow colors in
  let reqs :=
    if 0 <? required then pushTo (charRequirements b) ch required
    else charRequirements b in
  let limits :=
    if (0 <? gray colors) && (0 <? required)
    then pushTo (charMaxLimits b) ch required
    else charMaxLimits b in
  {| constraints := constraints b;
     charRequirements := reqs;
     charMaxLimits := limits |}.

(** the loop over the positions of one guess *)
Definition applyPosition (charColors : Obj.t Colors) (c : ConstraintSet)
  (p : nat * (ascii * ascii)) : ConstraintSet :=
  let '(i, (ch, color)) := p in
  if Ascii.eqb color "g" then
    {| greens := arraySet (greens c) i ch;
       requiredCounts := requiredCounts c;
       maxCounts := maxCounts c;
       excluded := excluded c;
       yellowForbiddenPositions := yellowForbiddenPositions c |}
  else if Ascii.eqb color "y" then
    {| greens := greens c;
       requiredCounts := requiredCounts c;
       maxCounts := maxCounts c;
       excluded := excluded c;
       yellowForbiddenPositions := forbid (yellowForbiddenPositions c) ch i |}
  else if Ascii.eqb color "x" then
    let hasGreenOrYellow :=
      match Obj.get charColors ch with
      | Some colors => (0 <? green colors) || (0 <? yellow colors)
      | None => false
      end in
    {| greens := greens c;
       requiredCounts := requiredCounts c;
       maxCounts := maxCounts c;
       excluded :=
         if negb hasGreenOrYellow then addChar (excluded c) ch
         else excluded c;
       yellowForbiddenPositions :=
         if hasGreenOrYellow
         then forbid (yellowForbiddenPositions c) ch i
         else yellowForbiddenPositions c |}
  else c.

(** one round of the loop over the guesses *)
Definition addGuess (b : BuildState) (r : GuessRecord) : BuildState :=
  if solved r then b
  else
    match firstPattern (patterns r) with
    | None => b
    | Some pattern =>
        if patternMismatch (Some pattern) (guess r) then b
        else
          let charColors := charColorsOf (guess r) pattern in
          let b := fold_left recordRequirement (Obj.entries charColors) b in
          {| constraints :=
               fold_left (applyPosition charColors)
                         (positions (guess r) pattern) (constraints b);
             charRequirements := charRequirements b;
             charMaxLimits := charMaxLimits b |}
    end.

(** [Math.max(...counts)] and [Math.min(...limits)] on arrays of counts;
    the arrays of the builder are never empty. *)
Definition maxOf (counts : list nat) : nat := fold_right Nat.max 0 counts.
Definition minOf (limits : list nat) : nat :=
  match limits with
  | [] => 0
  | x :: rest => fold_right Nat.min x rest
  end.

(** [greenCounts] *)
Definition greenCountsOf (gs : list (option ascii)) : Obj.t nat :=
  fold_left
    (fun greenCounts g =>
       match g with
       | Some ch => increment greenCounts ch
       | None => greenCounts
       end)
    gs Obj.empty.

(** [requiredCounts[ch] = Math.max(0, requiredCounts[ch] - greenCounts[ch])]
    for the keys of [greenCounts] that [requiredCounts] has *)
Definition subtractGreens (greenCounts : Obj.t nat) (req : Obj.t nat)
  : Obj.t nat :=
  fold_left
    (fun req ch =>
       match Obj.get req ch with
       | Some n => Obj.set req ch (n - getOr0 greenCounts ch)
       | None => req
       end)
    (Obj.keys greenCounts) req.

(** the loop that takes required characters out of [excluded] *)
Definition unexclude (greenCounts req : Obj.t nat) (ex : list ascii)
  : list ascii :=
  fold_left
    (fun ex ch =>
       if (0 <? getOr0 req ch) || (0 <? getOr0 greenCounts ch)
       then deleteChar ex ch
       else ex)
    (Obj.keys req) ex.

Definition emptyConstraints (len : nat) : ConstraintSet :=
  {| greens := repeat None len;
     requiredCounts := Obj.empty;
     maxCounts := Obj.empty;
     excluded := [];
     yellowForbiddenPositions := Obj.empty |}.

Definition buildConstraintsFromGuesses (guesses : list GuessRecord)
  (len : nat) : ConstraintSet :=
  let b :=
    fold_left addGuess guesses
      {| constraints := emptyConstraints len;
         charRequirements := Obj.empty;
         charMaxLimits := Obj.empty |} in
  let c := constraints b in
  let required :=
    fold_left (fun req '(ch, counts) => Obj.set req ch (maxOf counts))
              (Obj.entries (charRequirements b)) (requiredCounts c) in
  let maxes :=
    fold_left (fun mx '(ch, limits) => Obj.set mx ch (minOf limits))
              (Obj.entries (charMaxLimits b)) (maxCounts c) in
  let greenCounts := greenCountsOf (greens c) in
  let required := subtractGreens greenCounts required in
  {| greens := greens c;
     requiredCounts := required;
     maxCounts := maxes;
     excluded := unexclude greenCounts required (excluded c);
     yellowForbiddenPositions := yellowForbiddenPositions c |}.

(** *** [generateCandidates]

    [dfs] is a closure over [constraints], the options, [allowedChars]
    and [startTime]; [results] and [dfsCallCount] are the variables it
    updates.  [Date_now n] is what [Date.now()] answers in the [n]-th call
    of [dfs] ([Date_now 0] at the start).  The counters that only feed
    [console.log] and the optional [onProgress] callback are left out. *)
Section Search.
Variable evalReturn : str -> Completion.
Variable Date_now : nat -> Z.
Variable constraints : ConstraintSet.
Variable options : Options.

Definition startTime : Z := Date_now 0.

(** the tests of the loop over [allowedChars] that end in [continue] *)
Definition skips (pos : nat) (current : str) (used : Obj.t nat)
  (hasEqual : bool) (ch : ascii) : bool :=
  let lastChar := lastCharOf pos current in
  (* consecutive operators, except a minus sign *)
  (includes operators ch
   && match lastChar with
      | Some lc =>
          includes (lit "+-*/=") lc
          && (negb (Ascii.eqb ch "-")
              || (Ascii.eqb lc "-" && Ascii.eqb ch "-"))
      | None => false
      end)
  (* the equals sign *)
  || (Ascii.eqb ch "="
      && (match lastChar with
          | Some lc => includes operators lc
          | None => false
          end
          || hasEqual || Nat.eqb pos 0 || Nat.eqb pos (length options - 1)
          || (0 <? needOperators constraints used)))
  (* after the equals sign *)
  || (hasEqual && includes (lit "*/+") ch)
  (* forbidden position *)
  || forbiddenAt constraints ch pos
  (* count limit *)
  || exceedsMax constraints (increment used ch) ch
  (* not enough room left for what is still required *)
  || (length options - pos - 1 <? needMore constraints (increment used ch)).

(** [dfs(pos, current, used, hasEqual)] with [pos = length - remaining];
    [pos === length] is [remaining = 0]. *)
Fixpoint dfs (remaining : nat) (current : str) (used : Obj.t nat)
  (hasEqual : bool) (st : SearchState) : SearchState :=
  let pos := length options - remaining in
  let st := countCall st in
  if cancelledRef options (dfsCallCount st) then st
  else if (0 <? timeoutMs options)%Z
          && (timeoutMs options <? Date_now (dfsCallCount st) - startTime)%Z
  then st
  else if maxResults options <=? List.length (results st) then st
  else
    match remaining with
    | 0 =>
        if negb hasEqual then st
        else if negb (isValidEquation evalReturn current) then st
        else if negb (meetsRequired constraints used) then st
        else pushResult st current
    | S remaining' =>
        match arrayGet (greens constraints) pos with
        | Some ch =>
            if Ascii.eqb ch "="
               && match lastCharOf pos current with
                  | Some lc => includes operators lc
                  | None => false
                  end
            then st
            else
              let newUsed := increment used ch in
              if exceedsMax constraints newUsed ch then st
              else dfs remaining' (current ++ [ch]) newUsed
                       (hasEqual || Ascii.eqb ch "=") st
        | None =>
            fold_left
              (fun st ch =>
                 if skips pos current used hasEqual ch then st
                 else dfs remaining' (current ++ [ch]) (increment used ch)
                          (hasEqual || Ascii.eqb ch "=") st)
              (allowedChars constraints) st
        end
    end.

Definition generateCandidates : list str :=
  sortByScore
    (results (dfs (length options) [] Obj.empty false initialState)).
End Search.

(** [{ length }] with every default of [generateCandidates]. *)
Definition defaultOptions (len : nat) : Options :=
  {| length := len;
     maxResults := 200;
     timeoutMs := 0;
     cancelledRef := fun _ => false |}.

End App.


(** ** The solver of [src/solver.js] *)
Module Solver.

(** *** [checkPatternConsistency] *)

Definition checkPosition (c : ConstraintSet) (i : nat) (ch color : ascii)
  : option Reason :=
  let fixedCheck :=
    match arrayGet (greens c) i with
    | Some fixed =>
        if negb (Ascii.eqb fixed ch) then
          if Ascii.eqb color "g" then Some (FixedToOther i fixed ch)
          else None
        else
          if negb (Ascii.eqb color "g") then Some (FixedNotGreen i ch)
          else None
    | None => None
    end in
  match fixedCheck with
  | Some r => Some r
  | None =>
      if hasChar (excluded c) ch
         && (Ascii.eqb color "g" || Ascii.eqb color "y")
      then Some (ExcludedMarked ch)
      else if forbiddenAt c ch i
              && (Ascii.eqb color "y" || Ascii.eqb color "g")
      then Some (ForbiddenMarked ch i)
      else None
  end.

Definition checkPatternConsistency (g : str) (ps : Patterns)
  (existingConstraints : ConstraintSet) : CheckResult :=
  let pattern := firstPattern ps in
  match pattern with
  | None => reject LengthMismatch
  | Some p =>
      if patternMismatch pattern g then reject LengthMismatch
      else
        match checkPositions (checkPosition existingConstraints) (positions g p) with
        | Some r => reject r
        | None =>
            match firstOverMax existingConstraints
                    (Obj.entries (markedCounts g p)) with
            | Some r => reject r
            | None => accept
            end
        end
  end.

(** *** [buildConstraintsFromGuesses]

    This copy has no [solved] test and updates [requiredCounts] and
    [maxCounts] position by position. *)
Definition applyPosition (charColors : Obj.t Colors) (c : ConstraintSet)
  (p : nat * (ascii * ascii)) : ConstraintSet :=
  let '(i, (ch, color)) := p in
  if Ascii.eqb color "g" then
    {| greens := arraySet (greens c) i ch;
       requiredCounts := increment (requiredCounts c) ch;
       maxCounts := maxCounts c;
       excluded := excluded c;
       yellowForbiddenPositions := yellowForbiddenPositions c |}
  else if Ascii.eqb color "y" then
    {| greens := greens c;
       requiredCounts := increment (requiredCounts c) ch;
       maxCounts := maxCounts c;
       excluded := excluded c;
       yellowForbiddenPositions := forbid (yellowForbiddenPositions c) ch i |}
  else if Ascii.eqb color "x" then
    match Obj.get charColors ch with
    | Some colors =>
        let hasGreenOrYellow := (0 <? green colors) || (0 <? yellow colors) in
        {| greens := greens c;
           requiredCounts := requiredCounts c;
           maxCounts :=
             if negb hasGreenOrYellow then maxCounts c
             else Obj.set (maxCounts c) ch (green colors + yellow colors);
           excluded :=
             if negb hasGreenOrYellow then addChar (excluded c) ch
             else excluded c;
           yellowForbiddenPositions :=
             if hasGreenOrYellow
             then forbid (yellowForbiddenPositions c) ch i
             else yellowForbiddenPositions c |}
    | None => c
    end
  else c.

Definition addGuess (c : ConstraintSet) (r : GuessRecord) : ConstraintSet :=
  match firstPattern (patterns r) with
  | None => c
  | Some pattern =>
      if patternMismatch (Some pattern) (guess r) then c
      else
        fold_left (applyPosition (charColorsOf (guess r) pattern))
                  (positions (guess r) pattern) c
  end.

Definition buildConstraintsFromGuesses (guesses : list GuessRecord)
  (len : nat) : ConstraintSet :=
  fold_left addGuess guesses
    {| greens := repeat None len;
       requiredCounts := Obj.empty;
       maxCounts := Obj.empty;
       excluded := [];
       yellowForbiddenPositions := Obj.empty |}.

(** *** [generateCandidates]

    As in [App]; this copy has no [dfsCallCount], the count of calls kept
    in the state only numbers the readings of the clock and of the flag. *)
Section Search.
Variable evalReturn : str -> Completion.
Variable Date_now : nat -> Z.
Variable constraints : ConstraintSet.
Variable options : Options.

Definition startTime : Z := Date_now 0.

Definition skips (pos : nat) (used : Obj.t nat) (hasEqual : bool)
  (ch : ascii) : bool :=
  (Ascii.eqb ch "="
   && (hasEqual || Nat.eqb pos 0 || Nat.eqb pos (length options - 1)))
  || forbiddenAt constraints ch pos
  || exceedsMax constraints (increment used ch) ch
  || (length options - pos - 1 <? needMore constraints (increment used ch)).

Fixpoint dfs (remaining : nat) (current : str) (used : Obj.t nat)
  (hasEqual : bool) (st : SearchState) : SearchState :=
  let pos := length options - remaining in
  let st := countCall st in
  if cancelledRef options (dfsCallCount st)
     || (timeoutMs options <? Date_now (dfsCallCount st) - startTime)%Z
  then st
  else if maxResults options <=? List.length (results st) then st
  else
    match remaining with
    | 0 =>
        if negb hasEqual then st
        else if isValidEquation evalReturn current then
          if meetsRequired constraints used then pushResult st current
          else st
        else st
    | S remaining' =>
        match arrayGet (greens constraints) pos with
        | Some ch =>
            let newUsed := increment used ch in
            if exceedsMax constraints newUsed ch then st
            else dfs remaining' (current ++ [ch]) newUsed
                     (hasEqual || Ascii.eqb ch "=") st
        | None =>
            fold_left
              (fun st ch =>
                 if skips pos used hasEqual ch then st
                 else dfs remaining' (current ++ [ch]) (increment used ch)
                          (hasEqual || Ascii.eqb ch "=") st)
              (allowedChars constraints) st
        end
    end.

Definition generateCandidates : list str :=
  sortByScore
    (results (dfs (length options) [] Obj.empty false initialState)).
End Search.

(** [{ length }] with every default of [generateCandidates]. *)
Definition defaultOptions (len : nat) : Options :=
  {| length := len;
     maxResults := 200;
     timeoutMs := 2000;
     cancelledRef := fun _ => false |}.

End Solver.

(** * Notions used to state the properties *)

(** [used] tallies the characters of the string built so far. *)
Definition Tally (used : Obj.t nat) (s : str) : Prop :=
  forall k, getOr0 used k = countChar k s.


(** What [dfs] has checked of a string it accepted.  A result is built one
    character at a time; at position [i] the prefix before it is
    [firstn i s], [used] tallies that prefix, and the character either is
    the one the constraints fix there and passed the tests of the fixed
    branch ([fixedOk]), or was drawn from [allowedChars] and passed every
    test of the loop ([freeOk]). *)
Section Paths.
Variable evalReturn : str -> Completion.
Variable constraints : ConstraintSet.
Variable len : nat.
Variable fixedOk : nat -> str -> Obj.t nat -> ascii -> bool.
Variable freeOk : nat -> str -> Obj.t nat -> bool -> ascii -> bool.

Definition StepOk (prefix : str) (ch : ascii) : Prop :=
  exists used,
    Tally used prefix /\
    match arrayGet (greens constraints) (List.length prefix) with
    | Some fixed =>
        ch = fixed /\ fixedOk (List.length prefix) prefix used ch = true
    | None =>
        In ch (allowedChars constraints) /\
        freeOk (List.length prefix) prefix used (includes prefix "=") ch = true
    end.

Definition PathOk (s : str) : Prop :=
  forall i ch, nth_error s i = Some ch -> StepOk (firstn i s) ch.

Definition MeetsRequired (s : str) : Prop :=
  forall ch n,
    In (ch, n) (Obj.entries (requiredCounts constraints)) -> n <= countChar ch s.

Record Accepted (s : str) : Prop := {
  accepted_length : List.length s = len;
  accepted_valid : isValidEquation evalReturn s = true;
  accepted_required : MeetsRequired s;
  accepted_path : PathOk s
}.
End Paths.

(** the fixed branch of [App.dfs] recurses *)
Definition fixedOkApp (c : ConstraintSet) (pos : nat) (current : str)
  (used : Obj.t nat) (ch : ascii) : bool :=
  negb (Ascii.eqb ch "="
        && match lastCharOf pos current with
           | Some lc => includes operators lc
           | None => false
           end)
  && negb (exceedsMax c (increment used ch) ch).

(** the loop of [App.dfs] recurses *)
Definition freeOkApp (c : ConstraintSet) (o : Options) (pos : nat)
  (current : str) (used : Obj.t nat) (hasEqual : bool) (ch : ascii) : bool :=
  negb (App.skips c o pos current used hasEqual ch).

(** the fixed branch of [Solver.dfs] recurses *)
Definition fixedOkSolver (c : ConstraintSet) (pos : nat) (current : str)
  (used : Obj.t nat) (ch : ascii) : bool :=
  negb (exceedsMax c (increment used ch) ch).

(** the loop of [Solver.dfs] recurses *)
Definition freeOkSolver (c : ConstraintSet) (o : Options) (pos : nat)
  (current : str) (used : Obj.t nat) (hasEqual : bool) (ch : ascii) : bool :=
  negb (Solver.skips c o pos used hasEqual ch).

Definition AcceptedApp (evalReturn : str -> Completion) (c : ConstraintSet)
  (o : Options) : str -> Prop :=
  Accepted evalReturn c (length o) (fixedOkApp c) (freeOkApp c o).

Definition AcceptedSolver (evalReturn : str -> Completion) (c : ConstraintSet)
  (o : Options) : str -> Prop :=
  Accepted evalReturn c (length o) (fixedOkSolver c) (freeOkSolver c o).

(** ** Concrete scenarios *)

(** Membership in a list of strings, as a test. *)
Definition strEqb (a b : str) : bool :=
  if list_eq_dec ascii_dec a b then true else false.

Definition memStr (s : str) (l : list str) : bool := existsb (strEqb s) l.

(** A clock that stands still. *)
Definition frozenClock : nat -> Z := fun _ => 0%Z.

(** Scenario B of the specification: one guess [2+2=4] with feedback
    gray, green, gray, green, gray; length 5. *)
Definition scenarioB : list GuessRecord :=
  [ {| guess := lit "2+2=4"; patterns := Single (lit "xgxgx"); solved := false |} ].

(** Every position fixed to [3+3=6], although ['3'] is also forbidden at
    index 0 and ['6'] is capped at 0 occurrences. *)
Definition fixedAgainstForbidden : ConstraintSet :=
  {| greens := [Some "3"; Some "+"; Some "3"; Some "="; Some "6"];
     requiredCounts := Obj.empty;
     maxCounts := [("6", 0)];
     excluded := [];
     yellowForbiddenPositions := [("3", [0])] |}.

(** Every position fixed to [3-+1=2]: operators at the adjacent indices 1
    and 2. *)
Definition fixedAdjacentOperators : ConstraintSet :=
  {| greens := [Some "3"; Some "-"; Some "+"; Some "1"; Some "="; Some "2"];
     requiredCounts := Obj.empty;
     maxCounts := Obj.empty;
     excluded := [];
     yellowForbiddenPositions := Obj.empty |}.

(** Index 2 left open between a fixed [+] and a fixed [1]. *)
Definition openAfterOperator : ConstraintSet :=
  {| greens := [Some "3"; Some "+"; None; Some "1"; Some "="; Some "2"];
     requiredCounts := Obj.empty;
     maxCounts := Obj.empty;
     excluded := [];
     yellowForbiddenPositions := Obj.empty |}.

(** The guess [1+1=2] with its first ['1'] yellow, its second gray and
    ['='] green: ['1'] is required once, capped at one occurrence and
    forbidden at the indices 0 and 2. *)
Definition yellowAndGray : list GuessRecord :=
  [ {| guess := lit "1+1=2"; patterns := Single (lit "yxxgx"); solved := false |} ].

(** ** The violations that [checkPatternConsistency] looks for *)

(** The number of positions at which the guess has [ch] marked green or
    yellow. *)
Definition isMarked (ch : ascii) (x : ascii * ascii) : bool :=
  Ascii.eqb (fst x) ch && (Ascii.eqb (snd x) "g" || Ascii.eqb (snd x) "y").

Definition marked (ch : ascii) (g pattern : str) : nat :=
  List.length (filter (isMarked ch) (combine g pattern)).

(** One round of the loop that fills [charCounts] in [markedCounts]. *)
Definition markStep (charCounts : Obj.t nat) (x : ascii * ascii) : Obj.t nat :=
  if Ascii.eqb (snd x) "g" || Ascii.eqb (snd x) "y"
  then increment charCounts (fst x)
  else charCounts.

(** A contradiction at one position.  [yellowToo] tells whether a yellow
    mark on a forbidden position counts: it does in [src/solver.js] and does
    not in [src/app.js]. *)
Definition PositionViolation (yellowToo : bool) (c : ConstraintSet)
  (i : nat) (ch color : ascii) : Prop :=
  (exists fixed,
      arrayGet (greens c) i = Some fixed /\ fixed <> ch /\ color = "g")
  \/ (arrayGet (greens c) i = Some ch /\ color <> "g")
  \/ (hasChar (excluded c) ch = true /\ (color = "g" \/ color = "y"))
  \/ (forbiddenAt c ch i = true
      /\ (color = "g" \/ (yellowToo = true /\ color = "y"))).

(** A character marked green or yellow more often than its cap allows. *)
Definition CountViolation (c : ConstraintSet) (g pattern : str) : Prop :=
  exists ch max,
    Obj.get (maxCounts c) ch = Some max /\ max < marked ch g pattern.

Definition Violation (yellowToo : bool) (c : ConstraintSet) (g pattern : str)
  : Prop :=
  (exists i ch color,
      nth_error g i = Some ch /\ nth_error pattern i = Some color /\
      PositionViolation yellowToo c i ch color)
  \/ CountViolation c g pattern.

(** A guess that repeats a yellow ['1'] at index 0. *)
Definition yellowAgainHistory : list GuessRecord :=
  [ {| guess := lit "1+2=3"; patterns := Single (lit "yxxgx"); solved := false |} ].

(** ** Cancellation *)

(** [st0] belongs to a run that goes on, [st] to the run cancelled from
    call [n] on: they are the same state, or the cancelled run has reached
    call [n] and the other one has only added results since. *)
Definition Cancelled (n : nat) (st0 st : SearchState) : Prop :=
  st0 = st \/
  (n <= S (dfsCallCount st) /\ exists more, results st0 = results st ++ more).


(** The default options of [src/app.js] with the flag set from the [n]-th
    call of [dfs] on. *)
Definition cancelledFrom (n len : nat) : Options :=
  {| length := len;
     maxResults := 200;
     timeoutMs := 0;
     cancelledRef := fun m => n <=? m |}.

(** ** The aggregate that the specification asks of the builder *)

(** A record takes part in the aggregation when it is not solved and its
    (first) pattern is not empty and as long as its guess. *)
Definition counted (r : GuessRecord) : option (str * str) :=
  if solved r then None
  else
    match firstPattern (patterns r) with
    | Some p => if patternMismatch (Some p) (guess r) then None
                else Some (guess r, p)
    | None => None
    end.

(** The number of positions at which the guess has [ch] with the mark
    [color]. *)
Definition colorCount (color ch : ascii) (g pattern : str) : nat :=
  List.length
    (filter (fun x => Ascii.eqb (fst x) ch && Ascii.eqb (snd x) color)
            (combine g pattern)).

(** The single-guess requirements observed for [ch]: its green+yellow count
    in every guess that marks it green or yellow at all. *)
Definition requirementsOf (ch : ascii) (history : list GuessRecord)
  : list nat :=
  flat_map
    (fun r =>
       match counted r with
       | Some (g, p) => if 0 <? marked ch g p then [marked ch g p] else []
       | None => []
       end)
    history.

(** The single-guess caps observed for [ch]: its green+yellow count in
    every guess that marks it gray as well as green or yellow. *)
Definition capsOf (ch : ascii) (history : list GuessRecord) : list nat :=
  flat_map
    (fun r =>
       match counted r with
       | Some (g, p) =>
           if (0 <? colorCount "x" ch g p) && (0 <? marked ch g p)
           then [marked ch g p]
           else []
       | None => []
       end)
    history.

(** The number of fixed positions that hold [ch]. *)
Definition fixedCount (ch : ascii) (gs : list (option ascii)) : nat :=
  List.length
    (filter (fun g => match g with
                      | Some c => Ascii.eqb c ch
                      | None => false
                      end) gs).

Definition IsMax (m : nat) (l : list nat) : Prop :=
  In m l /\ forall x, In x l -> x <= m.

Definition IsMin (m : nat) (l : list nat) : Prop :=
  In m l /\ forall x, In x l -> m <= x.

(** [o[k]] for an object of arrays, [[]] when the key is missing. *)
Definition getList (o : Obj.t (list nat)) (k : ascii) : list nat :=
  match Obj.get o k with
  | Some l => l
  | None => []
  end.

(** Two guesses that each mark ['+'] and ['='] green. *)
Definition twoGreenGuesses : list GuessRecord :=
  [ {| guess := lit "1+2=3"; patterns := Single (lit "xgxgx"); solved := false |};
    {| guess := lit "5+4=9"; patterns := Single (lit "xgxgx"); solved := false |} ].

(** ['1'] gray everywhere in the first guess, green in the second. *)
Definition grayThenGreen : list GuessRecord :=
  [ {| guess := lit "1+1=2"; patterns := Single (lit "xgxgx"); solved := false |};
    {| guess := lit "1+3=4"; patterns := Single (lit "ggxgx"); solved := false |} ].

(** The counters of [charColors[k]], 0 when the key is missing. *)
Definition greenOf (cc : Obj.t Colors) (k : ascii) : nat :=
  match Obj.get cc k with Some c => green c | None => 0 end.

Definition yellowOf (cc : Obj.t Colors) (k : ascii) : nat :=
  match Obj.get cc k with Some c => yellow c | None => 0 end.

Definition grayOf (cc : Obj.t Colors) (k : ascii) : nat :=
  match Obj.get cc k with Some c => gray c | None => 0 end.

(** What the state of the builder holds after a part of the history. *)
Record Recorded (b : App.BuildState) (reqs caps : ascii -> list nat) : Prop := {
  recorded_required : requiredCounts (App.constraints b) = Obj.empty;
  recorded_max : maxCounts (App.constraints b) = Obj.empty;
  recorded_req_keys : NoDup (map fst (App.charRequirements b));
  recorded_cap_keys : NoDup (map fst (App.charMaxLimits b));
  recorded_req_nonempty :
    forall k l, Obj.get (App.charRequirements b) k = Some l -> l <> [];
  recorded_cap_nonempty :
    forall k l, Obj.get (App.charMaxLimits b) k = Some l -> l <> [];
  recorded_reqs :
    forall k x, In x (getList (App.charRequirements b) k) <-> In x (reqs k);
  recorded_caps :
    forall k x, In x (getList (App.charMaxLimits b) k) <-> In x (caps k)
}.

(** Every fixed character was marked green by a guess that counts. *)
Definition GreensMarked (c : ConstraintSet) (hist : list GuessRecord) : Prop :=
  forall i ch, arrayGet (greens c) i = Some ch -> requirementsOf ch hist <> [].


(** Two guesses that cap ['1'] differently: at 1, then at 2. *)
Definition capOneThenTwo : list GuessRecord :=
  [ {| guess := lit "1+1=2"; patterns := Single (lit "yxxgx"); solved := false |};
    {| guess := lit "1*1=1"; patterns := Single (lit "yxygx"); solved := false |} ].

(** ** Proof automation *)

Ltac split_skips H :=
  repeat (apply orb_false_iff in H; let H' := fresh "Hskip" in
          destruct H as [H H']).

Ltac color_facts :=
  repeat match goal with
         | H : Ascii.eqb _ _ = true |- _ => apply Ascii.eqb_eq in H
         | H : Ascii.eqb _ _ = false |- _ => apply Ascii.eqb_neq in H
         end.

Ltac position_cases :=
  split;
  [ intros H;
    first
      [ now (exfalso; apply H)
      | left; eexists; split; [reflexivity | split; congruence]
      | right; left; split; congruence
      | right; right; left; split;
        [reflexivity | first [left; congruence | right; congruence]]
      | right; right; right; split;
        [ reflexivity
        | first [left; congruence | right; split; congruence] ] ]
  | intros [[f [Hf [Hne Hc]]]|[[Hf Hc]|[[He Hc]|[Hf Hc]]]];
    first
      [ discriminate
      | congruence
      | destruct Hc as [Hc|Hc]; first [congruence | destruct Hc; congruence] ] ].

(** * Further parts of the code *)

From Stdlib Require Import Sorted.

(** [scoreCandidate(b) - scoreCandidate(a) <= 0]: [a] may stand before [b] *)
Definition scoreOrder (a b : str) : Prop :=
  (scoreCandidate2 b <= scoreCandidate2 a)%Z.

(** the strings of a list whose score is [k] halves *)
Definition withScore (k : Z) (l : list str) : list str :=
  filter (fun s => (scoreCandidate2 s =? k)%Z) l.

(** What one call of [dfs] adds to the results: new strings, all
    different, all starting with the characters chosen so far. *)
Definition Adds (current : str) (before after : list str) : Prop :=
  exists more,
    after = before ++ more /\
    NoDup more /\
    forall s, In s more -> firstn (List.length current) s = current.

(** ** [estimateSearchSpace] ([src/app.js])

    [space] and [choices] are Numbers holding integers of at most
    [15 * 1000000], exact in binary64, so they are integers here and
    [Math.floor] changes nothing. *)

(** the inner loop: [allowedChars.length] less one for every allowed
    character that position [i] is forbidden for *)
Definition choicesAt (c : ConstraintSet) (i : nat) : Z :=
  fold_left
    (fun choices ch => if forbiddenAt c ch i then choices - 1 else choices)%Z
    (allowedChars c) (Z.of_nat (List.length (allowedChars c))).

(** the outer loop from index [i] on, [remaining] rounds to go *)
Fixpoint estimateLoop (c : ConstraintSet) (remaining i : nat) (space : Z)
  : Z :=
  match remaining with
  | 0 => space
  | S remaining' =>
      let space :=
        match arrayGet (greens c) i with
        | Some _ => (space * 1)%Z
        | None => (space * Z.max (choicesAt c i) 1)%Z
        end in
      if (1000000 <? space)%Z then 1000000%Z
      else estimateLoop c remaining' (S i) space
  end.

Definition estimateSearchSpace (c : ConstraintSet) (len : nat) : Z :=
  estimateLoop c len 0 1.

(** The number of ways to fill the positions [i .. i + n - 1]: one at a
    fixed position, [max(choices, 1)] at any other. *)
Fixpoint waysFrom (c : ConstraintSet) (i n : nat) : Z :=
  match n with
  | 0 => 1%Z
  | S n' =>
      (match arrayGet (greens c) i with
       | Some _ => 1
       | None => Z.max (choicesAt c i) 1
       end * waysFrom c (S i) n')%Z
  end.

(** ** What the builder records, guess by guess *)

(** The records that [buildConstraintsFromGuesses] of [src/solver.js] uses:
    that copy has no [solved] test. *)
Definition countedSolver (r : GuessRecord) : option (str * str) :=
  match firstPattern (patterns r) with
  | Some p => if patternMismatch (Some p) (guess r) then None
              else Some (guess r, p)
  | None => None
  end.

(** [charColors[ch].green > 0 || charColors[ch].yellow > 0] *)
Definition hasGreenOrYellow (charColors : Obj.t Colors) (ch : ascii) : bool :=
  match Obj.get charColors ch with
  | Some colors => (0 <? green colors) || (0 <? yellow colors)
  | None => false
  end.

(** [f[ch]?.has(i)] *)
Definition forbiddenIn (f : Obj.t (list nat)) (ch : ascii) (i : nat) : bool :=
  match Obj.get f ch with
  | Some s => hasPos s i
  | None => false
  end.

(** What one position of a guess does to [yellowForbiddenPositions]. *)
Definition forbidStep (charColors : Obj.t Colors) (f : Obj.t (list nat))
  (p : nat * (ascii * ascii)) : Obj.t (list nat) :=
  let '(i, (ch, color)) := p in
  if Ascii.eqb color "g" then f
  else if Ascii.eqb color "y" then forbid f ch i
  else if Ascii.eqb color "x" then
    if hasGreenOrYellow charColors ch then forbid f ch i else f
  else f.

(** The guess [g] with marks [p] has [ch] at index [i], marked yellow, or
    marked gray while [g] has a green or yellow [ch] elsewhere. *)
Definition ForbidsAt (ch : ascii) (i : nat) (g p : str) : Prop :=
  nth_error g i = Some ch /\
  (nth_error p i = Some "y"%char \/
   (nth_error p i = Some "x"%char /\ 0 < marked ch g p)).

(** The guess [g] with marks [p] has a gray [ch]. *)
Definition GrayIn (ch : ascii) (g p : str) : Prop :=
  exists i, nth_error g i = Some ch /\ nth_error p i = Some "x"%char.

(** The guess [g] with marks [p] has [ch] at index [i], marked green. *)
Definition GreenAt (ch : ascii) (i : nat) (g p : str) : Prop :=
  nth_error g i = Some ch /\ nth_error p i = Some "g"%char.

(** The record [r] counts (for the builder that [counts] stands for) and
    marks index [i] green. *)
Definition MarksGreen (counts : GuessRecord -> option (str * str)) (i : nat)
  (r : GuessRecord) : Prop :=
  exists g p, counts r = Some (g, p) /\ nth_error p i = Some "g"%char.

(** [ch] is the character that the last record marking index [i] green has
    there. *)
Definition LastGreen (counts : GuessRecord -> option (str * str))
  (hist : list GuessRecord) (i : nat) (ch : ascii) : Prop :=
  exists before r after g p,
    hist = before ++ r :: after /\
    counts r = Some (g, p) /\ GreenAt ch i g p /\
    forall r', In r' after -> ~ MarksGreen counts i r'.

(** ** [generateCandidatesAsync] ([src/app.js])

    The search that the interface of [src/unnamed/part_000] calls.  It has
    no time limit; it tries the characters of a free position in the order
    of [getSortedChars]; every 1000 calls, when more than 50 ms have passed
    since it last did, it gives way to the event loop, reads the flag again
    and reports its progress.

    The flag and the clock belong to the outside: [flagAtEntry n] is what
    [cancelledRef.value] holds at the start of the [n]-th call of [dfs],
    [clockAtCheck n] what [Date.now()] answers in the test of the [n]-th
    call, and [clockAfterYield n], [flagAfterYield n] what the call reads
    once it has the control back.  What [onProgress] is called with is kept
    as a list; the counters that only feed [console.log] are left out. *)
Module AppAsync.

Record World := {
  flagAtEntry : nat -> bool;
  clockAtCheck : nat -> Z;
  clockAfterYield : nat -> Z;
  flagAfterYield : nat -> bool;
  clockAtStart : Z
}.

(** the argument of [onProgress] *)
Record Progress := {
  found : nat;
  explored : nat;
  current : str;
  newResult : option str
}.

Record State := {
  dfsCallCount : nat;
  results : list str;
  lastYieldTime : Z;
  reported : list Progress
}.

Section Search.
Variable evalReturn : str -> Completion.
Variable world : World.
Variable constraints : ConstraintSet.
Variable options : Options.

(** the priority of [getSortedChars], in halves (the ideal position of
    ['='] is [length * 0.5]); every value is a multiple of 0.5 far below
    2^53, so the sums are exact *)
Definition priority2 (pos : nat) (used : Obj.t nat) (ch : ascii) : Z :=
  let currentUsed := Z.of_nat (getOr0 used ch) in
  (match Obj.get (requiredCounts constraints) ch with
   | Some required =>
       if Nat.eqb required 0 then 0
       else
         let needed := Z.of_nat required - currentUsed in
         if 0 <? needed then 2 * (needed * 1000) else 0
   | None => 0
   end
   + (if isDigit ch then 200 else 0)
   + (if Ascii.eqb ch "="
      then Z.max 0 (100 - 5 * Z.abs (2 * Z.of_nat pos
                                     - Z.of_nat (length options)))
      else 0)
   + (if includes operators ch && Nat.ltb pos 2 then -100 else 0)
   + (if isDigit ch then
        if Ascii.eqb ch "1" then 10
        else if Ascii.eqb ch "2" then 8
        else if Ascii.eqb ch "0" then 6
        else 0
      else 0)
   + (if Ascii.eqb ch "+" || Ascii.eqb ch "-" then 20 else 0)
   + (if Ascii.eqb ch "*" || Ascii.eqb ch "/" then 10 else 0))%Z.

(** the tests of [getSortedChars] that end in [continue] *)
Definition filtered (pos : nat) (used : Obj.t nat) (hasEqual : bool)
  (ch : ascii) : bool :=
  (Ascii.eqb ch "="
   && (hasEqual || Nat.eqb pos 0 || Nat.eqb pos (length options - 1)))
  || (hasEqual && includes (lit "*/+") ch)
  || forbiddenAt constraints ch pos
  || match Obj.get (maxCounts constraints) ch with
     | Some max => negb (Nat.eqb max 0) && (max <=? getOr0 used ch)
     | None => false
     end.

(** [chars.sort((a, b) => b.priority - a.priority)]: by falling priority,
    equal priorities keep their order *)
Fixpoint insertByPriority (x : ascii * Z) (sorted : list (ascii * Z))
  : list (ascii * Z) :=
  match sorted with
  | [] => [x]
  | y :: rest =>
      if (snd x <? snd y)%Z then y :: insertByPriority x rest
      else x :: sorted
  end.

Definition sortByPriority (l : list (ascii * Z)) : list (ascii * Z) :=
  fold_right insertByPriority [] l.

Definition getSortedChars (pos : nat) (used : Obj.t nat) (hasEqual : bool)
  : str :=
  map fst
    (sortByPriority
       (map (fun ch => (ch, priority2 pos used ch))
            (filter (fun ch => negb (filtered pos used hasEqual ch))
                    (allowedChars constraints)))).

(** the tests of the loop over [sortedChars] that end in [continue] *)
Definition skips (pos : nat) (current : str) (used : Obj.t nat)
  (hasEqual : bool) (ch : ascii) : bool :=
  let lastChar := lastCharOf pos current in
  (includes operators ch
   && match lastChar with
      | Some lc =>
          includes (lit "+-*/=") lc
          && (negb (Ascii.eqb ch "-")
              || (Ascii.eqb lc "-" && Ascii.eqb ch "-"))
      | None => false
      end)
  || (Ascii.eqb ch "="
      && (match lastChar with
          | Some lc => includes operators lc
          | None => false
          end
          || (0 <? needOperators constraints used)))
  || (hasEqual && includes (lit "*/+") ch)
  || exceedsMax constraints (increment used ch) ch
  || (length options - pos - 1 <? needMore constraints (increment used ch)).

Definition countCall (st : State) : State :=
  {| dfsCallCount := S (dfsCallCount st);
     results := results st;
     lastYieldTime := lastYieldTime st;
     reported := reported st |}.

(** the body of [if (Date.now() - lastYieldTime > 50)], up to the second
    reading of the flag *)
Definition yield (st : State) : State :=
  {| dfsCallCount := dfsCallCount st;
     results := results st;
     lastYieldTime := clockAfterYield world (dfsCallCount st);
     reported := reported st |}.

Definition report (st : State) (cur : str) (new : option str) : State :=
  {| dfsCallCount := dfsCallCount st;
     results := results st;
     lastYieldTime := lastYieldTime st;
     reported :=
       reported st
       ++ [ {| found := List.length (results st);
               explored := dfsCallCount st;
               current := cur;
               newResult := new |} ] |}.

Definition pushResult (st : State) (s : str) : State :=
  {| dfsCallCount := dfsCallCount st;
     results := results st ++ [s];
     lastYieldTime := lastYieldTime st;
     reported := reported st |}.

(** the block [if (dfsCallCount % 1000 === 0) { ... }]; the flag tells
    whether [dfs] returns from inside it *)
Definition checkpoint (st : State) (cur : str) : State * bool :=
  if Nat.eqb (dfsCallCount st mod 1000) 0
     && (50 <? clockAtCheck world (dfsCallCount st) - lastYieldTime st)%Z
  then
    let st := yield st in
    if flagAfterYield world (dfsCallCount st) then (st, true)
    else (report st cur None, false)
  else (st, false).

(** [dfs(pos, current, used, hasEqual)] with [pos = length - remaining] *)
Fixpoint dfs (remaining : nat) (cur : str) (used : Obj.t nat)
  (hasEqual : bool) (st : State) : State :=
  let pos := length options - remaining in
  let st := countCall st in
  if flagAtEntry world (dfsCallCount st) then st
  else
    let (st, returned) := checkpoint st cur in
    if returned then st
    else if maxResults options <=? List.length (results st) then st
    else
      match remaining with
      | 0 =>
          if negb hasEqual then st
          else if negb (isValidEquation evalReturn cur) then st
          else if negb (meetsRequired constraints used) then st
          else report (pushResult st cur) cur (Some cur)
      | S remaining' =>
          match arrayGet (greens constraints) pos with
          | Some ch =>
              if Ascii.eqb ch "="
                 && match lastCharOf pos cur with
                    | Some lc => includes operators lc
                    | None => false
                    end
              then st
              else
                let newUsed := increment used ch in
                if exceedsMax constraints newUsed ch then st
                else dfs remaining' (cur ++ [ch]) newUsed
                         (hasEqual || Ascii.eqb ch "=") st
          | None =>
              fold_left
                (fun st ch =>
                   if skips pos cur used hasEqual ch then st
                   else dfs remaining' (cur ++ [ch]) (increment used ch)
                            (hasEqual || Ascii.eqb ch "=") st)
                (getSortedChars pos used hasEqual) st
          end
      end.

Definition initialState : State :=
  {| dfsCallCount := 0;
     results := [];
     lastYieldTime := clockAtStart world;
     reported := [] |}.

Definition generateCandidatesAsync : list str :=
  sortByScore
    (results (dfs (length options) [] Obj.empty false initialState)).
End Search.

End AppAsync.

(** A run in which nobody sets the flag and the clock stands still. *)
Definition quietWorld : AppAsync.World :=
  {| AppAsync.flagAtEntry := fun _ => false;
     AppAsync.clockAtCheck := fun _ => 0%Z;
     AppAsync.clockAfterYield := fun _ => 0%Z;
     AppAsync.flagAfterYield := fun _ => false;
     AppAsync.clockAtStart := 0%Z |}.

(** The strings that [onProgress] was handed as [newResult], in order. *)
Definition newResults (events : list AppAsync.Progress) : list str :=
  flat_map (fun e => match AppAsync.newResult e with
                     | Some s => [s]
                     | None => []
                     end) events.

(** The green and yellow marks of [ch], summed over the guesses that
    [src/solver.js] counts. *)
Definition markedTotal (ch : ascii) (history : list GuessRecord) : nat :=
  list_sum
    (map (fun r => match countedSolver r with
                   | Some (g, p) => marked ch g p
                   | None => 0
                   end) history).

(** [capsOf], for the guesses that [src/solver.js] counts. *)
Definition capsOfSolver (ch : ascii) (history : list GuessRecord) : list nat :=
  flat_map
    (fun r =>
       match countedSolver r with
       | Some (g, p) =>
           if (0 <? colorCount "x" ch g p) && (0 <? marked ch g p)
           then [marked ch g p]
           else []
       | None => []
       end)
    history.

(** [l[l.length - 1]], [None] for an empty list. *)
Definition lastOf (l : list nat) : option nat :=
  match rev l with
  | [] => None
  | x :: _ => Some x
  end.

(** A guess with its marks, as the interface stores it when no pattern is
    all green. *)
Definition recordOf (g p : str) : GuessRecord :=
  {| guess := g; patterns := Single p; solved := false |}.

(** [p.split('').every(c => c === 'g')] *)
Definition allGreen (p : str) : bool := forallb (fun c => Ascii.eqb c "g") p.

(** A run in which the flag is set when the 40th call of [dfs] starts. *)
Definition cancelledWorld : AppAsync.World :=
  {| AppAsync.flagAtEntry := fun n => 40 <=? n;
     AppAsync.clockAtCheck := fun _ => 0%Z;
     AppAsync.clockAfterYield := fun _ => 0%Z;
     AppAsync.flagAfterYield := fun _ => true;
     AppAsync.clockAtStart := 0%Z |}.

(** [b.priority - a.priority <= 0]: [a] may stand before [b] *)
Definition priorityOrder (a b : ascii * Z) : Prop := (snd b <= snd a)%Z.

(** Nothing known but that a ['7'] is required. *)
Definition needsSeven : ConstraintSet :=
  {| greens := repeat None 5;
     requiredCounts := [("7"%char, 1)];
     maxCounts := Obj.empty;
     excluded := [];
     yellowForbiddenPositions := Obj.empty |}.

(** ** Four targets ([generateCandidatesFor4Mode], both copies, and
    [searchSingleTargetAsync] of [src/unnamed/part_000])

    Every target is searched on its own, on the history with the patterns
    of that target only.  The object [{ guess, patterns: pattern }] built
    for the builder has no [solved]; when [pattern] is [undefined] it is
    written [Multi []] here, which [firstPattern] maps to [None] exactly as
    it maps [undefined], so that the builders skip the record in either
    form. *)
Definition targetRecord (g : str) (pattern : option str) : GuessRecord :=
  {| guess := g;
     patterns := match pattern with
                 | Some p => Single p
                 | None => Multi []
                 end;
     solved := false |}.

(** the options object with what the flag holds during one of the
    searches *)
Definition withFlag (o : Options) (flag : nat -> bool) : Options :=
  {| length := length o;
     maxResults := maxResults o;
     timeoutMs := timeoutMs o;
     cancelledRef := flag |}.

Module App4.

(** [Array.isArray(patterns) ? patterns[targetIdx] : patterns] *)
Definition targetPattern (targetIdx : nat) (ps : Patterns) : option str :=
  match ps with
  | Single p => Some p
  | Multi l => nth_error l targetIdx
  end.

Definition targetGuesses (targetIdx : nat) (guesses : list GuessRecord)
  : list GuessRecord :=
  map (fun r => targetRecord (guess r) (targetPattern targetIdx (patterns r)))
      guesses.

(** [Date_now t] and [flag t] are the clock and the flag during the search
    for target [t]. *)
Definition generateCandidatesFor4Mode (evalReturn : str -> Completion)
  (Date_now : nat -> nat -> Z) (flag : nat -> nat -> bool)
  (guesses : list GuessRecord) (options : Options) : list (list str) :=
  map (fun targetIdx =>
         App.generateCandidates evalReturn (Date_now targetIdx)
           (App.buildConstraintsFromGuesses
              (targetGuesses targetIdx guesses) (length options))
           (withFlag options (flag targetIdx)))
      (seq 0 4).

(** [searchSingleTargetAsync(targetIdx, guesses, options)]; the progress
    it passes on is that of [generateCandidatesAsync] *)
Definition searchSingleTargetAsync (evalReturn : str -> Completion)
  (world : AppAsync.World) (targetIdx : nat) (guesses : list GuessRecord)
  (options : Options) : list str :=
  AppAsync.generateCandidatesAsync evalReturn world
    (App.buildConstraintsFromGuesses
       (targetGuesses targetIdx guesses) (length options))
    options.

End App4.

Module Solver4.

(** [patterns[targetIdx]]: of an array its element, of a string the
    character at that index *)
Definition targetPattern (targetIdx : nat) (ps : Patterns) : option str :=
  match ps with
  | Single p => option_map (fun c => [c]) (nth_error p targetIdx)
  | Multi l => nth_error l targetIdx
  end.

Definition targetGuesses (targetIdx : nat) (guesses : list GuessRecord)
  : list GuessRecord :=
  map (fun r => targetRecord (guess r) (targetPattern targetIdx (patterns r)))
      guesses.

Definition generateCandidatesFor4Mode (evalReturn : str -> Completion)
  (Date_now : nat -> nat -> Z) (flag : nat -> nat -> bool)
  (guesses : list GuessRecord) (options : Options) : list (list str) :=
  map (fun targetIdx =>
         Solver.generateCandidates evalReturn (Date_now targetIdx)
           (Solver.buildConstraintsFromGuesses
              (targetGuesses targetIdx guesses) (length options))
           (withFlag options (flag targetIdx)))
      (seq 0 4).

End Solver4.

(** A row of a 4-target game whose first target is solved. *)
Definition solvedRow : GuessRecord :=
  {| guess := lit "3+3=6";
     patterns := Multi [lit "ggggg"; lit "xxxxx"; lit "xyxxx"; lit "xxxxx"];
     solved := true |}.

(** the record without its [solved] mark *)
Definition unsolved (r : GuessRecord) : GuessRecord :=
  {| guess := guess r; patterns := patterns r; solved := false |}.
(** * Properties *)

(** ** Objects, sets and tallies *)

Lemma eqb_sym (a b : ascii) : Ascii.eqb a b = Ascii.eqb b a.
Proof.
  destruct (Ascii.eqb_spec a b) as [->|H].
  - symmetry. apply Ascii.eqb_refl.
  - symmetry. apply Ascii.eqb_neq. congruence.
Qed.

Lemma includes_In (s : str) (c : ascii) : includes s c = true <-> In c s.
Proof.
  unfold includes. rewrite existsb_exists. split.
  - intros [x [Hin Heq]]. apply Ascii.eqb_eq in Heq. now subst.
  - intros H. exists c. split; [assumption | apply Ascii.eqb_refl].
Qed.

Lemma includes_app (s t : str) (c : ascii) :
  includes (s ++ t) c = includes s c || includes t c.
Proof. unfold includes. apply existsb_app. Qed.

Lemma countChar_app (c : ascii) (s t : str) :
  countChar c (s ++ t) = countChar c s + countChar c t.
Proof. unfold countChar. apply count_occ_app. Qed.

Lemma countChar_single (c ch : ascii) :
  countChar c [ch] = if Ascii.eqb c ch then 1 else 0.
Proof.
  unfold countChar. simpl.
  destruct (ascii_dec ch c) as [->|H].
  - now rewrite Ascii.eqb_refl.
  - destruct (Ascii.eqb_spec c ch); congruence.
Qed.

Section ObjFacts.
Variable V : Type.
Implicit Types (o : Obj.t V) (k : ascii) (v : V).

Lemma get_set o k v k' :
  Obj.get (Obj.set o k v) k' = if Ascii.eqb k' k then Some v else Obj.get o k'.
Proof.
  induction o as [|[k0 v0] o IH]; simpl.
  - reflexivity.
  - destruct (Ascii.eqb_spec k k0) as [->|Hk]; simpl.
    + destruct (Ascii.eqb k' k0); reflexivity.
    + rewrite IH.
      destruct (Ascii.eqb_spec k' k0) as [->|Hk'].
      * destruct (Ascii.eqb_spec k0 k); congruence.
      * reflexivity.
Qed.

Lemma get_In o k v : Obj.get o k = Some v -> In (k, v) o.
Proof.
  induction o as [|[k0 v0] o IH]; simpl; [discriminate|].
  destruct (Ascii.eqb_spec k k0) as [->|Hk]; intros H.
  - left. congruence.
  - right. auto.
Qed.

Lemma In_entries o (x : ascii * V) : In x (Obj.entries o) <-> In x o.
Proof.
  unfold Obj.entries, Obj.entriesOf.
  rewrite in_app_iff, in_flat_map. split.
  - intros [[d [_ H]]|H]; apply filter_In in H; tauto.
  - intros H. destruct (isDigit (fst x)) eqn:Hd.
    + left. exists (fst x). split.
      * now apply includes_In.
      * apply filter_In. split; [assumption | apply Ascii.eqb_refl].
    + right. apply filter_In. split; [assumption | now rewrite Hd].
Qed.

Lemma get_In_entries o k v : Obj.get o k = Some v -> In (k, v) (Obj.entries o).
Proof. intros H. apply In_entries. now apply get_In. Qed.
End ObjFacts.

Lemma getOr0_increment (o : Obj.t nat) (k k' : ascii) :
  getOr0 (increment o k) k' = getOr0 o k' + (if Ascii.eqb k' k then 1 else 0).
Proof.
  unfold getOr0 at 1, increment. rewrite get_set.
  destruct (Ascii.eqb_spec k' k) as [->|H]; [reflexivity|].
  unfold getOr0. lia.
Qed.

Lemma Tally_empty : Tally Obj.empty [].
Proof. intros k. reflexivity. Qed.

Lemma Tally_step (used : Obj.t nat) (s : str) (ch : ascii) :
  Tally used s -> Tally (increment used ch) (s ++ [ch]).
Proof.
  intros H k. rewrite getOr0_increment, countChar_app, countChar_single, H.
  reflexivity.
Qed.

(** ** The order of the results *)

Lemma insertByScore_perm (x : str) (l : list str) :
  Permutation (insertByScore x l) (x :: l).
Proof.
  induction l as [|y l IH]; simpl.
  - apply Permutation_refl.
  - destruct (scoreCandidate2 x <? scoreCandidate2 y)%Z.
    + rewrite IH. apply perm_swap.
    + apply Permutation_refl.
Qed.

Lemma sortByScore_perm (l : list str) : Permutation (sortByScore l) l.
Proof.
  induction l as [|x l IH]; simpl.
  - apply perm_nil.
  - rewrite insertByScore_perm. now apply perm_skip.
Qed.

Lemma In_sortByScore (l : list str) (s : str) : In s (sortByScore l) <-> In s l.
Proof.
  split; apply Permutation_in;
    [apply sortByScore_perm | apply Permutation_sym, sortByScore_perm].
Qed.

(** ** What the validator checks before it evaluates *)

Lemma isValidEquation_shape (evalReturn : str -> Completion) (s : str) :
  isValidEquation evalReturn s = true ->
  5 <= List.length s /\ matchesEquationChars s = true /\ countChar "=" s = 1.
Proof.
  unfold isValidEquation. intros H.
  destruct (Nat.eqb (List.length s) 0 || (List.length s <? 5)) eqn:Hlen;
    [discriminate|].
  apply orb_false_iff in Hlen. destruct Hlen as [_ Hlen].
  apply Nat.ltb_ge in Hlen.
  destruct (matchesEquationChars s); [|discriminate].
  destruct (Nat.eqb (countChar "=" s) 1) eqn:Heq; [|discriminate].
  apply Nat.eqb_eq in Heq. auto.
Qed.

(** ** Every result is an accepted path *)

Section PathFacts.
Variable evalReturn : str -> Completion.
Variable constraints : ConstraintSet.
Variable len : nat.
Variable fixedOk : nat -> str -> Obj.t nat -> ascii -> bool.
Variable freeOk : nat -> str -> Obj.t nat -> bool -> ascii -> bool.

Lemma PathOk_nil : PathOk constraints fixedOk freeOk [].
Proof. intros i ch H. destruct i; discriminate. Qed.

Lemma PathOk_snoc (current : str) (ch : ascii) :
  PathOk constraints fixedOk freeOk current ->
  StepOk constraints fixedOk freeOk current ch ->
  PathOk constraints fixedOk freeOk (current ++ [ch]).
Proof.
  intros Hpath Hstep i c Hi.
  destruct (Nat.lt_ge_cases i (List.length current)) as [Hlt|Hge].
  - rewrite nth_error_app1 in Hi by assumption.
    rewrite firstn_app.
    replace (i - List.length current) with 0 by lia.
    simpl. rewrite app_nil_r. now apply Hpath.
  - rewrite nth_error_app2 in Hi by assumption.
    assert (i = List.length current) as ->.
    { destruct (i - List.length current) as [|k] eqn:Hk; [lia|].
      simpl in Hi. destruct k; discriminate. }
    rewrite Nat.sub_diag in Hi. simpl in Hi. injection Hi as <-.
    rewrite firstn_app, Nat.sub_diag, firstn_all. simpl.
    now rewrite app_nil_r.
Qed.

Lemma meetsRequired_sound (used : Obj.t nat) (s : str) :
  Tally used s ->
  meetsRequired constraints used = true ->
  MeetsRequired constraints s.
Proof.
  intros Ht Hm ch n Hin. unfold meetsRequired in Hm.
  rewrite forallb_forall in Hm. specialize (Hm _ Hin). simpl in Hm.
  apply negb_true_iff, Nat.ltb_ge in Hm. now rewrite <- Ht.
Qed.
End PathFacts.

(** A loop that keeps an invariant of the state keeps it to the end. *)
Lemma fold_left_invariant (A B : Type) (P : A -> Prop) (f : A -> B -> A)
  (l : list B) (a : A) :
  P a -> (forall x b, In b l -> P x -> P (f x b)) -> P (fold_left f l a).
Proof.
  revert a. induction l as [|b l IH]; simpl; intros a Ha Hf.
  - assumption.
  - apply IH.
    + apply Hf; auto.
    + intros x b' Hin. apply Hf. now right.
Qed.

Lemma includes_snoc_equal (current : str) (ch : ascii) :
  includes (current ++ [ch]) "=" = includes current "=" || Ascii.eqb ch "=".
Proof.
  rewrite includes_app. unfold includes at 2. simpl.
  now rewrite orb_false_r, eqb_sym.
Qed.

Lemma allowedChars_In (c : ConstraintSet) (ch : ascii) :
  In ch (allowedChars c) ->
  In ch alphabet /\ hasChar (excluded c) ch = false.
Proof.
  unfold allowedChars. rewrite filter_In. intros [H1 H2].
  split; [assumption | now apply negb_true_iff].
Qed.

Section AppSound.
Variable evalReturn : str -> Completion.
Variable Date_now : nat -> Z.
Variable constraints : ConstraintSet.
Variable options : Options.

Lemma App_dfs_sound (remaining : nat) :
  forall (current : str) (used : Obj.t nat) (hasEqual : bool) (st : SearchState),
    remaining <= length options ->
    List.length current = length options - remaining ->
    Tally used current ->
    hasEqual = includes current "=" ->
    PathOk constraints (fixedOkApp constraints)
           (freeOkApp constraints options) current ->
    Forall (AcceptedApp evalReturn constraints options) (results st) ->
    Forall (AcceptedApp evalReturn constraints options)
      (results (App.dfs evalReturn Date_now constraints options
                        remaining current used hasEqual st)).
Proof.
  induction remaining as [|remaining IH];
    intros current used hasEqual st Hle Hlen Htally Heq Hpath Hst.
  - simpl.
    destruct (cancelledRef options _); [assumption|].
    destruct (_ && _); [assumption|].
    destruct (_ <=? _); [assumption|].
    destruct hasEqual; simpl; [|assumption].
    destruct (isValidEquation evalReturn current) eqn:Hvalid; simpl;
      [|assumption].
    destruct (meetsRequired constraints used) eqn:Hreq; simpl; [|assumption].
    apply Forall_app. split; [assumption|].
    constructor; [|constructor].
    constructor; try assumption.
    + lia.
    + now apply meetsRequired_sound with used.
  - cbn [App.dfs].
    destruct (cancelledRef options _); [assumption|].
    destruct (_ && _); [assumption|].
    destruct (_ <=? _); [assumption|].
    assert (Hpos : length options - S remaining = List.length current) by lia.
    rewrite Hpos.
    destruct (arrayGet (greens constraints) (List.length current)) as [ch|]
      eqn:Hfixed.
    + destruct (Ascii.eqb ch "=" && _) eqn:Hprune; [assumption|].
      destruct (exceedsMax constraints (increment used ch) ch) eqn:Hmax;
        [assumption|].
      apply IH; try assumption.
      * lia.
      * rewrite length_app. simpl. lia.
      * now apply Tally_step.
      * now rewrite includes_snoc_equal, Heq.
      * apply PathOk_snoc; [assumption|].
        exists used. split; [assumption|]. rewrite Hfixed.
        split; [reflexivity|].
        unfold fixedOkApp. now rewrite Hprune, Hmax.
    + apply fold_left_invariant; [assumption|].
      intros st' ch Hin Hst'. simpl.
      destruct (App.skips constraints options (List.length current) current
                          used hasEqual ch) eqn:Hskip; [assumption|].
      apply IH; try assumption.
      * lia.
      * rewrite length_app. simpl. lia.
      * now apply Tally_step.
      * now rewrite includes_snoc_equal, Heq.
      * apply PathOk_snoc; [assumption|].
        exists used. split; [assumption|]. rewrite Hfixed.
        split; [assumption|].
        unfold freeOkApp. now rewrite <- Heq, Hskip.
Qed.

Lemma App_results_accepted (s : str) :
  In s (App.generateCandidates evalReturn Date_now constraints options) ->
  (AcceptedApp evalReturn constraints options) s.
Proof.
  unfold App.generateCandidates. rewrite In_sortByScore. intros Hin.
  assert (H : Forall (AcceptedApp evalReturn constraints options)
            (results (App.dfs evalReturn Date_now constraints options
                              (length options) [] Obj.empty false initialState))).
  { apply App_dfs_sound.
    - lia.
    - simpl. lia.
    - apply Tally_empty.
    - reflexivity.
    - apply PathOk_nil.
    - constructor. }
  rewrite Forall_forall in H. now apply H.
Qed.
End AppSound.

Section SolverSound.
Variable evalReturn : str -> Completion.
Variable Date_now : nat -> Z.
Variable constraints : ConstraintSet.
Variable options : Options.

Lemma Solver_dfs_sound (remaining : nat) :
  forall (current : str) (used : Obj.t nat) (hasEqual : bool) (st : SearchState),
    remaining <= length options ->
    List.length current = length options - remaining ->
    Tally used current ->
    hasEqual = includes current "=" ->
    PathOk constraints (fixedOkSolver constraints)
           (freeOkSolver constraints options) current ->
    Forall (AcceptedSolver evalReturn constraints options) (results st) ->
    Forall (AcceptedSolver evalReturn constraints options)
      (results (Solver.dfs evalReturn Date_now constraints options
                           remaining current used hasEqual st)).
Proof.
  induction remaining as [|remaining IH];
    intros current used hasEqual st Hle Hlen Htally Heq Hpath Hst.
  - simpl.
    destruct (cancelledRef options _ || _); [assumption|].
    destruct (_ <=? _); [assumption|].
    destruct hasEqual; simpl; [|assumption].
    destruct (isValidEquation evalReturn current) eqn:Hvalid; [|assumption].
    destruct (meetsRequired constraints used) eqn:Hreq; [|assumption].
    apply Forall_app. split; [assumption|].
    constructor; [|constructor].
    constructor; try assumption.
    + lia.
    + now apply meetsRequired_sound with used.
  - cbn [Solver.dfs].
    destruct (cancelledRef options _ || _); [assumption|].
    destruct (_ <=? _); [assumption|].
    assert (Hpos : length options - S remaining = List.length current) by lia.
    rewrite Hpos.
    destruct (arrayGet (greens constraints) (List.length current)) as [ch|]
      eqn:Hfixed.
    + destruct (exceedsMax constraints (increment used ch) ch) eqn:Hmax;
        [assumption|].
      apply IH; try assumption.
      * lia.
      * rewrite length_app. simpl. lia.
      * now apply Tally_step.
      * now rewrite includes_snoc_equal, Heq.
      * apply PathOk_snoc; [assumption|].
        exists used. split; [assumption|]. rewrite Hfixed.
        split; [reflexivity|].
        unfold fixedOkSolver. now rewrite Hmax.
    + apply fold_left_invariant; [assumption|].
      intros st' ch Hin Hst'. simpl.
      destruct (Solver.skips constraints options (List.length current)
                             used hasEqual ch) eqn:Hskip; [assumption|].
      apply IH; try assumption.
      * lia.
      * rewrite length_app. simpl. lia.
      * now apply Tally_step.
      * now rewrite includes_snoc_equal, Heq.
      * apply PathOk_snoc; [assumption|].
        exists used. split; [assumption|]. rewrite Hfixed.
        split; [assumption|].
        unfold freeOkSolver. now rewrite <- Heq, Hskip.
Qed.

Lemma Solver_results_accepted (s : str) :
  In s (Solver.generateCandidates evalReturn Date_now constraints options) ->
  (AcceptedSolver evalReturn constraints options) s.
Proof.
  unfold Solver.generateCandidates. rewrite In_sortByScore. intros Hin.
  assert (H : Forall (AcceptedSolver evalReturn constraints options)
            (results (Solver.dfs evalReturn Date_now constraints options
                                 (length options) [] Obj.empty false
                                 initialState))).
  { apply Solver_dfs_sound.
    - lia.
    - simpl. lia.
    - apply Tally_empty.
    - reflexivity.
    - apply PathOk_nil.
    - constructor. }
  rewrite Forall_forall in H. now apply H.
Qed.
End SolverSound.

(** ** What follows for an accepted string *)

Lemma countChar_pos_In (c : ascii) (s : str) : 0 < countChar c s -> In c s.
Proof. unfold countChar. intros H. now apply (count_occ_In ascii_dec). Qed.

Section AcceptedFacts.
Variable evalReturn : str -> Completion.
Variable constraints : ConstraintSet.
Variable len : nat.
Variable fixedOk : nat -> str -> Obj.t nat -> ascii -> bool.
Variable freeOk : nat -> str -> Obj.t nat -> bool -> ascii -> bool.

Lemma Accepted_equation (s : str) :
  (Accepted evalReturn constraints len fixedOk freeOk) s ->
  List.length s = len /\ In "=" s /\ isValidEquation evalReturn s = true /\
  MeetsRequired constraints s.
Proof.
  intros [Hlen Hvalid Hreq _]. repeat split; try assumption.
  apply isValidEquation_shape in Hvalid. destruct Hvalid as [_ [_ Hcount]].
  apply countChar_pos_In. lia.
Qed.

(** Both branches test the cap before they recurse: a positive cap holds
    for every prefix. *)
Hypothesis fixedOk_max : forall pos current used ch,
  fixedOk pos current used ch = true ->
  exceedsMax constraints (increment used ch) ch = false.
Hypothesis freeOk_max : forall pos current used hasEqual ch,
  freeOk pos current used hasEqual ch = true ->
  exceedsMax constraints (increment used ch) ch = false.

Lemma PathOk_max (s : str) (ch : ascii) (max : nat) :
  PathOk constraints fixedOk freeOk s ->
  Obj.get (maxCounts constraints) ch = Some max ->
  max <> 0 ->
  forall n, countChar ch (firstn n s) <= max.
Proof.
  intros Hpath Hget Hmax n. induction n as [|n IH].
  - simpl. lia.
  - destruct (nth_error s n) as [c|] eqn:Hn.
    + assert (Hsplit : firstn (S n) s = firstn n s ++ [c]).
      { clear - Hn. revert n Hn. induction s as [|x s IHs]; intros [|n] Hn;
          simpl in *; try discriminate.
        - now injection Hn as ->.
        - f_equal. now apply IHs. }
      rewrite Hsplit, countChar_app, countChar_single.
      destruct (Ascii.eqb_spec ch c) as [<-|Hne]; [|lia].
      destruct (Hpath n ch Hn) as [used [Htally Hstep]].
      assert (Hex : exceedsMax constraints (increment used ch) ch = false).
      { destruct (arrayGet (greens constraints) (List.length (firstn n s))).
        - destruct Hstep as [_ H]. now apply fixedOk_max in H.
        - destruct Hstep as [_ H]. now apply freeOk_max in H. }
      unfold exceedsMax in Hex. rewrite Hget in Hex.
      apply andb_false_iff in Hex. destruct Hex as [Hex|Hex].
      * apply negb_false_iff, Nat.eqb_eq in Hex. contradiction.
      * apply Nat.ltb_ge in Hex.
        rewrite getOr0_increment, Ascii.eqb_refl, Htally in Hex. lia.
    + apply nth_error_None in Hn.
      rewrite firstn_all2 by lia.
      rewrite firstn_all2 in IH by lia. assumption.
Qed.

Lemma Accepted_max (s : str) (ch : ascii) (max : nat) :
  (Accepted evalReturn constraints len fixedOk freeOk) s ->
  Obj.get (maxCounts constraints) ch = Some max ->
  max <> 0 ->
  countChar ch s <= max.
Proof.
  intros [_ _ _ Hpath] Hget Hmax.
  rewrite <- (firstn_all s). now apply PathOk_max.
Qed.

(** The loop tests the forbidden positions: a character at a position
    that is not fixed is not forbidden there. *)
Hypothesis freeOk_forbidden : forall pos current used hasEqual ch,
  freeOk pos current used hasEqual ch = true ->
  forbiddenAt constraints ch pos = false.

Lemma Accepted_forbidden (s : str) (i : nat) (ch : ascii) :
  (Accepted evalReturn constraints len fixedOk freeOk) s ->
  nth_error s i = Some ch ->
  arrayGet (greens constraints) i = None ->
  forbiddenAt constraints ch i = false.
Proof.
  intros [_ _ _ Hpath] Hi Hfree.
  destruct (Hpath i ch Hi) as [used [_ Hstep]].
  assert (Hlen : List.length (firstn i s) = i).
  { apply firstn_length_le. apply Nat.lt_le_incl.
    apply nth_error_Some. congruence. }
  rewrite Hlen, Hfree in Hstep. destruct Hstep as [_ H].
  now apply freeOk_forbidden in H.
Qed.
End AcceptedFacts.

Lemma memStr_In (s : str) (l : list str) : memStr s l = true -> In s l.
Proof.
  unfold memStr. rewrite existsb_exists. intros [x [Hin Heq]].
  unfold strEqb in Heq. destruct (list_eq_dec ascii_dec s x); [|discriminate].
  now subst.
Qed.

(** ** The tests behind [fixedOk] and [freeOk] *)

Lemma fixedOkApp_max c pos current used ch :
  fixedOkApp c pos current used ch = true ->
  exceedsMax c (increment used ch) ch = false.
Proof.
  unfold fixedOkApp. intros H. apply andb_true_iff in H.
  destruct H as [_ H]. now apply negb_true_iff in H.
Qed.

Lemma freeOkApp_max c o pos current used hasEqual ch :
  freeOkApp c o pos current used hasEqual ch = true ->
  exceedsMax c (increment used ch) ch = false.
Proof.
  unfold freeOkApp, App.skips. intros H. apply negb_true_iff in H.
  split_skips H. assumption.
Qed.

Lemma freeOkApp_forbidden c o pos current used hasEqual ch :
  freeOkApp c o pos current used hasEqual ch = true ->
  forbiddenAt c ch pos = false.
Proof.
  unfold freeOkApp, App.skips. intros H. apply negb_true_iff in H.
  split_skips H. assumption.
Qed.

Lemma freeOkApp_adjacent c o pos current used hasEqual ch lc :
  freeOkApp c o pos current used hasEqual ch = true ->
  lastCharOf pos current = Some lc ->
  includes operators ch = true ->
  includes (lit "+-*/=") lc = true ->
  ch = "-" /\ lc <> "-".
Proof.
  unfold freeOkApp, App.skips. intros H Hlast Hop Hlc.
  apply negb_true_iff in H. split_skips H.
  rewrite Hlast, Hop, Hlc in H. simpl in H.
  apply orb_false_iff in H. destruct H as [H1 H2].
  apply negb_false_iff, Ascii.eqb_eq in H1. subst ch.
  split; [reflexivity|].
  rewrite Ascii.eqb_refl, andb_true_r in H2.
  now apply Ascii.eqb_neq in H2.
Qed.

Lemma fixedOkSolver_max c pos current used ch :
  fixedOkSolver c pos current used ch = true ->
  exceedsMax c (increment used ch) ch = false.
Proof. unfold fixedOkSolver. intros H. now apply negb_true_iff in H. Qed.

Lemma freeOkSolver_max c o pos current used hasEqual ch :
  freeOkSolver c o pos current used hasEqual ch = true ->
  exceedsMax c (increment used ch) ch = false.
Proof.
  unfold freeOkSolver, Solver.skips. intros H. apply negb_true_iff in H.
  split_skips H. assumption.
Qed.

Lemma freeOkSolver_forbidden c o pos current used hasEqual ch :
  freeOkSolver c o pos current used hasEqual ch = true ->
  forbiddenAt c ch pos = false.
Proof.
  unfold freeOkSolver, Solver.skips. intros H. apply negb_true_iff in H.
  split_skips H. assumption.
Qed.

(** Either copy's results are accepted paths of that copy; what both copies
    test holds for the results of both. *)
Lemma results_equation evalReturn Date_now c o s :
  In s (App.generateCandidates evalReturn Date_now c o) \/
  In s (Solver.generateCandidates evalReturn Date_now c o) ->
  List.length s = length o /\ In "=" s /\ isValidEquation evalReturn s = true /\
  MeetsRequired c s.
Proof.
  intros [H|H].
  - apply App_results_accepted in H. now apply Accepted_equation in H.
  - apply Solver_results_accepted in H. now apply Accepted_equation in H.
Qed.

Lemma results_max evalReturn Date_now c o s ch max :
  In s (App.generateCandidates evalReturn Date_now c o) \/
  In s (Solver.generateCandidates evalReturn Date_now c o) ->
  Obj.get (maxCounts c) ch = Some max -> max <> 0 -> countChar ch s <= max.
Proof.
  intros [H|H] Hget Hmax.
  - apply App_results_accepted in H.
    eapply Accepted_max; eauto using fixedOkApp_max, freeOkApp_max.
  - apply Solver_results_accepted in H.
    eapply Accepted_max; eauto using fixedOkSolver_max, freeOkSolver_max.
Qed.

Lemma results_forbidden evalReturn Date_now c o s i ch :
  In s (App.generateCandidates evalReturn Date_now c o) \/
  In s (Solver.generateCandidates evalReturn Date_now c o) ->
  nth_error s i = Some ch -> arrayGet (greens c) i = None ->
  forbiddenAt c ch i = false.
Proof.
  intros [H|H] Hi Hfree.
  - apply App_results_accepted in H.
    eapply Accepted_forbidden; eauto using freeOkApp_forbidden.
  - apply Solver_results_accepted in H.
    eapply Accepted_forbidden; eauto using freeOkSolver_forbidden.
Qed.

(** ** C1 *)

(** C1.  Every string in the list that [generateCandidates] returns (either
    copy, any constraint set, any options, whatever the engine, the clock and
    the cancellation flag do) has length exactly [length], contains ['='],
    is accepted by [isValidEquation], and has at least [requiredCounts[c]]
    occurrences of every character [c] that [requiredCounts] lists (the
    tally [used] of a finished string counts its characters). *)
Theorem C1_results_are_valid_equations
  (evalReturn : str -> Completion) (Date_now : nat -> Z)
  (c : ConstraintSet) (o : Options) (s : str) :
  In s (App.generateCandidates evalReturn Date_now c o) \/
  In s (Solver.generateCandidates evalReturn Date_now c o) ->
  List.length s = length o /\
  In "=" s /\
  isValidEquation evalReturn s = true /\
  (forall ch n, In (ch, n) (Obj.entries (requiredCounts c)) ->
                n <= countChar ch s) /\
  (forall ch n, Obj.get (requiredCounts c) ch = Some n -> n <= countChar ch s).
Proof.
  intros H. apply results_equation in H.
  destruct H as [Hlen [Heq [Hvalid Hreq]]].
  repeat split; try assumption.
  intros ch n Hget. apply Hreq. now apply get_In_entries.
Qed.

Lemma C1_witness :
  In (lit "3+3=6")
     (App.generateCandidates Engine.run frozenClock
        (App.buildConstraintsFromGuesses scenarioB 5) (App.defaultOptions 5)) /\
  List.length (lit "3+3=6") = 5 /\
  In "=" (lit "3+3=6") /\
  isValidEquation Engine.run (lit "3+3=6") = true.
Proof.
  assert (H : In (lit "3+3=6")
                (App.generateCandidates Engine.run frozenClock
                   (App.buildConstraintsFromGuesses scenarioB 5)
                   (App.defaultOptions 5))).
  { apply memStr_In. vm_compute. reflexivity. }
  split; [exact H|].
  destruct (C1_results_are_valid_equations Engine.run frozenClock
              (App.buildConstraintsFromGuesses scenarioB 5)
              (App.defaultOptions 5) (lit "3+3=6") (or_introl H))
    as [Hlen [Heq [Hvalid _]]].
  repeat split; assumption.
Defined.

(** ** C2 *)

(** C2, as amended.  For every result of [generateCandidates] (either copy)
    and every character [c]: [c] occurs at least [requiredCounts[c]] times
    when that entry is present; at most [maxCounts[c]] times when that entry
    is present and not 0; and [c] stands at no position of
    [yellowForbiddenPositions[c]] unless the constraint set fixes that
    position (then the fixed character is used without that test). *)
Theorem C2_counts_and_free_positions
  (evalReturn : str -> Completion) (Date_now : nat -> Z)
  (c : ConstraintSet) (o : Options) (s : str) (ch : ascii) :
  In s (App.generateCandidates evalReturn Date_now c o) \/
  In s (Solver.generateCandidates evalReturn Date_now c o) ->
  (forall n, Obj.get (requiredCounts c) ch = Some n -> n <= countChar ch s) /\
  (forall max, Obj.get (maxCounts c) ch = Some max -> max <> 0 ->
               countChar ch s <= max) /\
  (forall i, nth_error s i = Some ch -> arrayGet (greens c) i = None ->
             forbiddenAt c ch i = false).
Proof.
  intros H. repeat split.
  - intros n Hget. apply results_equation in H.
    destruct H as [_ [_ [_ Hreq]]]. apply Hreq. now apply get_In_entries.
  - intros max Hget Hmax. eapply results_max; eauto.
  - intros i Hi Hfree. eapply results_forbidden; eauto.
Qed.

Lemma C2_witness :
  In (lit "4-3=1")
     (App.generateCandidates Engine.run frozenClock
        (App.buildConstraintsFromGuesses yellowAndGray 5)
        (App.defaultOptions 5)) /\
  In (lit "4-3=1")
     (Solver.generateCandidates Engine.run frozenClock
        (Solver.buildConstraintsFromGuesses yellowAndGray 5)
        (Solver.defaultOptions 5)) /\
  (Obj.get (requiredCounts (App.buildConstraintsFromGuesses yellowAndGray 5))
           "1" = Some 1 /\
   1 <= countChar "1" (lit "4-3=1")) /\
  (Obj.get (maxCounts (App.buildConstraintsFromGuesses yellowAndGray 5)) "1"
   = Some 1 /\
   countChar "1" (lit "4-3=1") <= 1) /\
  (forbiddenAt (App.buildConstraintsFromGuesses yellowAndGray 5) "1" 0 = true /\
   forbiddenAt (App.buildConstraintsFromGuesses yellowAndGray 5) "1" 2 = true /\
   nth_error (lit "4-3=1") 4 = Some "1" /\
   arrayGet (greens (App.buildConstraintsFromGuesses yellowAndGray 5)) 4 = None /\
   forbiddenAt (App.buildConstraintsFromGuesses yellowAndGray 5) "1" 4 = false) /\
  (Obj.get (requiredCounts (Solver.buildConstraintsFromGuesses yellowAndGray 5))
           "=" = Some 1 /\
   1 <= countChar "=" (lit "4-3=1")) /\
  (Obj.get (maxCounts (Solver.buildConstraintsFromGuesses yellowAndGray 5)) "1"
   = Some 1 /\
   countChar "1" (lit "4-3=1") <= 1) /\
  (forbiddenAt (Solver.buildConstraintsFromGuesses yellowAndGray 5) "1" 2 = true /\
   forbiddenAt (Solver.buildConstraintsFromGuesses yellowAndGray 5) "1" 4 = false).
Proof.
  assert (HA : In (lit "4-3=1")
                 (App.generateCandidates Engine.run frozenClock
                    (App.buildConstraintsFromGuesses yellowAndGray 5)
                    (App.defaultOptions 5))).
  { apply memStr_In. vm_compute. reflexivity. }
  assert (HS : In (lit "4-3=1")
                 (Solver.generateCandidates Engine.run frozenClock
                    (Solver.buildConstraintsFromGuesses yellowAndGray 5)
                    (Solver.defaultOptions 5))).
  { apply memStr_In. vm_compute. reflexivity. }
  split; [exact HA|]. split; [exact HS|].
  destruct (C2_counts_and_free_positions Engine.run frozenClock
              (App.buildConstraintsFromGuesses yellowAndGray 5)
              (App.defaultOptions 5) (lit "4-3=1") "1" (or_introl HA))
    as [Hrequired [Hmax Hforbidden]].
  destruct (C2_counts_and_free_positions Engine.run frozenClock
              (Solver.buildConstraintsFromGuesses yellowAndGray 5)
              (Solver.defaultOptions 5) (lit "4-3=1") "1" (or_intror HS))
    as [_ [Hmax' Hforbidden']].
  destruct (C2_counts_and_free_positions Engine.run frozenClock
              (Solver.buildConstraintsFromGuesses yellowAndGray 5)
              (Solver.defaultOptions 5) (lit "4-3=1") "=" (or_intror HS))
    as [Hrequired' _].
  split.
  { split; [reflexivity|]. apply (Hrequired 1). reflexivity. }
  split.
  { split; [reflexivity|]. apply (Hmax 1); [reflexivity | discriminate]. }
  split.
  { split; [reflexivity|]. split; [reflexivity|]. split; [reflexivity|].
    split; [reflexivity|]. apply (Hforbidden 4); reflexivity. }
  split.
  { split; [reflexivity|]. apply (Hrequired' 1). reflexivity. }
  split.
  { split; [reflexivity|]. apply (Hmax' 1); [reflexivity | discriminate]. }
  split; [reflexivity|]. apply (Hforbidden' 4); reflexivity.
Defined.

(** C2 as stated fails: with every position fixed to [3+3=6], both copies
    return [3+3=6] although ['3'] is forbidden at the fixed index 0 and
    ['6'] is capped at 0. *)
Lemma C2_counterexample :
  In (lit "3+3=6")
     (App.generateCandidates Engine.run frozenClock fixedAgainstForbidden
                             (App.defaultOptions 5)) /\
  In (lit "3+3=6")
     (Solver.generateCandidates Engine.run frozenClock fixedAgainstForbidden
                                (Solver.defaultOptions 5)) /\
  nth_error (lit "3+3=6") 0 = Some "3" /\
  forbiddenAt fixedAgainstForbidden "3" 0 = true /\
  arrayGet (greens fixedAgainstForbidden) 0 = Some "3" /\
  Obj.get (maxCounts fixedAgainstForbidden) "6" = Some 0 /\
  countChar "6" (lit "3+3=6") = 1.
Proof.
  split; [apply memStr_In; vm_compute; reflexivity|].
  split; [apply memStr_In; vm_compute; reflexivity|].
  repeat split; reflexivity.
Qed.

(** ** C3 *)

Lemma fold_left_ext (A B : Type) (f g : A -> B -> A) (l : list B) (a : A) :
  (forall x b, f x b = g x b) -> fold_left f l a = fold_left g l a.
Proof.
  intros H. revert a. induction l as [|b l IH]; simpl; intros a.
  - reflexivity.
  - now rewrite H, IH.
Qed.

(** [Solver.dfs] reads the clock only to compare it with the time limit. *)
Lemma Solver_dfs_clock evalReturn (clock clock' : nat -> Z) c o :
  (forall n, (timeoutMs o <? clock n - clock O)%Z
             = (timeoutMs o <? clock' n - clock' O)%Z) ->
  forall remaining current used hasEqual st,
    Solver.dfs evalReturn clock c o remaining current used hasEqual st
    = Solver.dfs evalReturn clock' c o remaining current used hasEqual st.
Proof.
  intros Hclock remaining.
  induction remaining as [|remaining IH]; intros current used hasEqual st.
  - simpl. unfold Solver.startTime. now rewrite Hclock.
  - cbn [Solver.dfs]. unfold Solver.startTime. rewrite Hclock.
    destruct (cancelledRef o _ || _); [reflexivity|].
    destruct (_ <=? _); [reflexivity|].
    destruct (arrayGet (greens c) _) as [ch|].
    + destruct (exceedsMax c _ ch); [reflexivity | apply IH].
    + apply fold_left_ext. intros st' ch.
      destruct (Solver.skips c o _ used hasEqual ch); [reflexivity | apply IH].
Qed.

Lemma Solver_within_time_limit evalReturn (clock : nat -> Z) c o :
  (forall n, (clock n - clock O <= timeoutMs o)%Z) ->
  Solver.generateCandidates evalReturn clock c o
  = Solver.generateCandidates evalReturn frozenClock c o.
Proof.
  intros H. unfold Solver.generateCandidates. f_equal. f_equal.
  apply Solver_dfs_clock. intros n.
  transitivity false.
  - apply Z.ltb_ge, H.
  - symmetry. apply Z.ltb_ge. unfold frozenClock.
    specialize (H 0). lia.
Qed.

Lemma forallb_excludes (l : list str) (c : ascii) :
  forallb (fun s => negb (includes s c)) l = true ->
  forall s, In s l -> ~ In c s.
Proof.
  intros H s Hin Hc. rewrite forallb_forall in H. specialize (H s Hin).
  apply negb_true_iff in H. apply includes_In in Hc. congruence.
Qed.

(** C3.  Scenario B: length 5, the single guess [2+2=4] with feedback
    gray, green, gray, green, gray.  The constraints built (by either copy)
    exclude ['2'] and ['4'] and fix ['+'] at index 1 and ['='] at index 3;
    the search with the default options (cap 200) returns a list that
    contains [3+3=6] and no string with a ['2'] or a ['4'].  The copy of
    [src/app.js] has no time limit by default; the one of [src/solver.js]
    stops after 2000 ms, so for it the clock is assumed not to pass that
    limit during the search. *)
Theorem C3_scenario_B (clockApp clockSolver : nat -> Z) :
  (forall n, (clockSolver n - clockSolver O <= 2000)%Z) ->
  (hasChar (excluded (App.buildConstraintsFromGuesses scenarioB 5)) "2" = true /\
   hasChar (excluded (App.buildConstraintsFromGuesses scenarioB 5)) "4" = true /\
   arrayGet (greens (App.buildConstraintsFromGuesses scenarioB 5)) 1 = Some "+" /\
   arrayGet (greens (App.buildConstraintsFromGuesses scenarioB 5)) 3 = Some "=") /\
  (hasChar (excluded (Solver.buildConstraintsFromGuesses scenarioB 5)) "2" = true /\
   hasChar (excluded (Solver.buildConstraintsFromGuesses scenarioB 5)) "4" = true /\
   arrayGet (greens (Solver.buildConstraintsFromGuesses scenarioB 5)) 1 = Some "+" /\
   arrayGet (greens (Solver.buildConstraintsFromGuesses scenarioB 5)) 3 = Some "=") /\
  In (lit "3+3=6")
     (App.generateCandidates Engine.run clockApp
        (App.buildConstraintsFromGuesses scenarioB 5) (App.defaultOptions 5)) /\
  (forall s,
     In s (App.generateCandidates Engine.run clockApp
             (App.buildConstraintsFromGuesses scenarioB 5)
             (App.defaultOptions 5)) ->
     ~ In "2" s /\ ~ In "4" s) /\
  In (lit "3+3=6")
     (Solver.generateCandidates Engine.run clockSolver
        (Solver.buildConstraintsFromGuesses scenarioB 5)
        (Solver.defaultOptions 5)) /\
  (forall s,
     In s (Solver.generateCandidates Engine.run clockSolver
             (Solver.buildConstraintsFromGuesses scenarioB 5)
             (Solver.defaultOptions 5)) ->
     ~ In "2" s /\ ~ In "4" s).
Proof.
  intros Hclock.
  rewrite (Solver_within_time_limit Engine.run clockSolver
             (Solver.buildConstraintsFromGuesses scenarioB 5)
             (Solver.defaultOptions 5) Hclock).
  split; [repeat split; reflexivity|].
  split; [repeat split; reflexivity|].
  split; [apply memStr_In; vm_compute; reflexivity|].
  split.
  { intros s Hs. split; revert s Hs; apply forallb_excludes;
      vm_compute; reflexivity. }
  split; [apply memStr_In; vm_compute; reflexivity|].
  intros s Hs. split; revert s Hs; apply forallb_excludes;
    vm_compute; reflexivity.
Qed.

Lemma C3_witness :
  (forall n, (frozenClock n - frozenClock O <= 2000)%Z) /\
  In (lit "3+3=6")
     (App.generateCandidates Engine.run frozenClock
        (App.buildConstraintsFromGuesses scenarioB 5) (App.defaultOptions 5)) /\
  In (lit "3+3=6")
     (Solver.generateCandidates Engine.run frozenClock
        (Solver.buildConstraintsFromGuesses scenarioB 5)
        (Solver.defaultOptions 5)).
Proof.
  assert (H : forall n, (frozenClock n - frozenClock O <= 2000)%Z).
  { intros n. unfold frozenClock. lia. }
  split; [exact H|].
  destruct (C3_scenario_B frozenClock frozenClock H)
    as [_ [_ [HApp [_ [HSolver _]]]]].
  split; assumption.
Defined.

(** ** C4 *)

Lemma nth_error_firstn_lt (A : Type) (l : list A) (i n : nat) :
  i < n -> nth_error (firstn n l) i = nth_error l i.
Proof.
  revert i n. induction l as [|x l IH]; intros i n Hlt.
  - destruct n; destruct i; reflexivity.
  - destruct n as [|n]; [lia|]. destruct i as [|i]; simpl.
    + reflexivity.
    + apply IH. lia.
Qed.

(** C4, as amended.  In every result of the search of [src/app.js], at a
    position that the constraint set does not fix, an operator that
    immediately follows an operator or ['='] is a ['-'], and what it follows
    is not a ['-'].  Fixed positions are used without this test, and the
    copy in [src/solver.js] has no such test at all. *)
Theorem C4_adjacency_at_free_positions
  (evalReturn : str -> Completion) (Date_now : nat -> Z)
  (c : ConstraintSet) (o : Options) (s : str) (i : nat) (a b : ascii) :
  In s (App.generateCandidates evalReturn Date_now c o) ->
  nth_error s i = Some a ->
  nth_error s (S i) = Some b ->
  arrayGet (greens c) (S i) = None ->
  includes operators b = true ->
  includes (lit "+-*/=") a = true ->
  b = "-" /\ a <> "-".
Proof.
  intros Hin Ha Hb Hfree Hop Hprev.
  apply App_results_accepted in Hin. destruct Hin as [_ _ _ Hpath].
  destruct (Hpath (S i) b Hb) as [used [_ Hstep]].
  assert (Hlen : List.length (firstn (S i) s) = S i).
  { apply firstn_length_le. apply nth_error_Some. congruence. }
  rewrite Hlen, Hfree in Hstep. destruct Hstep as [_ Hstep].
  apply freeOkApp_adjacent with (lc := a) (1 := Hstep); try assumption.
  unfold lastCharOf. change (0 <? S i) with true. cbv iota.
  replace (S i - 1) with i by lia.
  rewrite nth_error_firstn_lt by lia. assumption.
Qed.

Lemma C4_witness :
  In (lit "3+-1=2")
     (App.generateCandidates Engine.run frozenClock openAfterOperator
                             (App.defaultOptions 6)) /\
  arrayGet (greens openAfterOperator) 2 = None /\
  nth_error (lit "3+-1=2") 1 = Some "+" /\
  nth_error (lit "3+-1=2") 2 = Some "-" /\
  "-" = "-" /\ "+" <> "-".
Proof.
  assert (H : In (lit "3+-1=2")
                (App.generateCandidates Engine.run frozenClock
                   openAfterOperator (App.defaultOptions 6))).
  { apply memStr_In. vm_compute. reflexivity. }
  split; [exact H|].
  split; [reflexivity|]. split; [reflexivity|]. split; [reflexivity|].
  apply (C4_adjacency_at_free_positions Engine.run frozenClock
           openAfterOperator (App.defaultOptions 6) (lit "3+-1=2") 1 H);
    reflexivity.
Defined.

(** C4 as stated fails: with [3-+1=2] fixed, both copies return it, and
    its ['+'] at index 2 immediately follows the ['-'] at index 1. *)
Lemma C4_counterexample :
  In (lit "3-+1=2")
     (App.generateCandidates Engine.run frozenClock fixedAdjacentOperators
                             (App.defaultOptions 6)) /\
  In (lit "3-+1=2")
     (Solver.generateCandidates Engine.run frozenClock fixedAdjacentOperators
                                (Solver.defaultOptions 6)) /\
  nth_error (lit "3-+1=2") 1 = Some "-" /\
  nth_error (lit "3-+1=2") 2 = Some "+" /\
  includes operators "-" = true /\
  includes operators "+" = true.
Proof.
  split; [apply memStr_In; vm_compute; reflexivity|].
  split; [apply memStr_In; vm_compute; reflexivity|].
  repeat split; reflexivity.
Qed.

(** Without fixed positions the copy of [src/solver.js] breaks the rule as
    well: it returns [3-+1=2] with the ['+'] drawn from [allowedChars]. *)
Lemma Solver_has_no_adjacency_rule :
  In (lit "3-+1=2")
     (Solver.generateCandidates Engine.run frozenClock
        {| greens := [Some "3"; Some "-"; None; Some "1"; Some "="; Some "2"];
           requiredCounts := Obj.empty;
           maxCounts := Obj.empty;
           excluded := [];
           yellowForbiddenPositions := Obj.empty |}
        (Solver.defaultOptions 6)) /\
  ~ In (lit "3-+1=2")
     (App.generateCandidates Engine.run frozenClock
        {| greens := [Some "3"; Some "-"; None; Some "1"; Some "="; Some "2"];
           requiredCounts := Obj.empty;
           maxCounts := Obj.empty;
           excluded := [];
           yellowForbiddenPositions := Obj.empty |}
        (App.defaultOptions 6)).
Proof.
  split.
  - apply memStr_In. vm_compute. reflexivity.
  - vm_compute. intuition discriminate.
Qed.

(** ** C8 *)

Lemma matchesEquationChars_alphabet (s : str) :
  matchesEquationChars s = true -> Forall (fun ch => In ch alphabet) s.
Proof.
  unfold matchesEquationChars. intros H. apply andb_true_iff in H.
  destruct H as [_ H]. rewrite forallb_forall in H.
  apply Forall_forall. intros ch Hin. apply includes_In. now apply H.
Qed.

(** C8, as amended.  [isValidEquation] accepts [s] only if [s] has at least
    5 characters and every character of [s] is one of the 15 symbols
    [0-9 + - * / =].  The validator does not know the session length:
    there is no upper bound and no comparison with [L]. *)
Theorem C8_validator_length_and_alphabet
  (evalReturn : str -> Completion) (s : str) :
  isValidEquation evalReturn s = true ->
  5 <= List.length s /\ Forall (fun ch => In ch alphabet) s.
Proof.
  intros H. apply isValidEquation_shape in H. destruct H as [Hlen [Hchars _]].
  split; [assumption | now apply matchesEquationChars_alphabet].
Qed.

Lemma C8_witness :
  isValidEquation Engine.run (lit "3+3=6") = true /\
  5 <= List.length (lit "3+3=6") /\
  Forall (fun ch => In ch alphabet) (lit "3+3=6").
Proof.
  assert (H : isValidEquation Engine.run (lit "3+3=6") = true).
  { vm_compute. reflexivity. }
  split; [exact H|].
  apply (C8_validator_length_and_alphabet Engine.run (lit "3+3=6") H).
Defined.

(** C8 as stated fails: in a session of length 5 the validator accepts the
    7 characters of [10+1=11], and it accepts a string of 22 characters,
    longer than any session length. *)
Lemma C8_counterexample :
  isValidEquation Engine.run (lit "10+1=11") = true /\
  List.length (lit "10+1=11") = 7 /\
  isValidEquation Engine.run (lit "1+1=000000000000000002") = true /\
  List.length (lit "1+1=000000000000000002") = 22.
Proof. repeat split; vm_compute; reflexivity. Qed.

(** ** C10 *)

(** C10.  In 4-target mode [checkPatternConsistency] (either copy) looks at
    the first pattern only: with the array [ps] of four patterns it returns
    what it returns for [ps[0]] alone, and two arrays with the same first
    pattern get the same answer, so a contradiction in the patterns of the
    targets 2 to 4 is never reported. *)
Theorem C10_only_first_pattern_checked
  (g : str) (p0 p1 p2 p3 q1 q2 q3 : str) (c : ConstraintSet) :
  App.checkPatternConsistency g (Multi [p0; p1; p2; p3]) c
  = App.checkPatternConsistency g (Single p0) c /\
  Solver.checkPatternConsistency g (Multi [p0; p1; p2; p3]) c
  = Solver.checkPatternConsistency g (Single p0) c /\
  App.checkPatternConsistency g (Multi [p0; p1; p2; p3]) c
  = App.checkPatternConsistency g (Multi [p0; q1; q2; q3]) c /\
  Solver.checkPatternConsistency g (Multi [p0; p1; p2; p3]) c
  = Solver.checkPatternConsistency g (Multi [p0; q1; q2; q3]) c.
Proof. repeat split; reflexivity. Qed.

(** ** C7 *)

Lemma In_positions_from (k : nat) (g p : str) (i : nat) (ch color : ascii) :
  In (i, (ch, color)) (combine (seq k (List.length g)) (combine g p)) <->
  k <= i /\ nth_error g (i - k) = Some ch /\ nth_error p (i - k) = Some color.
Proof.
  revert k p. induction g as [|x g IH]; intros k p.
  - simpl. split; [tauto|]. intros [_ [H _]]. destruct (i - k); discriminate.
  - destruct p as [|y p].
    + simpl. split; [tauto|]. intros [_ [_ H]]. destruct (i - k); discriminate.
    + simpl. rewrite IH. split.
      * intros [H|[Hle [Hg Hp]]].
        -- injection H as <- <- <-. rewrite Nat.sub_diag. simpl. auto.
        -- replace (i - k) with (S (i - S k)) by lia. simpl.
           repeat split; try assumption. lia.
      * intros [Hle [Hg Hp]].
        destruct (Nat.eq_dec i k) as [->|Hne].
        -- left. rewrite Nat.sub_diag in Hg, Hp. simpl in Hg, Hp. congruence.
        -- right. replace (i - k) with (S (i - S k)) in Hg, Hp by lia.
           simpl in Hg, Hp. repeat split; try assumption. lia.
Qed.

Lemma In_positions (g p : str) (i : nat) (ch color : ascii) :
  In (i, (ch, color)) (positions g p) <->
  nth_error g i = Some ch /\ nth_error p i = Some color.
Proof.
  unfold positions. rewrite In_positions_from, Nat.sub_0_r.
  split; [tauto|]. intros H. split; [lia | assumption].
Qed.

Lemma map_snd_positions_from (k : nat) (g p : str) :
  map snd (combine (seq k (List.length g)) (combine g p)) = combine g p.
Proof.
  revert k p. induction g as [|x g IH]; intros k [|y p]; simpl;
    try reflexivity.
  now rewrite IH.
Qed.

Lemma checkPositions_Some check ps :
  (exists r, checkPositions check ps = Some r) <->
  (exists i ch color, In (i, (ch, color)) ps /\ check i ch color <> None).
Proof.
  induction ps as [|[i [ch color]] ps IH]; simpl.
  - split; [intros [r H]; discriminate | intros [i [ch [color [[] _]]]]].
  - destruct (check i ch color) as [r|] eqn:Hc.
    + split; [|eauto]. intros _. exists i, ch, color.
      split; [now left | congruence].
    + rewrite IH. split.
      * intros [i' [ch' [color' [Hin Hne]]]]. exists i', ch', color'. auto.
      * intros [i' [ch' [color' [[Heq|Hin] Hne]]]].
        -- injection Heq as <- <- <-. congruence.
        -- exists i', ch', color'. auto.
Qed.

Lemma App_checkPosition_spec c i ch color :
  App.checkPosition c i ch color <> None <->
  PositionViolation false c i ch color.
Proof.
  unfold App.checkPosition, PositionViolation.
  destruct (arrayGet (greens c) i) as [fixed|];
    [destruct (Ascii.eqb fixed ch) eqn:Hfix|];
    destruct (Ascii.eqb color "g") eqn:Hg;
    destruct (Ascii.eqb color "y") eqn:Hy;
    destruct (hasChar (excluded c) ch);
    destruct (forbiddenAt c ch i); simpl; color_facts; position_cases.
Qed.

Lemma Solver_checkPosition_spec c i ch color :
  Solver.checkPosition c i ch color <> None <->
  PositionViolation true c i ch color.
Proof.
  unfold Solver.checkPosition, PositionViolation.
  destruct (arrayGet (greens c) i) as [fixed|];
    [destruct (Ascii.eqb fixed ch) eqn:Hfix|];
    destruct (Ascii.eqb color "g") eqn:Hg;
    destruct (Ascii.eqb color "y") eqn:Hy;
    destruct (hasChar (excluded c) ch);
    destruct (forbiddenAt c ch i); simpl; color_facts; position_cases.
Qed.

Section ObjKeys.
Variable V : Type.
Implicit Types (o : Obj.t V) (k : ascii) (v : V).

Lemma In_keys_set o k v x :
  In x (map fst (Obj.set o k v)) <-> x = k \/ In x (map fst o).
Proof.
  induction o as [|[k0 v0] o IH]; simpl.
  - intuition.
  - destruct (Ascii.eqb_spec k k0) as [->|Hk]; simpl.
    + intuition.
    + rewrite IH. intuition.
Qed.

Lemma NoDup_keys_set o k v :
  NoDup (map fst o) -> NoDup (map fst (Obj.set o k v)).
Proof.
  induction o as [|[k0 v0] o IH]; simpl; intros H.
  - constructor; [intros [] | constructor].
  - inversion H as [|? ? Hnot Hrest]; subst.
    destruct (Ascii.eqb_spec k k0) as [->|Hk]; simpl.
    + now constructor.
    + constructor; [|now apply IH].
      rewrite In_keys_set. intros [->|Hin]; congruence.
Qed.

Lemma NoDup_keys_get o k v :
  NoDup (map fst o) -> In (k, v) o -> Obj.get o k = Some v.
Proof.
  induction o as [|[k0 v0] o IH]; simpl; intros Hnd Hin; [contradiction|].
  inversion Hnd as [|? ? Hnot Hrest]; subst.
  destruct Hin as [Heq|Hin].
  - injection Heq as -> ->. now rewrite Ascii.eqb_refl.
  - destruct (Ascii.eqb_spec k k0) as [->|Hk].
    + exfalso. apply Hnot. apply in_map_iff. now exists (k0, v).
    + now apply IH.
Qed.

Lemma get_Some_key o k v : Obj.get o k = Some v -> In k (map fst o).
Proof.
  intros H. apply get_In in H. apply in_map_iff. now exists (k, v).
Qed.

Lemma get_None_key o k : Obj.get o k = None -> ~ In k (map fst o).
Proof.
  induction o as [|[k0 v0] o IH]; simpl; intros H; [tauto|].
  destruct (Ascii.eqb_spec k k0) as [->|Hk]; [discriminate|].
  intros [Heq|Hin]; [congruence | now apply IH].
Qed.
End ObjKeys.

Lemma fold_left_positions (A : Type) (f : A -> ascii * ascii -> A)
  (ps : list (nat * (ascii * ascii))) (a : A) :
  fold_left (fun acc '(_, x) => f acc x) ps a = fold_left f (map snd ps) a.
Proof.
  revert a. induction ps as [|[i x] ps IH]; simpl; intros a.
  - reflexivity.
  - apply IH.
Qed.

Lemma markedCounts_fold (g p : str) :
  markedCounts g p = fold_left markStep (combine g p) Obj.empty.
Proof.
  unfold markedCounts, positions.
  rewrite <- (map_snd_positions_from 0 g p) at 2.
  rewrite <- fold_left_positions.
  apply fold_left_ext. intros acc [i [ch color]]. reflexivity.
Qed.

Lemma markStep_fold (l : list (ascii * ascii)) (acc : Obj.t nat) (ch : ascii) :
  NoDup (map fst acc) ->
  NoDup (map fst (fold_left markStep l acc)) /\
  getOr0 (fold_left markStep l acc) ch
  = getOr0 acc ch + List.length (filter (isMarked ch) l).
Proof.
  revert acc. induction l as [|[c color] l IH]; simpl; intros acc Hnd.
  - split; [assumption | lia].
  - assert (Hnd' : NoDup (map fst (markStep acc (c, color)))).
    { unfold markStep. simpl. destruct (_ || _); [|assumption].
      now apply NoDup_keys_set. }
    destruct (IH _ Hnd') as [H1 H2]. split; [assumption|].
    rewrite H2. unfold markStep, isMarked. simpl.
    destruct (Ascii.eqb color "g" || Ascii.eqb color "y").
    + rewrite getOr0_increment, eqb_sym.
      destruct (Ascii.eqb c ch); simpl; lia.
    + rewrite andb_false_r. lia.
Qed.

Lemma markedCounts_NoDup (g p : str) : NoDup (map fst (markedCounts g p)).
Proof.
  rewrite markedCounts_fold.
  apply (markStep_fold (combine g p) Obj.empty "0"). constructor.
Qed.

Lemma markedCounts_getOr0 (g p : str) (ch : ascii) :
  getOr0 (markedCounts g p) ch = marked ch g p.
Proof.
  rewrite markedCounts_fold. unfold marked.
  destruct (markStep_fold (combine g p) Obj.empty ch) as [_ H];
    [constructor|].
  rewrite H. reflexivity.
Qed.

Lemma firstOverMax_Some c es :
  (exists r, firstOverMax c es = Some r) <->
  (exists ch count max,
      In (ch, count) es /\ Obj.get (maxCounts c) ch = Some max /\ max < count).
Proof.
  induction es as [|[ch count] es IH]; simpl.
  - split; [intros [r H]; discriminate | intros [? [? [? [[] _]]]]].
  - destruct (Obj.get (maxCounts c) ch) as [max|] eqn:Hget.
    + destruct (max <? count) eqn:Hlt.
      * split; [|eauto]. intros _. exists ch, count, max.
        apply Nat.ltb_lt in Hlt. auto.
      * apply Nat.ltb_ge in Hlt. rewrite IH. split.
        -- intros [ch' [n [m [Hin H]]]]. exists ch', n, m. auto.
        -- intros [ch' [n [m [[Heq|Hin] [Hg Hl]]]]].
           ++ injection Heq as <- <-. rewrite Hget in Hg.
              injection Hg as <-. lia.
           ++ exists ch', n, m. auto.
    + rewrite IH. split.
      * intros [ch' [n [m [Hin H]]]]. exists ch', n, m. auto.
      * intros [ch' [n [m [[Heq|Hin] [Hg Hl]]]]].
        -- injection Heq as <- <-. congruence.
        -- exists ch', n, m. auto.
Qed.

Lemma overMax_CountViolation c g p :
  (exists r, firstOverMax c (Obj.entries (markedCounts g p)) = Some r) <->
  CountViolation c g p.
Proof.
  rewrite firstOverMax_Some. unfold CountViolation. split.
  - intros [ch [count [max [Hin [Hget Hlt]]]]]. exists ch, max.
    split; [assumption|].
    apply (proj1 (In_entries _ _)) in Hin.
    apply NoDup_keys_get in Hin; [|apply markedCounts_NoDup].
    rewrite <- markedCounts_getOr0. unfold getOr0. now rewrite Hin.
  - intros [ch [max [Hget Hlt]]].
    exists ch, (marked ch g p), max. repeat split; try assumption.
    rewrite <- markedCounts_getOr0 in *. unfold getOr0 in *.
    destruct (Obj.get (markedCounts g p) ch) as [n|] eqn:Hn; [|lia].
    now apply get_In_entries.
Qed.

(** The verdict after the length test, for either copy's position tests. *)
Lemma verdict_spec (yellowToo : bool)
  (check : nat -> ascii -> ascii -> option Reason) c g p :
  (forall i ch color,
      check i ch color <> None <-> PositionViolation yellowToo c i ch color) ->
  valid match checkPositions check (positions g p) with
        | Some r => reject r
        | None =>
            match firstOverMax c (Obj.entries (markedCounts g p)) with
            | Some r => reject r
            | None => accept
            end
        end = false
  <-> Violation yellowToo c g p.
Proof.
  intros Hcheck. unfold Violation.
  assert (Hpos : (exists r, checkPositions check (positions g p) = Some r) <->
                 exists i ch color,
                   nth_error g i = Some ch /\ nth_error p i = Some color /\
                   PositionViolation yellowToo c i ch color).
  { rewrite checkPositions_Some. split.
    - intros [i [ch [color [Hin Hne]]]]. exists i, ch, color.
      apply In_positions in Hin. apply Hcheck in Hne. tauto.
    - intros [i [ch [color [Hg [Hp Hv]]]]]. exists i, ch, color.
      split; [apply In_positions; tauto | now apply Hcheck]. }
  pose proof (overMax_CountViolation c g p) as Hcount.
  destruct (checkPositions check (positions g p)) as [r|].
  - simpl. split; [|reflexivity]. intros _. left. apply Hpos. eauto.
  - destruct (firstOverMax c (Obj.entries (markedCounts g p))) as [r|].
    + simpl. split; [|reflexivity]. intros _. right. apply Hcount. eauto.
    + simpl. split; [discriminate|].
      intros [H|H].
      * apply Hpos in H. destruct H as [r H]. discriminate.
      * apply Hcount in H. destruct H as [r H]. discriminate.
Qed.

Lemma patternMismatch_spec (p g : str) :
  patternMismatch (Some p) g = true <->
  p = [] \/ List.length p <> List.length g.
Proof.
  unfold patternMismatch. rewrite orb_true_iff, negb_true_iff.
  rewrite Nat.eqb_eq, Nat.eqb_neq.
  split; (intros [H|H]; [left | now right]).
  - now apply length_zero_iff_nil.
  - now subst.
Qed.

Lemma App_check_spec g p c :
  valid (App.checkPatternConsistency g (Single p) c) = false <->
  p = [] \/ List.length p <> List.length g \/ Violation false c g p.
Proof.
  unfold App.checkPatternConsistency, firstPattern.
  destruct (patternMismatch (Some p) g) eqn:Hm.
  - apply patternMismatch_spec in Hm. simpl. tauto.
  - rewrite (@verdict_spec false (App.checkPosition c) c g p
               (App_checkPosition_spec c)).
    assert (Hn : ~ (p = [] \/ List.length p <> List.length g)).
    { rewrite <- patternMismatch_spec. congruence. }
    tauto.
Qed.

Lemma Solver_check_spec g p c :
  valid (Solver.checkPatternConsistency g (Single p) c) = false <->
  p = [] \/ List.length p <> List.length g \/ Violation true c g p.
Proof.
  unfold Solver.checkPatternConsistency, firstPattern.
  destruct (patternMismatch (Some p) g) eqn:Hm.
  - apply patternMismatch_spec in Hm. simpl. tauto.
  - rewrite (@verdict_spec true (Solver.checkPosition c) c g p
               (Solver_checkPosition_spec c)).
    assert (Hn : ~ (p = [] \/ List.length p <> List.length g)).
    { rewrite <- patternMismatch_spec. congruence. }
    tauto.
Qed.

Lemma App_check_reason g ps c :
  valid (App.checkPatternConsistency g ps c) = false <->
  error (App.checkPatternConsistency g ps c) <> None.
Proof.
  unfold App.checkPatternConsistency.
  destruct (firstPattern ps) as [p|]; [|simpl; split; congruence].
  destruct (patternMismatch (Some p) g); [simpl; split; congruence|].
  destruct (checkPositions _ _); [simpl; split; congruence|].
  destruct (firstOverMax _ _); simpl; split; congruence.
Qed.

Lemma Solver_check_reason g ps c :
  valid (Solver.checkPatternConsistency g ps c) = false <->
  error (Solver.checkPatternConsistency g ps c) <> None.
Proof.
  unfold Solver.checkPatternConsistency.
  destruct (firstPattern ps) as [p|]; [|simpl; split; congruence].
  destruct (patternMismatch (Some p) g); [simpl; split; congruence|].
  destruct (checkPositions _ _); [simpl; split; congruence|].
  destruct (firstOverMax _ _); simpl; split; congruence.
Qed.

Lemma scenario_C (q : str) :
  List.length q = 5 ->
  nth_error q 1 = Some "g" ->
  App.checkPatternConsistency (lit "5*5=5") (Single q)
    (App.buildConstraintsFromGuesses scenarioB 5)
  = reject (FixedToOther 1 "+" "*") /\
  Solver.checkPatternConsistency (lit "5*5=5") (Single q)
    (Solver.buildConstraintsFromGuesses scenarioB 5)
  = reject (FixedToOther 1 "+" "*").
Proof.
  intros Hlen Hg.
  destruct q as [|a [|b [|x [|y [|z [|]]]]]]; try discriminate Hlen.
  injection Hg as ->. split; reflexivity.
Qed.

(** C7, as amended.  [checkPatternConsistency] answers [valid = false],
    with a reason, exactly when the pattern is empty or not as long as the
    guess, or a violation exists: a position fixed to another character is
    marked green; a position fixed to the guessed character is not marked
    green; an excluded character is marked green or yellow; a character is
    marked green on a position forbidden for it (in [src/solver.js]: green
    or yellow); or a character is marked green or yellow more often than its
    [maxCounts] entry allows.  Otherwise it answers [valid = true] without a
    reason.  Against the constraints of scenario B the guess [5*5=5] with
    ['*'] marked green at index 1 is rejected, whatever the other marks are,
    and the reason names index 1 and the ['+'] fixed there. *)
Theorem C7_consistency_verdict (g p : str) (c : ConstraintSet) :
  (valid (App.checkPatternConsistency g (Single p) c) = false <->
   p = [] \/ List.length p <> List.length g \/ Violation false c g p) /\
  (valid (Solver.checkPatternConsistency g (Single p) c) = false <->
   p = [] \/ List.length p <> List.length g \/ Violation true c g p) /\
  (valid (App.checkPatternConsistency g (Single p) c) = false <->
   error (App.checkPatternConsistency g (Single p) c) <> None) /\
  (valid (Solver.checkPatternConsistency g (Single p) c) = false <->
   error (Solver.checkPatternConsistency g (Single p) c) <> None) /\
  (forall q,
      List.length q = 5 ->
      nth_error q 1 = Some "g" ->
      App.checkPatternConsistency (lit "5*5=5") (Single q)
        (App.buildConstraintsFromGuesses scenarioB 5)
      = reject (FixedToOther 1 "+" "*") /\
      Solver.checkPatternConsistency (lit "5*5=5") (Single q)
        (Solver.buildConstraintsFromGuesses scenarioB 5)
      = reject (FixedToOther 1 "+" "*")).
Proof.
  split; [apply App_check_spec|].
  split; [apply Solver_check_spec|].
  split; [apply App_check_reason|].
  split; [apply Solver_check_reason|].
  apply scenario_C.
Qed.

Lemma C7_witness :
  App.checkPatternConsistency (lit "5*5=5") (Single (lit "xgxxx"))
    (App.buildConstraintsFromGuesses scenarioB 5)
  = reject (FixedToOther 1 "+" "*").
Proof.
  destruct (C7_consistency_verdict (lit "5*5=5") (lit "xgxxx")
              (App.buildConstraintsFromGuesses scenarioB 5))
    as [_ [_ [_ [_ H]]]].
  apply (H (lit "xgxxx")); reflexivity.
Defined.

(** C7 as stated fails on [src/solver.js]: after [1+2=3] with its ['1']
    yellow at index 0, the guess [1+5=6] with the ['1'] yellow at index 0
    again shows none of the five violations of the claim, and that copy
    rejects it because index 0 is forbidden for ['1']; [src/app.js] accepts
    it. *)
Lemma C7_counterexample :
  Solver.checkPatternConsistency (lit "1+5=6") (Single (lit "yxxgx"))
    (Solver.buildConstraintsFromGuesses yellowAgainHistory 5)
  = reject (ForbiddenMarked "1" 0) /\
  List.length (lit "yxxgx") = List.length (lit "1+5=6") /\
  ~ Violation false (Solver.buildConstraintsFromGuesses yellowAgainHistory 5)
      (lit "1+5=6") (lit "yxxgx") /\
  valid (App.checkPatternConsistency (lit "1+5=6") (Single (lit "yxxgx"))
           (App.buildConstraintsFromGuesses yellowAgainHistory 5)) = true.
Proof.
  split; [reflexivity|]. split; [reflexivity|]. split; [|reflexivity].
  intros H.
  assert (Hv : valid (App.checkPatternConsistency (lit "1+5=6")
                        (Single (lit "yxxgx"))
                        (Solver.buildConstraintsFromGuesses
                           yellowAgainHistory 5)) = false).
  { apply App_check_spec. right. right. exact H. }
  vm_compute in Hv. discriminate.
Qed.

(** ** C9 *)

(** Two runs of the loop stay related when every round keeps them related. *)
Lemma fold_left_related (A B : Type) (R : A -> A -> Prop) (f f' : A -> B -> A)
  (l : list B) (a a' : A) :
  R a a' ->
  (forall x x' b, R x x' -> R (f x b) (f' x' b)) ->
  R (fold_left f l a) (fold_left f' l a').
Proof.
  revert a a'. induction l as [|b l IH]; simpl; intros a a' Ha Hf.
  - assumption.
  - apply IH; auto.
Qed.

Section AppCancel.
Variable evalReturn : str -> Completion.
Variable Date_now : nat -> Z.
Variable constraints : ConstraintSet.

Lemma App_dfs_cancelled o remaining current used hasEqual st :
  cancelledRef o (S (dfsCallCount st)) = true ->
  App.dfs evalReturn Date_now constraints o remaining current used hasEqual st
  = countCall st.
Proof. intros H. destruct remaining; simpl; now rewrite H. Qed.

Lemma App_dfs_grows o remaining :
  forall current used hasEqual st,
  exists more,
    results (App.dfs evalReturn Date_now constraints o
                     remaining current used hasEqual st)
    = results st ++ more.
Proof.
  induction remaining as [|remaining IH]; intros current used hasEqual st.
  - simpl.
    destruct (cancelledRef o _); [exists []; simpl; now rewrite app_nil_r|].
    destruct (_ && _); [exists []; simpl; now rewrite app_nil_r|].
    destruct (_ <=? _); [exists []; simpl; now rewrite app_nil_r|].
    destruct (negb hasEqual); [exists []; simpl; now rewrite app_nil_r|].
    destruct (negb _); [exists []; simpl; now rewrite app_nil_r|].
    destruct (negb _); [exists []; simpl; now rewrite app_nil_r|].
    now exists [current].
  - cbn [App.dfs].
    destruct (cancelledRef o _); [exists []; simpl; now rewrite app_nil_r|].
    destruct (_ && _); [exists []; simpl; now rewrite app_nil_r|].
    destruct (_ <=? _); [exists []; simpl; now rewrite app_nil_r|].
    destruct (arrayGet (greens constraints) _) as [ch|].
    + destruct (_ && _); [exists []; simpl; now rewrite app_nil_r|].
      destruct (exceedsMax _ _ _); [exists []; simpl; now rewrite app_nil_r|].
      apply (IH _ _ _ (countCall st)).
    + apply (fold_left_invariant
               (fun st' => exists more,
                    results st' = results (countCall st) ++ more)).
      * exists []. now rewrite app_nil_r.
      * intros st' ch _ [more Hmore].
        destruct (App.skips _ _ _ _ _ _ _); [now exists more|].
        destruct (IH (current ++ [ch]) (increment used ch)
                     (hasEqual || Ascii.eqb ch "=") st') as [more' Hmore'].
        exists (more ++ more'). now rewrite Hmore', Hmore, app_assoc.
Qed.

Lemma App_dfs_cancel_related (o0 o : Options) (n : nat) :
  (forall m, n <= m -> cancelledRef o m = true) ->
  (forall m, m < n -> cancelledRef o0 m = cancelledRef o m) ->
  length o0 = length o ->
  maxResults o0 = maxResults o ->
  timeoutMs o0 = timeoutMs o ->
  forall remaining current used hasEqual st0 st,
    Cancelled n st0 st ->
    Cancelled n
      (App.dfs evalReturn Date_now constraints o0
               remaining current used hasEqual st0)
      (App.dfs evalReturn Date_now constraints o
               remaining current used hasEqual st).
Proof.
  intros Hset Hsame Hlen Hmax Htime.
  assert (Hlate : forall remaining current used hasEqual st0 st more,
             n <= S (dfsCallCount st) ->
             results st0 = results st ++ more ->
             Cancelled n
               (App.dfs evalReturn Date_now constraints o0
                        remaining current used hasEqual st0)
               (App.dfs evalReturn Date_now constraints o
                        remaining current used hasEqual st)).
  { intros remaining current used hasEqual st0 st more Hn Hmore.
    rewrite (App_dfs_cancelled o remaining current used hasEqual st)
      by (apply Hset; lia).
    right. split; [simpl; lia|].
    destruct (App_dfs_grows o0 remaining current used hasEqual st0)
      as [more' Hmore'].
    exists (more ++ more'). simpl. now rewrite Hmore', Hmore, app_assoc. }
  induction remaining as [|remaining IH];
    intros current used hasEqual st0 st [<-|[Hn [more Hmore]]];
    try (now apply Hlate with more).
  - destruct (Nat.le_gt_cases n (S (dfsCallCount st0))) as [Hn|Hn].
    { apply Hlate with []; [assumption | now rewrite app_nil_r]. }
    left. simpl. unfold App.startTime.
    rewrite Hsame, Hmax, Htime by (simpl; lia). reflexivity.
  - destruct (Nat.le_gt_cases n (S (dfsCallCount st0))) as [Hn|Hn].
    { apply Hlate with []; [assumption | now rewrite app_nil_r]. }
    cbn [App.dfs]. unfold App.startTime.
    rewrite Hsame, Hmax, Htime, Hlen by (simpl; lia).
    destruct (cancelledRef o _); [now left|].
    destruct (_ && _); [now left|].
    destruct (_ <=? _); [now left|].
    destruct (arrayGet (greens constraints) _) as [ch|].
    + destruct (_ && _); [now left|].
      destruct (exceedsMax _ _ _); [now left|].
      apply IH. now left.
    + apply fold_left_related; [now left|].
      intros x x' ch Hx.
      replace (App.skips constraints o0) with (App.skips constraints o).
      * destruct (App.skips _ _ _ _ _ _ _); [assumption | now apply IH].
      * unfold App.skips. now rewrite Hlen.
Qed.
End AppCancel.

Section SolverCancel.
Variable evalReturn : str -> Completion.
Variable Date_now : nat -> Z.
Variable constraints : ConstraintSet.

Lemma Solver_dfs_cancelled o remaining current used hasEqual st :
  cancelledRef o (S (dfsCallCount st)) = true ->
  Solver.dfs evalReturn Date_now constraints o remaining current used hasEqual st
  = countCall st.
Proof. intros H. destruct remaining; simpl; now rewrite H. Qed.

Lemma Solver_dfs_grows o remaining :
  forall current used hasEqual st,
  exists more,
    results (Solver.dfs evalReturn Date_now constraints o
                     remaining current used hasEqual st)
    = results st ++ more.
Proof.
  induction remaining as [|remaining IH]; intros current used hasEqual st.
  - simpl.
    destruct (cancelledRef o _ || _);
      [exists []; simpl; now rewrite app_nil_r|].
    destruct (_ <=? _); [exists []; simpl; now rewrite app_nil_r|].
    destruct (negb hasEqual); [exists []; simpl; now rewrite app_nil_r|].
    destruct (isValidEquation _ _);
      [|exists []; simpl; now rewrite app_nil_r].
    destruct (meetsRequired _ _); [|exists []; simpl; now rewrite app_nil_r].
    now exists [current].
  - cbn [Solver.dfs].
    destruct (cancelledRef o _ || _);
      [exists []; simpl; now rewrite app_nil_r|].
    destruct (_ <=? _); [exists []; simpl; now rewrite app_nil_r|].
    destruct (arrayGet (greens constraints) _) as [ch|].
    + destruct (exceedsMax _ _ _); [exists []; simpl; now rewrite app_nil_r|].
      apply (IH _ _ _ (countCall st)).
    + apply (fold_left_invariant
               (fun st' => exists more,
                    results st' = results (countCall st) ++ more)).
      * exists []. now rewrite app_nil_r.
      * intros st' ch _ [more Hmore].
        destruct (Solver.skips _ _ _ _ _ _); [now exists more|].
        destruct (IH (current ++ [ch]) (increment used ch)
                     (hasEqual || Ascii.eqb ch "=") st') as [more' Hmore'].
        exists (more ++ more'). now rewrite Hmore', Hmore, app_assoc.
Qed.

Lemma Solver_dfs_cancel_related (o0 o : Options) (n : nat) :
  (forall m, n <= m -> cancelledRef o m = true) ->
  (forall m, m < n -> cancelledRef o0 m = cancelledRef o m) ->
  length o0 = length o ->
  maxResults o0 = maxResults o ->
  timeoutMs o0 = timeoutMs o ->
  forall remaining current used hasEqual st0 st,
    Cancelled n st0 st ->
    Cancelled n
      (Solver.dfs evalReturn Date_now constraints o0
               remaining current used hasEqual st0)
      (Solver.dfs evalReturn Date_now constraints o
               remaining current used hasEqual st).
Proof.
  intros Hset Hsame Hlen Hmax Htime.
  assert (Hlate : forall remaining current used hasEqual st0 st more,
             n <= S (dfsCallCount st) ->
             results st0 = results st ++ more ->
             Cancelled n
               (Solver.dfs evalReturn Date_now constraints o0
                        remaining current used hasEqual st0)
               (Solver.dfs evalReturn Date_now constraints o
                        remaining current used hasEqual st)).
  { intros remaining current used hasEqual st0 st more Hn Hmore.
    rewrite (Solver_dfs_cancelled o remaining current used hasEqual st)
      by (apply Hset; lia).
    right. split; [simpl; lia|].
    destruct (Solver_dfs_grows o0 remaining current used hasEqual st0)
      as [more' Hmore'].
    exists (more ++ more'). simpl. now rewrite Hmore', Hmore, app_assoc. }
  induction remaining as [|remaining IH];
    intros current used hasEqual st0 st [<-|[Hn [more Hmore]]];
    try (now apply Hlate with more).
  - destruct (Nat.le_gt_cases n (S (dfsCallCount st0))) as [Hn|Hn].
    { apply Hlate with []; [assumption | now rewrite app_nil_r]. }
    left. simpl. unfold Solver.startTime.
    rewrite Hsame, Hmax, Htime by (simpl; lia). reflexivity.
  - destruct (Nat.le_gt_cases n (S (dfsCallCount st0))) as [Hn|Hn].
    { apply Hlate with []; [assumption | now rewrite app_nil_r]. }
    cbn [Solver.dfs]. unfold Solver.startTime.
    rewrite Hsame, Hmax, Htime, Hlen by (simpl; lia).
    destruct (cancelledRef o _ || _); [now left|].
    destruct (_ <=? _); [now left|].
    destruct (arrayGet (greens constraints) _) as [ch|].
    + destruct (exceedsMax _ _ _); [now left|].
      apply IH. now left.
    + apply fold_left_related; [now left|].
      intros x x' ch Hx.
      replace (Solver.skips constraints o0) with (Solver.skips constraints o).
      * destruct (Solver.skips _ _ _ _ _ _); [assumption | now apply IH].
      * unfold Solver.skips. now rewrite Hlen.
Qed.
End SolverCancel.

(** C9.  Let the flag be set from the [n]-th call of [dfs] on.  Then (either
    copy) every call from the [n]-th on returns at once: it counts itself and
    touches nothing else, so it expands nothing and accepts nothing; no call
    ever removes a result; and the results of the whole search are an initial
    part of the results of any search that differs only in what the flag
    says from call [n] on: they are exactly the results accepted before
    call [n].  The list returned holds exactly those results, each as often
    as it was accepted (it is a rearrangement of them: none is discarded,
    none is added), and every string of it is in the list that any such
    other search returns. *)
Theorem C9_cancellation
  (evalReturn : str -> Completion) (Date_now : nat -> Z)
  (c : ConstraintSet) (o : Options) (n : nat) :
  (forall m, n <= m -> cancelledRef o m = true) ->
  (forall remaining current used hasEqual st,
      n <= S (dfsCallCount st) ->
      App.dfs evalReturn Date_now c o remaining current used hasEqual st
      = countCall st /\
      Solver.dfs evalReturn Date_now c o remaining current used hasEqual st
      = countCall st) /\
  (forall remaining current used hasEqual st,
      (exists more,
          results (App.dfs evalReturn Date_now c o
                           remaining current used hasEqual st)
          = results st ++ more) /\
      (exists more,
          results (Solver.dfs evalReturn Date_now c o
                              remaining current used hasEqual st)
          = results st ++ more)) /\
  (forall o0,
      (forall m, m < n -> cancelledRef o0 m = cancelledRef o m) ->
      length o0 = length o ->
      maxResults o0 = maxResults o ->
      timeoutMs o0 = timeoutMs o ->
      (exists more,
          results (App.dfs evalReturn Date_now c o0
                           (length o0) [] Obj.empty false initialState)
          = results (App.dfs evalReturn Date_now c o
                             (length o) [] Obj.empty false initialState)
            ++ more) /\
      (exists more,
          results (Solver.dfs evalReturn Date_now c o0
                              (length o0) [] Obj.empty false initialState)
          = results (Solver.dfs evalReturn Date_now c o
                                (length o) [] Obj.empty false initialState)
            ++ more)) /\
  Permutation
    (App.generateCandidates evalReturn Date_now c o)
    (results (App.dfs evalReturn Date_now c o
                      (length o) [] Obj.empty false initialState)) /\
  Permutation
    (Solver.generateCandidates evalReturn Date_now c o)
    (results (Solver.dfs evalReturn Date_now c o
                         (length o) [] Obj.empty false initialState)) /\
  (forall o0,
      (forall m, m < n -> cancelledRef o0 m = cancelledRef o m) ->
      length o0 = length o ->
      maxResults o0 = maxResults o ->
      timeoutMs o0 = timeoutMs o ->
      (exists more,
          Permutation (App.generateCandidates evalReturn Date_now c o0)
                      (App.generateCandidates evalReturn Date_now c o ++ more)) /\
      (exists more,
          Permutation (Solver.generateCandidates evalReturn Date_now c o0)
                      (Solver.generateCandidates evalReturn Date_now c o
                       ++ more))).
Proof.
  intros Hset.
  assert (Hruns : forall o0,
             (forall m, m < n -> cancelledRef o0 m = cancelledRef o m) ->
             length o0 = length o ->
             maxResults o0 = maxResults o ->
             timeoutMs o0 = timeoutMs o ->
             (exists more,
                 results (App.dfs evalReturn Date_now c o0
                                  (length o0) [] Obj.empty false initialState)
                 = results (App.dfs evalReturn Date_now c o
                                    (length o) [] Obj.empty false initialState)
                   ++ more) /\
             (exists more,
                 results (Solver.dfs evalReturn Date_now c o0
                                     (length o0) [] Obj.empty false initialState)
                 = results (Solver.dfs evalReturn Date_now c o
                                       (length o) [] Obj.empty false
                                       initialState)
                   ++ more)).
  2:{ split; [|split; [|split; [exact Hruns|]]].
      - intros remaining current used hasEqual st Hn. split.
        + apply App_dfs_cancelled. apply Hset. lia.
        + apply Solver_dfs_cancelled. apply Hset. lia.
      - intros remaining current used hasEqual st. split.
        + apply App_dfs_grows.
        + apply Solver_dfs_grows.
      - split; [apply sortByScore_perm|]. split; [apply sortByScore_perm|].
        intros o0 Hsame Hlen Hmax Htime.
        destruct (Hruns o0 Hsame Hlen Hmax Htime)
          as [[moreA HA] [moreS HS]].
        unfold App.generateCandidates, Solver.generateCandidates. split.
        + exists moreA. rewrite !sortByScore_perm. rewrite HA.
          apply Permutation_refl.
        + exists moreS. rewrite !sortByScore_perm. rewrite HS.
          apply Permutation_refl. }
  intros o0 Hsame Hlen Hmax Htime. split.
  - destruct (App_dfs_cancel_related evalReturn Date_now c o0 o
                Hset Hsame Hlen Hmax Htime
                (length o0) [] Obj.empty false
                (st0 := initialState) (st := initialState))
      as [Heq|[_ Hmore]]; [now left | | rewrite <- Hlen; exact Hmore].
    exists []. rewrite app_nil_r, <- Hlen. now rewrite Heq.
  - destruct (Solver_dfs_cancel_related evalReturn Date_now c o0 o
                Hset Hsame Hlen Hmax Htime
                (length o0) [] Obj.empty false
                (st0 := initialState) (st := initialState))
      as [Heq|[_ Hmore]]; [now left | | rewrite <- Hlen; exact Hmore].
    exists []. rewrite app_nil_r, <- Hlen. now rewrite Heq.
Qed.

Lemma C9_witness :
  (forall m, 40 <= m -> cancelledRef (cancelledFrom 40 5) m = true) /\
  (exists more,
      results (App.dfs Engine.run frozenClock
                 (App.buildConstraintsFromGuesses scenarioB 5)
                 (App.defaultOptions 5) 5 [] Obj.empty false initialState)
      = results (App.dfs Engine.run frozenClock
                   (App.buildConstraintsFromGuesses scenarioB 5)
                   (cancelledFrom 40 5) 5 [] Obj.empty false initialState)
        ++ more) /\
  App.generateCandidates Engine.run frozenClock
    (App.buildConstraintsFromGuesses scenarioB 5) (cancelledFrom 40 5)
  = [lit "0+1=1"; lit "0+3=3"; lit "0+0=0"] /\
  Permutation
    (App.generateCandidates Engine.run frozenClock
       (App.buildConstraintsFromGuesses scenarioB 5) (cancelledFrom 40 5))
    (results (App.dfs Engine.run frozenClock
                (App.buildConstraintsFromGuesses scenarioB 5)
                (cancelledFrom 40 5) 5 [] Obj.empty false initialState)) /\
  exists more,
    Permutation
      (App.generateCandidates Engine.run frozenClock
         (App.buildConstraintsFromGuesses scenarioB 5) (App.defaultOptions 5))
      (App.generateCandidates Engine.run frozenClock
         (App.buildConstraintsFromGuesses scenarioB 5) (cancelledFrom 40 5)
       ++ more).
Proof.
  assert (H : forall m, 40 <= m -> cancelledRef (cancelledFrom 40 5) m = true).
  { intros m Hm. apply (proj2 (Nat.leb_le 40 m)). lia. }
  split; [exact H|].
  destruct (C9_cancellation Engine.run frozenClock
              (App.buildConstraintsFromGuesses scenarioB 5)
              (cancelledFrom 40 5) H) as [_ [_ [Hrun [Hperm [_ Hreturned]]]]].
  assert (Hsame : forall m, m < 40 ->
                    cancelledRef (App.defaultOptions 5) m
                    = cancelledRef (cancelledFrom 40 5) m).
  { intros m Hm. symmetry. apply (proj2 (Nat.leb_gt 40 m)). lia. }
  split.
  { destruct (Hrun (App.defaultOptions 5) Hsame eq_refl eq_refl eq_refl)
      as [HApp _].
    exact HApp. }
  split; [vm_compute; reflexivity|].
  split; [exact Hperm|].
  destruct (Hreturned (App.defaultOptions 5) Hsame eq_refl eq_refl eq_refl)
    as [HApp _].
  exact HApp.
Defined.

(** ** The builder of [src/app.js] *)

Section EntriesOrder.
Variable V : Type.
Implicit Types (o : Obj.t V) (x : ascii * V).

Lemma entriesOf_cons x o (ds : str) :
  NoDup ds ->
  Permutation (flat_map (Obj.entriesOf (x :: o)) ds)
              ((if includes ds (fst x) then [x] else [])
               ++ flat_map (Obj.entriesOf o) ds).
Proof.
  induction ds as [|d ds IH]; intros Hnd.
  - apply Permutation_refl.
  - inversion Hnd as [|? ? Hnot Hrest]; subst.
    specialize (IH Hrest).
    change (includes (d :: ds) (fst x))
      with (Ascii.eqb (fst x) d || includes ds (fst x)).
    change (flat_map (Obj.entriesOf (x :: o)) (d :: ds))
      with ((if Ascii.eqb (fst x) d then x :: Obj.entriesOf o d
             else Obj.entriesOf o d)
            ++ flat_map (Obj.entriesOf (x :: o)) ds).
    change (flat_map (Obj.entriesOf o) (d :: ds))
      with (Obj.entriesOf o d ++ flat_map (Obj.entriesOf o) ds).
    destruct (Ascii.eqb_spec (fst x) d) as [Heq|Hne].
    + assert (Hin : includes ds (fst x) = false).
      { destruct (includes ds (fst x)) eqn:H; [|reflexivity].
        apply includes_In in H. congruence. }
      rewrite Hin in IH. simpl in *. apply perm_skip.
      now apply Permutation_app_head.
    + simpl orb. rewrite IH. apply Permutation_app_swap_app.
Qed.

Lemma NoDup_digits : NoDup digits.
Proof.
  assert (H : nodup ascii_dec digits = digits) by (vm_compute; reflexivity).
  rewrite <- H. apply NoDup_nodup.
Qed.

Lemma entries_nil : Obj.entries (V:=V) [] = [].
Proof. reflexivity. Qed.

Lemma entries_perm o : Permutation (Obj.entries o) o.
Proof.
  induction o as [|x o IH].
  - rewrite entries_nil. constructor.
  - unfold Obj.entries in *.
    eapply Permutation_trans.
    { apply Permutation_app_tail. apply entriesOf_cons, NoDup_digits. }
    change (filter (fun kv : ascii * V => negb (isDigit (fst kv))) (x :: o))
      with (if negb (isDigit (fst x))
            then x :: filter (fun kv : ascii * V => negb (isDigit (fst kv))) o
            else filter (fun kv : ascii * V => negb (isDigit (fst kv))) o).
    unfold isDigit at 1.
    set (F := flat_map (Obj.entriesOf o) digits) in *.
    set (N := filter (fun kv : ascii * V => negb (isDigit (fst kv))) o) in *.
    destruct (includes digits (fst x)); cbn [negb app].
    + now apply perm_skip.
    + eapply Permutation_trans.
      * apply Permutation_sym, Permutation_middle.
      * now apply perm_skip.
Qed.

Lemma NoDup_keys_entries o :
  NoDup (map fst o) -> NoDup (Obj.keys o).
Proof.
  unfold Obj.keys. apply Permutation_NoDup.
  apply Permutation_map, Permutation_sym, entries_perm.
Qed.

Lemma In_keys o k : In k (Obj.keys o) <-> In k (map fst o).
Proof.
  unfold Obj.keys. split; apply Permutation_in, Permutation_map.
  - apply entries_perm.
  - apply Permutation_sym, entries_perm.
Qed.
End EntriesOrder.

Lemma includes_keys_get (V : Type) (o : Obj.t V) (k : ascii) :
  includes (map fst o) k = true <-> Obj.get o k <> None.
Proof.
  rewrite includes_In. split.
  - intros Hin Hnone. now apply get_None_key in Hnone.
  - intros Hne. destruct (Obj.get o k) as [v|] eqn:Hget; [|congruence].
    now apply get_Some_key in Hget.
Qed.

Lemma fold_set_list (A : Type) (f : A -> nat) (src : Obj.t A)
  (es : list (ascii * A)) (acc : Obj.t nat) (k : ascii) :
  (forall k' x, In (k', x) es -> Obj.get src k' = Some x) ->
  Obj.get (fold_left (fun acc '(k', x) => Obj.set acc k' (f x)) es acc) k
  = if includes (map fst es) k then option_map f (Obj.get src k)
    else Obj.get acc k.
Proof.
  revert acc. induction es as [|[k0 x0] es IH]; intros acc Hes; simpl.
  - reflexivity.
  - rewrite IH by (intros k' x Hin; apply Hes; now right).
    unfold includes. simpl.
    change (existsb (Ascii.eqb k) (map fst es)) with (includes (map fst es) k).
    destruct (includes (map fst es) k); [now rewrite orb_true_r|].
    rewrite orb_false_r, get_set.
    destruct (Ascii.eqb_spec k k0) as [->|Hne]; [|reflexivity].
    rewrite (Hes k0 x0) by now left. reflexivity.
Qed.

Lemma fold_set_entries (A : Type) (f : A -> nat) (src : Obj.t A)
  (acc : Obj.t nat) (k : ascii) :
  NoDup (map fst src) ->
  Obj.get (fold_left (fun acc '(k', x) => Obj.set acc k' (f x))
                     (Obj.entries src) acc) k
  = match Obj.get src k with
    | Some x => Some (f x)
    | None => Obj.get acc k
    end.
Proof.
  intros Hnd. rewrite (fold_set_list f src).
  - destruct (Obj.get src k) as [x|] eqn:Hget.
    + assert (H : includes (map fst (Obj.entries src)) k = true).
      { apply includes_In. apply (In_keys src k).
        now apply get_Some_key in Hget. }
      now rewrite H.
    + assert (H : includes (map fst (Obj.entries src)) k = false).
      { destruct (includes (map fst (Obj.entries src)) k) eqn:H;
          [|reflexivity].
        apply includes_In in H. apply (In_keys src k) in H.
        now apply get_None_key in Hget. }
      now rewrite H.
  - intros k' x Hin. apply NoDup_keys_get; [assumption|].
    now apply In_entries.
Qed.

Lemma maxOf_IsMax (l : list nat) : l <> [] -> IsMax (App.maxOf l) l.
Proof.
  induction l as [|x l IH]; [congruence|]. intros _.
  destruct l as [|y l].
  - simpl. rewrite Nat.max_0_r. split; [now left|].
    intros z [<-|[]]. lia.
  - destruct IH as [Hin Hle]; [discriminate|].
    change (App.maxOf (x :: y :: l)) with (Nat.max x (App.maxOf (y :: l))).
    split.
    + destruct (Nat.max_spec x (App.maxOf (y :: l))) as [[_ ->]|[_ ->]].
      * now right.
      * now left.
    + intros z [<-|Hz]; [lia|]. specialize (Hle z Hz). lia.
Qed.

Lemma fold_min_spec (x : nat) (l : list nat) :
  IsMin (fold_right Nat.min x l) (x :: l).
Proof.
  induction l as [|y l [Hin Hle]]; simpl.
  - split; [now left|]. intros z [<-|[]]. lia.
  - split.
    + destruct (Nat.min_spec y (fold_right Nat.min x l)) as [[_ ->]|[_ ->]].
      * right. now left.
      * destruct Hin as [Hin|Hin]; [now left | right; now right].
    + intros z [<-|[<-|Hz]].
      * specialize (Hle x (or_introl eq_refl)). lia.
      * lia.
      * specialize (Hle z (or_intror Hz)). lia.
Qed.

Lemma minOf_IsMin (l : list nat) : l <> [] -> IsMin (App.minOf l) l.
Proof.
  destruct l as [|x l]; [congruence|]. intros _. apply fold_min_spec.
Qed.

Lemma IsMax_same_elements (m : nat) (l l' : list nat) :
  (forall x, In x l <-> In x l') -> IsMax m l -> IsMax m l'.
Proof.
  intros H [Hin Hle]. split; [now apply H|].
  intros x Hx. apply Hle. now apply H.
Qed.

Lemma IsMin_same_elements (m : nat) (l l' : list nat) :
  (forall x, In x l <-> In x l') -> IsMin m l -> IsMin m l'.
Proof.
  intros H [Hin Hle]. split; [now apply H|].
  intros x Hx. apply Hle. now apply H.
Qed.

(** *** The tally of one guess *)

Lemma tally_keys (cc : Obj.t Colors) (ch color : ascii) :
  NoDup (map fst cc) -> NoDup (map fst (tally cc ch color)).
Proof.
  intros Hnd. unfold tally.
  destruct (Obj.get cc ch) as [c|] eqn:Hget.
  - rewrite Hget.
    destruct (Ascii.eqb color "g"); [now apply NoDup_keys_set|].
    destruct (Ascii.eqb color "y"); [now apply NoDup_keys_set|].
    destruct (Ascii.eqb color "x"); [now apply NoDup_keys_set | assumption].
  - rewrite get_set, Ascii.eqb_refl.
    destruct (Ascii.eqb color "g"); [now repeat apply NoDup_keys_set|].
    destruct (Ascii.eqb color "y"); [now repeat apply NoDup_keys_set|].
    destruct (Ascii.eqb color "x"); now repeat apply NoDup_keys_set.
Qed.

Ltac tally_cases cc ch color k :=
  unfold tally;
  destruct (Obj.get cc ch) as [c|] eqn:Hget;
  rewrite ?Hget, ?get_set, ?Ascii.eqb_refl;
  destruct (Ascii.eqb color "g") eqn:Hg;
  destruct (Ascii.eqb color "y") eqn:Hy;
  destruct (Ascii.eqb color "x") eqn:Hx;
  color_facts; try congruence;
  simpl; rewrite ?get_set;
  destruct (Ascii.eqb_spec k ch) as [->|Hk]; simpl;
  rewrite ?Hget; simpl; rewrite ?andb_false_r; try lia.

Lemma tally_green (cc : Obj.t Colors) (ch color k : ascii) :
  greenOf (tally cc ch color) k
  = greenOf cc k + (if Ascii.eqb k ch && Ascii.eqb color "g" then 1 else 0).
Proof.
  unfold greenOf. tally_cases cc ch color k;
    repeat match goal with
           | |- context [Obj.get cc ?a] =>
               destruct (Obj.get cc a); simpl; try lia
           end.
Qed.

Lemma tally_yellow (cc : Obj.t Colors) (ch color k : ascii) :
  yellowOf (tally cc ch color) k
  = yellowOf cc k + (if Ascii.eqb k ch && Ascii.eqb color "y" then 1 else 0).
Proof.
  unfold yellowOf. tally_cases cc ch color k;
    repeat match goal with
           | |- context [Obj.get cc ?a] =>
               destruct (Obj.get cc a); simpl; try lia
           end.
Qed.

Lemma tally_gray (cc : Obj.t Colors) (ch color k : ascii) :
  grayOf (tally cc ch color) k
  = grayOf cc k + (if Ascii.eqb k ch && Ascii.eqb color "x" then 1 else 0).
Proof.
  unfold grayOf. tally_cases cc ch color k;
    repeat match goal with
           | |- context [Obj.get cc ?a] =>
               destruct (Obj.get cc a); simpl; try lia
           end.
Qed.

Lemma charColorsOf_fold (g p : str) :
  charColorsOf g p
  = fold_left (fun cc x => tally cc (fst x) (snd x)) (combine g p) Obj.empty.
Proof.
  unfold charColorsOf, positions.
  rewrite <- (map_snd_positions_from 0 g p) at 2.
  rewrite <- fold_left_positions.
  apply fold_left_ext. intros acc [i [ch color]]. reflexivity.
Qed.

Lemma tally_fold (l : list (ascii * ascii)) (cc : Obj.t Colors) (k : ascii) :
  NoDup (map fst cc) ->
  let cc' := fold_left (fun cc x => tally cc (fst x) (snd x)) l cc in
  NoDup (map fst cc') /\
  greenOf cc' k
  = greenOf cc k
    + List.length (filter (fun x => Ascii.eqb (fst x) k && Ascii.eqb (snd x) "g") l) /\
  yellowOf cc' k
  = yellowOf cc k
    + List.length (filter (fun x => Ascii.eqb (fst x) k && Ascii.eqb (snd x) "y") l) /\
  grayOf cc' k
  = grayOf cc k
    + List.length (filter (fun x => Ascii.eqb (fst x) k && Ascii.eqb (snd x) "x") l).
Proof.
  revert cc. induction l as [|[ch color] l IH]; intros cc Hnd; simpl.
  - repeat split; try assumption; lia.
  - destruct (IH (tally cc ch color) (tally_keys cc ch color Hnd))
      as [H0 [H1 [H2 H3]]].
    split; [assumption|].
    rewrite H1, H2, H3, tally_green, tally_yellow, tally_gray.
    rewrite (eqb_sym k ch).
    repeat split;
      destruct (Ascii.eqb ch k); simpl;
      destruct (Ascii.eqb color "g"), (Ascii.eqb color "y"),
        (Ascii.eqb color "x"); simpl; lia.
Qed.

Lemma charColorsOf_NoDup (g p : str) : NoDup (map fst (charColorsOf g p)).
Proof.
  rewrite charColorsOf_fold.
  apply (tally_fold (combine g p) Obj.empty "0"). constructor.
Qed.

Lemma marked_split (ch : ascii) (g p : str) :
  marked ch g p = colorCount "g" ch g p + colorCount "y" ch g p.
Proof.
  unfold marked, colorCount, isMarked.
  induction (combine g p) as [|[c color] l IH]; simpl; [reflexivity|].
  destruct (Ascii.eqb c ch); simpl; [|assumption].
  destruct (Ascii.eqb_spec color "g") as [->|Hg]; simpl; [lia|].
  destruct (Ascii.eqb color "y"); simpl; lia.
Qed.

Lemma charColorsOf_counts (g p : str) (k : ascii) :
  greenOf (charColorsOf g p) k + yellowOf (charColorsOf g p) k = marked k g p /\
  grayOf (charColorsOf g p) k = colorCount "x" k g p.
Proof.
  rewrite charColorsOf_fold, marked_split. unfold colorCount.
  destruct (tally_fold (combine g p) Obj.empty k) as [_ [H1 [H2 H3]]];
    [constructor|].
  rewrite H1, H2, H3. split; reflexivity.
Qed.

(** *** The requirements and caps recorded for one guess *)

Lemma getList_pushTo (o : Obj.t (list nat)) (k k' : ascii) (n : nat) :
  getList (App.pushTo o k n) k'
  = if Ascii.eqb k' k then getList o k ++ [n] else getList o k'.
Proof.
  unfold App.pushTo, getList.
  destruct (Obj.get o k) as [l|] eqn:Hget; rewrite get_set;
    destruct (Ascii.eqb_spec k' k) as [->|Hne]; try reflexivity.
Qed.

Lemma pushTo_keys (o : Obj.t (list nat)) (k : ascii) (n : nat) :
  NoDup (map fst o) -> NoDup (map fst (App.pushTo o k n)).
Proof.
  intros H. unfold App.pushTo.
  destruct (Obj.get o k); now apply NoDup_keys_set.
Qed.

Lemma pushTo_nonempty (o : Obj.t (list nat)) (k k' : ascii) (n : nat) :
  (forall l, Obj.get o k' = Some l -> l <> []) ->
  forall l, Obj.get (App.pushTo o k n) k' = Some l -> l <> [].
Proof.
  intros H l. unfold App.pushTo.
  destruct (Obj.get o k) as [l0|]; rewrite get_set;
    destruct (Ascii.eqb k' k); try apply H;
    intros Heq; injection Heq as <-; try discriminate.
  destruct l0; discriminate.
Qed.


Lemma Recorded_same_elements b reqs caps reqs' caps' :
  (forall k x, In x (reqs' k) <-> In x (reqs k)) ->
  (forall k x, In x (caps' k) <-> In x (caps k)) ->
  Recorded b reqs caps -> Recorded b reqs' caps'.
Proof.
  intros Hr Hc [H1 H2 H3 H4 H5 H6 H7 H8].
  constructor; try assumption.
  - intros k x. now rewrite Hr.
  - intros k x. now rewrite Hc.
Qed.

Lemma recordRequirement_step b reqs caps (k0 : ascii) (c0 : Colors) :
  Recorded b reqs caps ->
  Recorded (App.recordRequirement b (k0, c0))
    (fun k => reqs k
              ++ if Ascii.eqb k k0 && (0 <? green c0 + yellow c0)
                 then [green c0 + yellow c0] else [])
    (fun k => caps k
              ++ if Ascii.eqb k k0
                    && ((0 <? gray c0) && (0 <? green c0 + yellow c0))
                 then [green c0 + yellow c0] else []).
Proof.
  intros [H1 H2 H3 H4 H5 H6 H7 H8].
  unfold App.recordRequirement.
  constructor; cbn [App.constraints App.charRequirements App.charMaxLimits];
    try assumption.
  - destruct (0 <? green c0 + yellow c0); [now apply pushTo_keys | assumption].
  - destruct (_ && _); [now apply pushTo_keys | assumption].
  - intros k. destruct (0 <? green c0 + yellow c0); [|apply H5].
    apply pushTo_nonempty, H5.
  - intros k. destruct (_ && _); [|apply H6].
    apply pushTo_nonempty, H6.
  - intros k x. rewrite in_app_iff, <- H7.
    destruct (0 <? green c0 + yellow c0).
    + rewrite getList_pushTo, andb_true_r.
      destruct (Ascii.eqb_spec k k0) as [->|Hne]; [now rewrite in_app_iff|].
      simpl. tauto.
    + rewrite andb_false_r. simpl. tauto.
  - intros k x. rewrite in_app_iff, <- H8.
    destruct ((0 <? gray c0) && (0 <? green c0 + yellow c0)).
    + rewrite getList_pushTo, andb_true_r.
      destruct (Ascii.eqb_spec k k0) as [->|Hne]; [now rewrite in_app_iff|].
      simpl. tauto.
    + rewrite andb_false_r. simpl. tauto.
Qed.

Lemma recordRequirement_fold (cc : Obj.t Colors) (es : list (ascii * Colors)) :
  (forall k c, In (k, c) es -> Obj.get cc k = Some c) ->
  forall b reqs caps reqs' caps',
    Recorded b reqs caps ->
    (forall k x,
        In x (reqs' k) <->
        In x (reqs k) \/
        (In k (map fst es) /\ x = greenOf cc k + yellowOf cc k /\ 0 < x)) ->
    (forall k x,
        In x (caps' k) <->
        In x (caps k) \/
        (In k (map fst es) /\ x = greenOf cc k + yellowOf cc k /\
         0 < grayOf cc k /\ 0 < x)) ->
    Recorded (fold_left App.recordRequirement es b) reqs' caps'.
Proof.
  induction es as [|[k0 c0] es IH];
    intros Hes b reqs caps reqs' caps' Hb Hr Hc; simpl.
  - apply Recorded_same_elements with reqs caps; try assumption.
    + intros k x. rewrite Hr. simpl. tauto.
    + intros k x. rewrite Hc. simpl. tauto.
  - pose proof (Hes k0 c0 (or_introl eq_refl)) as Hget.
    eapply IH.
    + intros k c Hin. apply Hes. now right.
    + apply recordRequirement_step. exact Hb.
    + intros k x. rewrite Hr, in_app_iff. cbn [map fst].
      unfold greenOf, yellowOf.
      destruct (Ascii.eqb_spec k k0) as [->|Hne].
      * rewrite Hget.
        destruct (0 <? green c0 + yellow c0) eqn:Hpos;
          first [apply Nat.ltb_lt in Hpos | apply Nat.ltb_ge in Hpos];
          cbn [andb In map fst app];
          intuition (subst; auto; lia).
      * cbn [andb In map fst app]. intuition congruence.
    + intros k x. rewrite Hc, in_app_iff. cbn [map fst].
      unfold greenOf, yellowOf, grayOf.
      destruct (Ascii.eqb_spec k k0) as [->|Hne].
      * rewrite Hget.
        destruct (0 <? gray c0) eqn:Hgray;
          destruct (0 <? green c0 + yellow c0) eqn:Hpos;
          first [apply Nat.ltb_lt in Hgray | apply Nat.ltb_ge in Hgray];
          first [apply Nat.ltb_lt in Hpos | apply Nat.ltb_ge in Hpos];
          cbn [andb In map fst app];
          intuition (subst; auto; lia).
      * cbn [andb In map fst app]. intuition congruence.
Qed.

(** *** The positions of one guess *)

Lemma arrayGet_arraySet (A : Type) (a : list (option A)) (i j : nat) (v : A) :
  arrayGet (arraySet a i v) j = if Nat.eqb j i then Some v else arrayGet a j.
Proof.
  revert a j. induction i as [|i IH]; intros a j.
  - destruct a as [|x a]; destruct j as [|j]; simpl; try reflexivity.
    unfold arrayGet. simpl. destruct j; reflexivity.
  - destruct a as [|x a]; destruct j as [|j]; simpl; try reflexivity.
    + change (arrayGet (None :: arraySet [] i v) (S j))
        with (arrayGet (arraySet [] i v) j).
      rewrite IH. destruct (Nat.eqb j i); [reflexivity|].
      unfold arrayGet. simpl. destruct j; reflexivity.
    + change (arrayGet (x :: arraySet a i v) (S j))
        with (arrayGet (arraySet a i v) j).
      rewrite IH. reflexivity.
Qed.

Lemma App_applyPosition_fold (cc : Obj.t Colors)
  (ps : list (nat * (ascii * ascii))) (c : ConstraintSet) :
  requiredCounts (fold_left (App.applyPosition cc) ps c) = requiredCounts c /\
  maxCounts (fold_left (App.applyPosition cc) ps c) = maxCounts c /\
  forall i ch,
    arrayGet (greens (fold_left (App.applyPosition cc) ps c)) i = Some ch ->
    arrayGet (greens c) i = Some ch \/ In (i, (ch, "g")) ps.
Proof.
  revert c. induction ps as [|[j [c0 color]] ps IH]; intros c.
  - simpl. auto.
  - change (fold_left (App.applyPosition cc) ((j, (c0, color)) :: ps) c)
      with (fold_left (App.applyPosition cc) ps
                      (App.applyPosition cc c (j, (c0, color)))).
    destruct (IH (App.applyPosition cc c (j, (c0, color)))) as [H1 [H2 H3]].
    rewrite H1, H2.
    assert (Hstep :
              requiredCounts (App.applyPosition cc c (j, (c0, color)))
              = requiredCounts c /\
              maxCounts (App.applyPosition cc c (j, (c0, color)))
              = maxCounts c /\
              forall i ch,
                arrayGet (greens (App.applyPosition cc c (j, (c0, color)))) i
                = Some ch ->
                arrayGet (greens c) i = Some ch \/
                (i, (ch, "g")) = (j, (c0, color))).
    { unfold App.applyPosition.
      destruct (Ascii.eqb_spec color "g") as [->|Hg].
      - simpl. repeat split. intros i ch. rewrite arrayGet_arraySet.
        destruct (Nat.eqb_spec i j) as [->|Hne]; [|auto].
        intros H. injection H as ->. now right.
      - destruct (Ascii.eqb color "y"); [simpl; auto|].
        destruct (Ascii.eqb color "x"); simpl; auto. }
    destruct Hstep as [S1 [S2 S3]].
    repeat split; try assumption.
    intros i ch Hi. destruct (H3 i ch Hi) as [H|H].
    + destruct (S3 i ch H) as [H'|H']; [now left | right; left; now symmetry].
    + right. now right.
Qed.

Lemma green_position_marked (g p : str) (i : nat) (ch : ascii) :
  In (i, (ch, "g")) (positions g p) -> 0 < marked ch g p.
Proof.
  intros Hin. unfold marked.
  assert (H : In (ch, "g") (filter (isMarked ch) (combine g p))).
  { apply filter_In. split.
    - unfold positions in Hin.
      rewrite <- (map_snd_positions_from 0 g p).
      apply in_map_iff. now exists (i, (ch, "g")).
    - unfold isMarked. simpl. now rewrite Ascii.eqb_refl. }
  destruct (filter (isMarked ch) (combine g p)); [contradiction | simpl; lia].
Qed.

(** *** The loop over the guesses *)

Lemma requirementsOf_snoc (ch : ascii) (hist : list GuessRecord) (r : GuessRecord) :
  requirementsOf ch (hist ++ [r])
  = requirementsOf ch hist
    ++ match counted r with
       | Some (g, p) => if 0 <? marked ch g p then [marked ch g p] else []
       | None => []
       end.
Proof.
  unfold requirementsOf. rewrite flat_map_app. simpl. now rewrite app_nil_r.
Qed.

Lemma capsOf_snoc (ch : ascii) (hist : list GuessRecord) (r : GuessRecord) :
  capsOf ch (hist ++ [r])
  = capsOf ch hist
    ++ match counted r with
       | Some (g, p) =>
           if (0 <? colorCount "x" ch g p) && (0 <? marked ch g p)
           then [marked ch g p]
           else []
       | None => []
       end.
Proof.
  unfold capsOf. rewrite flat_map_app. simpl. now rewrite app_nil_r.
Qed.

Lemma App_addGuess_counted b r g p :
  counted r = Some (g, p) ->
  App.addGuess b r
  = {| App.constraints :=
         fold_left (App.applyPosition (charColorsOf g p)) (positions g p)
           (App.constraints
              (fold_left App.recordRequirement
                         (Obj.entries (charColorsOf g p)) b));
       App.charRequirements :=
         App.charRequirements
           (fold_left App.recordRequirement
                      (Obj.entries (charColorsOf g p)) b);
       App.charMaxLimits :=
         App.charMaxLimits
           (fold_left App.recordRequirement
                      (Obj.entries (charColorsOf g p)) b) |}.
Proof.
  unfold counted, App.addGuess. destruct (solved r); [discriminate|].
  destruct (firstPattern (patterns r)) as [q|]; [|discriminate].
  destruct (patternMismatch (Some q) (guess r)); [discriminate|].
  intros H. injection H as <- <-. reflexivity.
Qed.

Lemma App_addGuess_skipped b r : counted r = None -> App.addGuess b r = b.
Proof.
  unfold counted, App.addGuess. destruct (solved r); [reflexivity|].
  destruct (firstPattern (patterns r)) as [q|]; [|reflexivity].
  destruct (patternMismatch (Some q) (guess r)); [reflexivity|discriminate].
Qed.

Lemma App_addGuess_Recorded b r hist :
  Recorded b (fun k => requirementsOf k hist) (fun k => capsOf k hist) ->
  Recorded (App.addGuess b r)
           (fun k => requirementsOf k (hist ++ [r]))
           (fun k => capsOf k (hist ++ [r])).
Proof.
  intros Hb. destruct (counted r) as [[g p]|] eqn:Hc.
  - rewrite (App_addGuess_counted b r Hc).
    assert (H2 : Recorded
                   (fold_left App.recordRequirement
                              (Obj.entries (charColorsOf g p)) b)
                   (fun k => requirementsOf k (hist ++ [r]))
                   (fun k => capsOf k (hist ++ [r]))).
    { apply (recordRequirement_fold (charColorsOf g p)
               (Obj.entries (charColorsOf g p)))
        with (2 := Hb).
      - intros k c Hin. apply NoDup_keys_get; [apply charColorsOf_NoDup|].
        now apply In_entries.
      - intros k x. rewrite requirementsOf_snoc, Hc, in_app_iff.
        destruct (charColorsOf_counts g p k) as [Hm _]. rewrite Hm.
        assert (Hkey : 0 < marked k g p ->
                       In k (map fst (Obj.entries (charColorsOf g p)))).
        { intros Hpos. apply (In_keys (charColorsOf g p) k).
          apply includes_In, includes_keys_get. intros Hnone.
          unfold greenOf, yellowOf in Hm. rewrite Hnone in Hm. lia. }
        destruct (0 <? marked k g p) eqn:Hpos;
          first [apply Nat.ltb_lt in Hpos | apply Nat.ltb_ge in Hpos];
          cbn [In]; intuition (subst; auto; lia).
      - intros k x. rewrite capsOf_snoc, Hc, in_app_iff.
        destruct (charColorsOf_counts g p k) as [Hm Hg]. rewrite Hm, Hg.
        assert (Hkey : 0 < marked k g p ->
                       In k (map fst (Obj.entries (charColorsOf g p)))).
        { intros Hpos. apply (In_keys (charColorsOf g p) k).
          apply includes_In, includes_keys_get. intros Hnone.
          unfold greenOf, yellowOf in Hm. rewrite Hnone in Hm. lia. }
        destruct (0 <? colorCount "x" k g p) eqn:Hgray;
          destruct (0 <? marked k g p) eqn:Hpos;
          first [apply Nat.ltb_lt in Hgray | apply Nat.ltb_ge in Hgray];
          first [apply Nat.ltb_lt in Hpos | apply Nat.ltb_ge in Hpos];
          cbn [andb In]; intuition (subst; auto; lia). }
    destruct H2 as [R1 R2 R3 R4 R5 R6 R7 R8].
    destruct (App_applyPosition_fold (charColorsOf g p) (positions g p)
                (App.constraints
                   (fold_left App.recordRequirement
                              (Obj.entries (charColorsOf g p)) b)))
      as [A1 [A2 _]].
    constructor; cbn [App.constraints App.charRequirements App.charMaxLimits];
      try assumption; congruence.
  - rewrite (App_addGuess_skipped b r Hc).
    apply Recorded_same_elements with (3 := Hb).
    + intros k x. rewrite requirementsOf_snoc, Hc, app_nil_r. tauto.
    + intros k x. rewrite capsOf_snoc, Hc, app_nil_r. tauto.
Qed.

Lemma recordRequirement_constraints es b :
  App.constraints (fold_left App.recordRequirement es b) = App.constraints b.
Proof.
  revert b. induction es as [|[k c] es IH]; intros b; simpl.
  - reflexivity.
  - now rewrite IH.
Qed.

Lemma App_addGuess_greens b r hist :
  GreensMarked (App.constraints b) hist ->
  GreensMarked (App.constraints (App.addGuess b r)) (hist ++ [r]).
Proof.
  intros Hb i ch Hi. rewrite requirementsOf_snoc.
  destruct (counted r) as [[g p]|] eqn:Hc.
  - rewrite (App_addGuess_counted b r Hc) in Hi.
    cbn [App.constraints] in Hi. rewrite recordRequirement_constraints in Hi.
    destruct (App_applyPosition_fold (charColorsOf g p) (positions g p)
                (App.constraints b)) as [_ [_ H]].
    destruct (H i ch Hi) as [Hold|Hnew].
    + specialize (Hb i ch Hold). intros Heq. apply app_eq_nil in Heq. tauto.
    + apply green_position_marked in Hnew.
      apply Nat.ltb_lt in Hnew. rewrite Hnew.
      intros Heq. apply app_eq_nil in Heq. destruct Heq; discriminate.
  - rewrite (App_addGuess_skipped b r Hc) in Hi.
    rewrite app_nil_r. now apply Hb with i.
Qed.

Lemma App_guesses_fold (rs : list GuessRecord) :
  forall b hist,
    Recorded b (fun k => requirementsOf k hist) (fun k => capsOf k hist) ->
    GreensMarked (App.constraints b) hist ->
    Recorded (fold_left App.addGuess rs b)
             (fun k => requirementsOf k (hist ++ rs))
             (fun k => capsOf k (hist ++ rs)) /\
    GreensMarked (App.constraints (fold_left App.addGuess rs b)) (hist ++ rs).
Proof.
  induction rs as [|r rs IH]; intros b hist Hb Hg; simpl.
  - rewrite app_nil_r. auto.
  - replace (hist ++ r :: rs) with ((hist ++ [r]) ++ rs)
      by now rewrite <- app_assoc.
    apply IH.
    + now apply App_addGuess_Recorded.
    + now apply App_addGuess_greens.
Qed.

Lemma arrayGet_repeat_None (A : Type) (n i : nat) :
  arrayGet (repeat (@None A) n) i = None.
Proof.
  unfold arrayGet. destruct (nth_error (repeat None n) i) as [[v|]|] eqn:H;
    try reflexivity.
  apply nth_error_In, repeat_spec in H. discriminate.
Qed.

(** *** The corrections after the loop *)

Lemma greenCountsOf_fold (gs : list (option ascii)) (acc : Obj.t nat) (ch : ascii) :
  NoDup (map fst acc) ->
  NoDup (map fst (fold_left
                    (fun greenCounts g =>
                       match g with
                       | Some c => increment greenCounts c
                       | None => greenCounts
                       end) gs acc)) /\
  getOr0 (fold_left
            (fun greenCounts g =>
               match g with
               | Some c => increment greenCounts c
               | None => greenCounts
               end) gs acc) ch
  = getOr0 acc ch + fixedCount ch gs.
Proof.
  revert acc. induction gs as [|[c|] gs IH]; intros acc Hnd; simpl.
  - split; [assumption | unfold fixedCount; simpl; lia].
  - destruct (IH (increment acc c)) as [H1 H2].
    { now apply NoDup_keys_set. }
    split; [assumption|]. rewrite H2, getOr0_increment.
    unfold fixedCount. simpl. rewrite (eqb_sym ch c).
    destruct (Ascii.eqb c ch); simpl; lia.
  - destruct (IH acc Hnd) as [H1 H2]. split; [assumption|].
    rewrite H2. unfold fixedCount. simpl. lia.
Qed.

Lemma greenCountsOf_spec (gs : list (option ascii)) (ch : ascii) :
  NoDup (map fst (App.greenCountsOf gs)) /\
  getOr0 (App.greenCountsOf gs) ch = fixedCount ch gs.
Proof.
  destruct (greenCountsOf_fold gs Obj.empty ch) as [H1 H2]; [constructor|].
  split; [exact H1 | exact H2].
Qed.

Lemma subtract_fold (gc : Obj.t nat) (ks : list ascii) :
  NoDup ks ->
  forall (req : Obj.t nat) (ch : ascii),
    Obj.get (fold_left
               (fun req k =>
                  match Obj.get req k with
                  | Some n => Obj.set req k (n - getOr0 gc k)
                  | None => req
                  end) ks req) ch
    = if includes ks ch
      then option_map (fun n => n - getOr0 gc ch) (Obj.get req ch)
      else Obj.get req ch.
Proof.
  induction ks as [|k ks IH]; intros Hnd req ch; simpl.
  - reflexivity.
  - inversion Hnd as [|? ? Hnot Hrest]; subst.
    rewrite (IH Hrest). unfold includes. simpl.
    change (existsb (Ascii.eqb ch) ks) with (includes ks ch).
    assert (Hstep : Obj.get match Obj.get req k with
                            | Some n => Obj.set req k (n - getOr0 gc k)
                            | None => req
                            end ch
                    = if Ascii.eqb ch k
                      then option_map (fun n => n - getOr0 gc ch) (Obj.get req ch)
                      else Obj.get req ch).
    { destruct (Obj.get req k) as [n|] eqn:Hk.
      - rewrite get_set. destruct (Ascii.eqb_spec ch k) as [->|Hne];
          [now rewrite Hk | reflexivity].
      - destruct (Ascii.eqb_spec ch k) as [->|Hne];
          [now rewrite Hk | reflexivity]. }
    rewrite Hstep.
    destruct (Ascii.eqb_spec ch k) as [->|Hne]; simpl.
    + assert (Hin : includes ks k = false).
      { destruct (includes ks k) eqn:H; [|reflexivity].
        apply includes_In in H. contradiction. }
      now rewrite Hin.
    + reflexivity.
Qed.

Lemma subtractGreens_get (gc req : Obj.t nat) (ch : ascii) :
  NoDup (map fst gc) ->
  Obj.get (App.subtractGreens gc req) ch
  = option_map (fun n => n - getOr0 gc ch) (Obj.get req ch).
Proof.
  intros Hnd. unfold App.subtractGreens.
  rewrite subtract_fold by now apply NoDup_keys_entries.
  destruct (includes (Obj.keys gc) ch) eqn:Hin; [reflexivity|].
  assert (Hz : getOr0 gc ch = 0).
  { unfold getOr0. destruct (Obj.get gc ch) as [n|] eqn:Hget; [|reflexivity].
    apply get_Some_key in Hget. apply (In_keys gc ch) in Hget.
    apply includes_In in Hget. congruence. }
  rewrite Hz. destruct (Obj.get req ch); simpl; [|reflexivity].
  now rewrite Nat.sub_0_r.
Qed.

(** *** The constraint set that [App.buildConstraintsFromGuesses] returns *)

Lemma App_loop_state (hist : list GuessRecord) (len : nat) :
  Recorded
    (fold_left App.addGuess hist
       {| App.constraints := App.emptyConstraints len;
          App.charRequirements := Obj.empty;
          App.charMaxLimits := Obj.empty |})
    (fun k => requirementsOf k hist) (fun k => capsOf k hist) /\
  GreensMarked
    (App.constraints
       (fold_left App.addGuess hist
          {| App.constraints := App.emptyConstraints len;
             App.charRequirements := Obj.empty;
             App.charMaxLimits := Obj.empty |}))
    hist.
Proof.
  apply App_guesses_fold with (hist := []).
  - constructor; simpl; try reflexivity; try constructor;
      try discriminate; try tauto.
  - intros i ch H. simpl in H. unfold App.emptyConstraints in H. simpl in H.
    rewrite arrayGet_repeat_None in H. discriminate.
Qed.

Lemma getList_nonempty (o : Obj.t (list nat)) (k : ascii) :
  (forall l, Obj.get o k = Some l -> l <> []) ->
  getList o k <> [] -> exists l, Obj.get o k = Some l /\ l <> [].
Proof.
  unfold getList. intros H Hne.
  destruct (Obj.get o k) as [l|]; [|congruence]. exists l. auto.
Qed.

Lemma same_elements_nil (l l' : list nat) :
  (forall x, In x l <-> In x l') -> l = [] <-> l' = [].
Proof.
  intros H. split; intros ->.
  - destruct l' as [|x l']; [reflexivity|].
    exfalso. apply (H x). now left.
  - destruct l as [|x l]; [reflexivity|].
    exfalso. apply (H x). now left.
Qed.

Lemma App_builder_required (hist : list GuessRecord) (len : nat) (ch : ascii) :
  (requirementsOf ch hist = [] ->
   Obj.get (requiredCounts (App.buildConstraintsFromGuesses hist len)) ch
   = None) /\
  (requirementsOf ch hist <> [] ->
   exists m,
     IsMax m (requirementsOf ch hist) /\
     Obj.get (requiredCounts (App.buildConstraintsFromGuesses hist len)) ch
     = Some (m - fixedCount ch
                   (greens (App.buildConstraintsFromGuesses hist len)))).
Proof.
  destruct (App_loop_state hist len) as [[R1 R2 R3 R4 R5 R6 R7 R8] _].
  unfold App.buildConstraintsFromGuesses.
  set (b := fold_left App.addGuess hist _) in *.
  cbn [requiredCounts greens].
  destruct (greenCountsOf_spec (greens (App.constraints b)) ch) as [G1 G2].
  rewrite subtractGreens_get by assumption.
  rewrite fold_set_entries by assumption.
  rewrite R1, G2.
  pose proof (@same_elements_nil _ _ (R7 ch)) as Hnil.
  split.
  - intros Hempty. apply Hnil in Hempty.
    destruct (Obj.get (App.charRequirements b) ch) as [l|] eqn:Hget;
      [|reflexivity].
    exfalso. apply (R5 ch l Hget). unfold getList in Hempty.
    now rewrite Hget in Hempty.
  - intros Hne.
    assert (Hne' : getList (App.charRequirements b) ch <> []) by tauto.
    destruct (@getList_nonempty _ ch (R5 ch) Hne') as [l [Hget Hl]].
    rewrite Hget. exists (App.maxOf l). split; [|reflexivity].
    apply IsMax_same_elements with l; [|now apply maxOf_IsMax].
    intros x. rewrite <- R7. unfold getList. now rewrite Hget.
Qed.

Lemma App_builder_max (hist : list GuessRecord) (len : nat) (ch : ascii) :
  (capsOf ch hist = [] ->
   Obj.get (maxCounts (App.buildConstraintsFromGuesses hist len)) ch = None) /\
  (capsOf ch hist <> [] ->
   exists m,
     IsMin m (capsOf ch hist) /\
     Obj.get (maxCounts (App.buildConstraintsFromGuesses hist len)) ch
     = Some m).
Proof.
  destruct (App_loop_state hist len) as [[R1 R2 R3 R4 R5 R6 R7 R8] _].
  unfold App.buildConstraintsFromGuesses.
  set (b := fold_left App.addGuess hist _) in *.
  cbn [maxCounts].
  rewrite fold_set_entries by assumption.
  rewrite R2.
  pose proof (@same_elements_nil _ _ (R8 ch)) as Hnil.
  split.
  - intros Hempty. apply Hnil in Hempty.
    destruct (Obj.get (App.charMaxLimits b) ch) as [l|] eqn:Hget;
      [|reflexivity].
    exfalso. apply (R6 ch l Hget). unfold getList in Hempty.
    now rewrite Hget in Hempty.
  - intros Hne.
    assert (Hne' : getList (App.charMaxLimits b) ch <> []) by tauto.
    destruct (@getList_nonempty _ ch (R6 ch) Hne') as [l [Hget Hl]].
    rewrite Hget. exists (App.minOf l). split; [|reflexivity].
    apply IsMin_same_elements with l; [|now apply minOf_IsMin].
    intros x. rewrite <- R8. unfold getList. now rewrite Hget.
Qed.

Lemma hasChar_In (s : list ascii) (ch : ascii) : hasChar s ch = true <-> In ch s.
Proof. apply includes_In. Qed.

Lemma In_deleteChar (s : list ascii) (k ch : ascii) :
  In ch (deleteChar s k) <-> In ch s /\ k <> ch.
Proof.
  unfold deleteChar, JsSet.delete. rewrite filter_In, negb_true_iff.
  split; intros [H1 H2]; split; try assumption.
  - now apply Ascii.eqb_neq.
  - now apply Ascii.eqb_neq.
Qed.

Lemma unexclude_fold (gc req : Obj.t nat) (ks : list ascii) :
  forall (ex : list ascii) (ch : ascii),
    In ch (fold_left
             (fun ex k =>
                if (0 <? getOr0 req k) || (0 <? getOr0 gc k)
                then deleteChar ex k
                else ex) ks ex) ->
    In ch ex /\
    (In ch ks -> (0 <? getOr0 req ch) || (0 <? getOr0 gc ch) = false).
Proof.
  induction ks as [|k ks IH]; intros ex ch Hin; simpl in *.
  - tauto.
  - apply IH in Hin. destruct Hin as [Hin Hks].
    destruct ((0 <? getOr0 req k) || (0 <? getOr0 gc k)) eqn:Hk.
    + apply In_deleteChar in Hin. destruct Hin as [Hin Hne].
      split; [assumption|]. intros [Heq|H]; [congruence | auto].
    + split; [assumption|]. intros [<-|H]; [assumption | auto].
Qed.

Lemma fixedCount_pos (gs : list (option ascii)) (i : nat) (ch : ascii) :
  arrayGet gs i = Some ch -> 0 < fixedCount ch gs.
Proof.
  unfold arrayGet, fixedCount. intros H.
  destruct (nth_error gs i) as [[c|]|] eqn:Hn; try discriminate.
  injection H as ->. apply nth_error_In in Hn.
  assert (Hf : In (Some ch)
                 (filter (fun g => match g with
                                   | Some c => Ascii.eqb c ch
                                   | None => false
                                   end) gs)).
  { apply filter_In. split; [assumption | apply Ascii.eqb_refl]. }
  destruct (filter _ gs); [contradiction | simpl; lia].
Qed.

Lemma App_builder_excluded (hist : list GuessRecord) (len : nat) (ch : ascii) :
  hasChar (excluded (App.buildConstraintsFromGuesses hist len)) ch = true ->
  getOr0 (requiredCounts (App.buildConstraintsFromGuesses hist len)) ch = 0 /\
  forall i,
    arrayGet (greens (App.buildConstraintsFromGuesses hist len)) i <> Some ch.
Proof.
  intros Hex.
  pose proof (App_builder_required hist len ch) as [Hnone Hsome].
  destruct (App_loop_state hist len) as [_ Hgreens].
  revert Hex Hnone Hsome.
  unfold App.buildConstraintsFromGuesses.
  set (b := fold_left App.addGuess hist _) in *.
  cbn [requiredCounts greens excluded].
  set (gc := App.greenCountsOf (greens (App.constraints b))).
  set (req := App.subtractGreens gc _).
  intros Hex Hnone Hsome.
  apply hasChar_In in Hex. unfold App.unexclude in Hex.
  apply unexclude_fold in Hex. destruct Hex as [_ Hkeys].
  assert (Hkey : Obj.get req ch <> None ->
                 (0 <? getOr0 req ch) || (0 <? getOr0 gc ch) = false).
  { intros Hne. apply Hkeys. apply (In_keys req ch).
    apply includes_In, includes_keys_get, Hne. }
  split.
  - unfold getOr0 at 1. destruct (Obj.get req ch) as [n|] eqn:Hget;
      [|reflexivity].
    assert (H : (0 <? getOr0 req ch) || (0 <? getOr0 gc ch) = false)
      by (apply Hkey; congruence).
    apply orb_false_iff in H. destruct H as [H _].
    apply Nat.ltb_ge in H. unfold getOr0 in H. rewrite Hget in H. lia.
  - intros i Hi.
    assert (Hreq : requirementsOf ch hist <> []) by (now apply Hgreens with i).
    destruct (Hsome Hreq) as [m [_ Hget]].
    assert (H : (0 <? getOr0 req ch) || (0 <? getOr0 gc ch) = false)
      by (apply Hkey; congruence).
    apply orb_false_iff in H. destruct H as [_ H].
    apply Nat.ltb_ge in H.
    destruct (greenCountsOf_spec (greens (App.constraints b)) ch) as [_ G2].
    fold gc in G2. apply fixedCount_pos in Hi. lia.
Qed.

(** ** C5 *)

(** C5.  For every history and length, [buildConstraintsFromGuesses] of
    [src/app.js] yields: [requiredCounts[c]] is absent when no guess that
    counts marks [c] green or yellow, and otherwise is the maximum over the
    guesses of [c]'s green+yellow count in that guess, minus the number of
    fixed positions that hold [c], floored at 0; [maxCounts[c]] is absent
    when no guess marks [c] gray next to a green or yellow [c], and
    otherwise is the minimum over those guesses of [c]'s green+yellow count.
    The copy of [src/solver.js] does not: after the two guesses [1+2=3] and
    [5+4=9], each with ['+'] and ['='] green (what the hidden equation
    [7+0=7] answers), it requires two ['+'] where the maximum 1 less the one
    fixed ['+'] is 0, and its search then returns nothing, while the one of
    [src/app.js] finds [7+0=7]; and after caps of 1 and then 2 for ['1'] it
    keeps the last cap, 2, not the minimum. *)
Theorem C5_required_and_max_counts
  (hist : list GuessRecord) (len : nat) (ch : ascii) :
  ((requirementsOf ch hist = [] ->
    Obj.get (requiredCounts (App.buildConstraintsFromGuesses hist len)) ch
    = None) /\
   (requirementsOf ch hist <> [] ->
    exists m,
      IsMax m (requirementsOf ch hist) /\
      Obj.get (requiredCounts (App.buildConstraintsFromGuesses hist len)) ch
      = Some (m - fixedCount ch
                    (greens (App.buildConstraintsFromGuesses hist len)))) /\
   (capsOf ch hist = [] ->
    Obj.get (maxCounts (App.buildConstraintsFromGuesses hist len)) ch = None) /\
   (capsOf ch hist <> [] ->
    exists m,
      IsMin m (capsOf ch hist) /\
      Obj.get (maxCounts (App.buildConstraintsFromGuesses hist len)) ch
      = Some m)) /\
  (requirementsOf "+" twoGreenGuesses = [1; 1] /\
   fixedCount "+" (greens (Solver.buildConstraintsFromGuesses twoGreenGuesses 5))
   = 1 /\
   Obj.get (requiredCounts (Solver.buildConstraintsFromGuesses twoGreenGuesses 5))
           "+" = Some 2 /\
   Obj.get (requiredCounts (App.buildConstraintsFromGuesses twoGreenGuesses 5))
           "+" = Some 0 /\
   Solver.generateCandidates Engine.run frozenClock
     (Solver.buildConstraintsFromGuesses twoGreenGuesses 5)
     (Solver.defaultOptions 5) = [] /\
   In (lit "7+0=7")
      (App.generateCandidates Engine.run frozenClock
         (App.buildConstraintsFromGuesses twoGreenGuesses 5)
         (App.defaultOptions 5))) /\
  (capsOf "1" capOneThenTwo = [1; 2] /\
   Obj.get (maxCounts (Solver.buildConstraintsFromGuesses capOneThenTwo 5)) "1"
   = Some 2 /\
   Obj.get (maxCounts (App.buildConstraintsFromGuesses capOneThenTwo 5)) "1"
   = Some 1).
Proof.
  split; [|split].
  - destruct (App_builder_required hist len ch) as [H1 H2].
    destruct (App_builder_max hist len ch) as [H3 H4].
    repeat split; assumption.
  - split; [reflexivity|]. split; [reflexivity|]. split; [reflexivity|].
    split; [reflexivity|]. split.
    + vm_compute. reflexivity.
    + apply memStr_In. vm_compute. reflexivity.
  - repeat split; reflexivity.
Qed.

(** ** C6 *)

(** C6.  For every history and length, in the constraint set that
    [buildConstraintsFromGuesses] of [src/app.js] returns, an excluded
    character has no positive [requiredCounts] entry and holds no fixed
    position.  The copy of [src/solver.js] does not keep this: after [1+1=2]
    with every ['1'] gray and then [1+3=4] with its ['1'] green, ['1'] is
    excluded, required once and fixed at index 0. *)
Theorem C6_excluded_never_required_or_fixed
  (hist : list GuessRecord) (len : nat) (ch : ascii) :
  (hasChar (excluded (App.buildConstraintsFromGuesses hist len)) ch = true ->
   getOr0 (requiredCounts (App.buildConstraintsFromGuesses hist len)) ch = 0 /\
   forall i,
     arrayGet (greens (App.buildConstraintsFromGuesses hist len)) i
     <> Some ch) /\
  (hasChar (excluded (Solver.buildConstraintsFromGuesses grayThenGreen 5)) "1"
   = true /\
   Obj.get (requiredCounts (Solver.buildConstraintsFromGuesses grayThenGreen 5))
           "1" = Some 1 /\
   arrayGet (greens (Solver.buildConstraintsFromGuesses grayThenGreen 5)) 0
   = Some "1" /\
   hasChar (excluded (App.buildConstraintsFromGuesses grayThenGreen 5)) "1"
   = false).
Proof.
  split.
  - apply App_builder_excluded.
  - repeat split; reflexivity.
Qed.

(** * Further properties of the code *)

(** ** The validator, rule by rule *)

Lemma split_no_separator (sep : ascii) (s : str) :
  ~ In sep s -> split sep s = [s].
Proof.
  induction s as [|c s IH]; intros Hnot; simpl.
  - reflexivity.
  - destruct (Ascii.eqb_spec c sep) as [->|Hne].
    + exfalso. apply Hnot. now left.
    + rewrite IH; [reflexivity|]. intros H. apply Hnot. now right.
Qed.

Lemma split_at_separator (sep : ascii) (l r : str) :
  ~ In sep l -> split sep (l ++ sep :: r) = l :: split sep r.
Proof.
  induction l as [|c l IH]; intros Hnot; simpl.
  - now rewrite Ascii.eqb_refl.
  - destruct (Ascii.eqb_spec c sep) as [->|Hne].
    + exfalso. apply Hnot. now left.
    + rewrite IH; [reflexivity|]. intros H. apply Hnot. now right.
Qed.

Lemma countChar_zero (c : ascii) (s : str) : countChar c s = 0 <-> ~ In c s.
Proof. unfold countChar. symmetry. apply count_occ_not_In. Qed.

Lemma countChar_one_split (c : ascii) (s : str) :
  countChar c s = 1 ->
  exists l r, s = l ++ c :: r /\ ~ In c l /\ ~ In c r.
Proof.
  induction s as [|x s IH]; intros H.
  - discriminate.
  - unfold countChar in H. simpl in H.
    destruct (ascii_dec x c) as [->|Hne].
    + exists [], s. split; [reflexivity|]. split; [tauto|].
      apply countChar_zero. unfold countChar. lia.
    + destruct (IH H) as [l [r [-> [Hl Hr]]]].
      exists (x :: l), r. split; [reflexivity|]. split; [|assumption].
      intros [Heq|Hin]; [congruence | contradiction].
Qed.

Lemma matchesExpressionChars_no_equal (l : str) :
  matchesExpressionChars l = true -> l <> [] /\ ~ In "=" l.
Proof.
  unfold matchesExpressionChars. intros H. apply andb_true_iff in H.
  destruct H as [Hlen Hall]. split.
  - intros ->. discriminate.
  - intros Hin. rewrite forallb_forall in Hall. specialize (Hall _ Hin).
    vm_compute in Hall. discriminate.
Qed.

Lemma matchesInteger_no_equal (r : str) :
  matchesInteger r = true ->
  r <> [] /\ ~ In "=" r /\ last r "0" <> "=".
Proof.
  unfold matchesInteger. intros H. apply andb_true_iff in H.
  destruct H as [Hlen Hall]. rewrite forallb_forall in Hall.
  assert (Hdigit : forall ds, (forall c, In c ds -> isDigit c = true) ->
                              ~ In "=" ds).
  { intros ds Hds Hin. specialize (Hds _ Hin). vm_compute in Hds.
    discriminate. }
  assert (Hlast : forall ds, ds <> [] ->
                             (forall c, In c ds -> isDigit c = true) ->
                             last ds "0" <> "=").
  { intros ds Hne Hds Heq.
    destruct (exists_last Hne) as [ds' [c ->]].
    rewrite last_last in Heq. subst c.
    apply (Hdigit (ds' ++ ["="]) Hds). apply in_or_app. right. now left. }
  destruct r as [|c r]; [discriminate|].
  destruct (Ascii.eqb_spec c "-") as [->|Hne].
  - assert (Hr : r <> []) by (intros ->; discriminate).
    split; [discriminate|]. split.
    + intros [Heq|Hin]; [discriminate | now apply (Hdigit r Hall)].
    + intros Heq. apply (Hlast r Hr Hall).
      destruct r; [congruence | exact Heq].
  - assert (Hall' : forall x, In x (c :: r) -> isDigit x = true).
    { destruct c as [[] [] [] [] [] [] [] []]; try exact Hall;
        exfalso; apply Hne; reflexivity. }
    split; [discriminate|]. split.
    + now apply Hdigit.
    + apply Hlast; [discriminate | assumption].
Qed.

Lemma alphabet_classes (c : ascii) :
  (isDigit c || includes operators c = true -> includes alphabet c = true)
  /\ (isDigit c = true -> includes alphabet c = true)
  /\ (isDigit c = true -> c <> "=").
Proof.
  destruct c as [[] [] [] [] [] [] [] []]; vm_compute;
    repeat split; intros; congruence.
Qed.

Lemma matchesEquationChars_parts (l r : str) :
  matchesExpressionChars l = true -> matchesInteger r = true ->
  matchesEquationChars (l ++ "=" :: r) = true.
Proof.
  unfold matchesExpressionChars, matchesInteger, matchesEquationChars.
  intros Hl Hr. apply andb_true_iff in Hl. destruct Hl as [_ Hl].
  apply andb_true_iff in Hr. destruct Hr as [_ Hr].
  apply andb_true_iff. split.
  - rewrite length_app. simpl.
    destruct (List.length l + S (List.length r)) eqn:E; [lia | reflexivity].
  - rewrite forallb_app. apply andb_true_iff. split.
    + rewrite forallb_forall in *. intros c Hc.
      apply (proj1 (alphabet_classes c)). now apply Hl.
    + simpl. rewrite forallb_forall in *. intros c Hc.
      destruct r as [|x r]; [contradiction|].
      destruct (Ascii.eqb_spec x "-") as [->|Hne].
      * destruct Hc as [<-|Hc]; [reflexivity|].
        apply (proj1 (proj2 (alphabet_classes c))). now apply Hr.
      * apply (proj1 (proj2 (alphabet_classes c))). apply Hr.
        destruct x as [[] [] [] [] [] [] [] []]; try exact Hc;
          exfalso; apply Hne; reflexivity.
Qed.

(** X1. [isValidEquation] accepts a string exactly when it has at least five
    characters and reads [left = right] where: [left] is a non-empty run of
    digits and [+ - * /] that does not start with [*] or [/]; [right] is a
    run of digits with an optional leading minus sign; the engine returns a
    finite Number for [left]; [parseInt(right, 10)] is finite; and the two
    Numbers are equal.  The alphabet test, the count of [=] and the tests on
    the first and last character add nothing to these. *)
Theorem isValidEquation_characterised (evalReturn : str -> Completion)
  (expr : str) :
  isValidEquation evalReturn expr = true <->
  5 <= List.length expr /\
  exists left_ right_ leftValue,
    expr = left_ ++ "=" :: right_ /\
    matchesExpressionChars left_ = true /\
    hd "0" left_ <> "*" /\ hd "0" left_ <> "/" /\
    matchesInteger right_ = true /\
    evalReturn left_ = Returns (JsNum leftValue) /\
    Number_isFinite (JsNum leftValue) = true /\
    Number_isFinite (JsNum (parseInt10 right_)) = true /\
    SFeqb leftValue (parseInt10 right_) = true.
Proof.
  split.
  - intros H. destruct (isValidEquation_shape _ _ H) as [Hlen [_ Hone]].
    split; [assumption|].
    destruct (countChar_one_split _ _ Hone) as [l [r [-> [Hl Hr]]]].
    unfold isValidEquation in H.
    rewrite (@split_at_separator "=" l r Hl), (@split_no_separator "=" r Hr) in H.
    repeat match type of H with
           | (if ?b then false else _) = true =>
               destruct b eqn:?; [discriminate|]
           end.
    destruct (evalReturn l) as [|[x|]] eqn:Hev; try discriminate.
    match type of H with
    | (if ?b then false else _) = true =>
        destruct b eqn:Hfin; [discriminate|]
    end.
    apply orb_false_iff in Hfin. destruct Hfin as [Hf1 Hf2].
    apply negb_false_iff in Hf1, Hf2.
    exists l, r, x. repeat split; try assumption.
    + now apply negb_false_iff.
    + intros E. destruct l as [|c l]; [discriminate|]. simpl in E.
      subst c. discriminate.
    + intros E. destruct l as [|c l]; [discriminate|]. simpl in E.
      subst c. discriminate.
    + now apply negb_false_iff.
  - intros [Hlen [l [r [x [-> [Hl [Hs [Hd [Hr [Hev [Hf1 [Hf2 Heq]]]]]]]]]]]].
    destruct (matchesExpressionChars_no_equal _ Hl) as [Hlne Hlno].
    destruct (matchesInteger_no_equal _ Hr) as [Hrne [Hrno Hrlast]].
    assert (E1 : Nat.eqb (List.length (l ++ "=" :: r)) 0
                 || (List.length (l ++ "=" :: r) <? 5) = false).
    { apply orb_false_iff. split.
      - apply Nat.eqb_neq. lia.
      - apply Nat.ltb_ge. lia. }
    assert (E3 : countChar "=" (l ++ "=" :: r) = 1).
    { rewrite countChar_app. unfold countChar at 2. simpl.
      destruct (ascii_dec "=" "="); [|congruence].
      apply countChar_zero in Hlno, Hrno. unfold countChar in *. lia. }
    assert (E4 : match nth_error (l ++ "=" :: r) 0 with
                 | Some "="%char => true
                 | _ => false
                 end
                 || match nth_error (l ++ "=" :: r)
                            (List.length (l ++ "=" :: r) - 1) with
                    | Some "="%char => true
                    | _ => false
                    end = false).
    { apply orb_false_iff. split.
      - destruct l as [|c l]; [congruence|]. simpl.
        assert (Hc : c <> "=") by (intros ->; apply Hlno; now left).
        destruct c as [[] [] [] [] [] [] [] []]; try reflexivity.
        congruence.
      - replace (nth_error (l ++ "=" :: r) (List.length (l ++ "=" :: r) - 1))
          with (Some (last r "0")).
        + destruct (last r "0") as [[] [] [] [] [] [] [] []];
            try reflexivity. congruence.
        + symmetry. rewrite length_app. simpl List.length.
          destruct r as [|d r]; [congruence|].
          rewrite nth_error_app2 by (simpl; lia).
          replace (List.length l + S (List.length (d :: r)) - 1
                   - List.length l) with (S (List.length r)) by (simpl; lia).
          change (nth_error (d :: r) (List.length r)
                  = Some (last (d :: r) "0")).
          clear. revert d. induction r as [|e r IH]; intros d.
          * reflexivity.
          * change (nth_error (e :: r) (List.length r)
                    = Some (last (e :: r) "0")). apply IH. }
    assert (E6 : Nat.eqb (List.length l) 0 || Nat.eqb (List.length r) 0
                 = false).
    { destruct l; [congruence|]. destruct r; [congruence|]. reflexivity. }
    assert (E7 : match l with
                 | "*"%char :: _ | "/"%char :: _ => true
                 | _ => false
                 end = false).
    { destruct l as [|c l]; [reflexivity|]. simpl in Hs, Hd.
      destruct c as [[] [] [] [] [] [] [] []]; try reflexivity; congruence. }
    unfold isValidEquation.
    rewrite (@split_at_separator "=" l r Hlno), (@split_no_separator "=" r Hrno).
    rewrite E1, (matchesEquationChars_parts _ _ Hl Hr), E3, E4, E6, E7.
    rewrite Hl, Hr, Hev, Hf1, Hf2. exact Heq.
Qed.

(** ** How many results, and in what order *)

Section ResultCap.
Variable evalReturn : str -> Completion.
Variable Date_now : nat -> Z.
Variable constraints : ConstraintSet.
Variable o : Options.


End ResultCap.


Lemma insertByScore_sorted (x : str) (l : list str) :
  StronglySorted scoreOrder l -> StronglySorted scoreOrder (insertByScore x l).
Proof.
  induction l as [|y l IH]; intros Hs; simpl.
  - constructor; constructor.
  - inversion Hs as [|y' l' Hl Hy]; subst.
    destruct (scoreCandidate2 x <? scoreCandidate2 y)%Z eqn:Hlt.
    + apply Z.ltb_lt in Hlt. constructor; [now apply IH|].
      apply Forall_forall. intros z Hz.
      apply (Permutation_in _ (insertByScore_perm x l)) in Hz.
      destruct Hz as [<-|Hz].
      * unfold scoreOrder. lia.
      * rewrite Forall_forall in Hy. now apply Hy.
    + apply Z.ltb_ge in Hlt. constructor; [assumption|].
      constructor; [exact Hlt|].
      apply Forall_forall. intros z Hz. rewrite Forall_forall in Hy.
      specialize (Hy z Hz). unfold scoreOrder in *. lia.
Qed.

Lemma sortByScore_sorted (l : list str) :
  StronglySorted scoreOrder (sortByScore l).
Proof.
  induction l as [|x l IH]; simpl.
  - constructor.
  - now apply insertByScore_sorted.
Qed.

Lemma withScore_insertByScore (k : Z) (x : str) (l : list str) :
  withScore k (insertByScore x l) = withScore k (x :: l).
Proof.
  unfold withScore. induction l as [|y l IH]; simpl.
  - reflexivity.
  - destruct (scoreCandidate2 x <? scoreCandidate2 y)%Z eqn:Hlt.
    + apply Z.ltb_lt in Hlt. simpl. rewrite IH. simpl.
      destruct (scoreCandidate2 x =? k)%Z eqn:Hx;
        destruct (scoreCandidate2 y =? k)%Z eqn:Hy; try reflexivity.
      apply Z.eqb_eq in Hx, Hy. lia.
    + reflexivity.
Qed.

Lemma withScore_sortByScore (k : Z) (l : list str) :
  withScore k (sortByScore l) = withScore k l.
Proof.
  induction l as [|x l IH]; simpl.
  - reflexivity.
  - rewrite withScore_insertByScore. unfold withScore in *. simpl.
    now rewrite IH.
Qed.

(** X3. The list that [generateCandidates] returns (either copy) is in
    order of falling score: no string stands before one with a higher
    [scoreCandidate].  Strings of equal score keep the order in which the
    search found them (the sort is stable). *)
Theorem generateCandidates_by_falling_score
  (evalReturn : str -> Completion) (Date_now : nat -> Z)
  (c : ConstraintSet) (o : Options) :
  StronglySorted scoreOrder (App.generateCandidates evalReturn Date_now c o) /\
  StronglySorted scoreOrder
    (Solver.generateCandidates evalReturn Date_now c o) /\
  (forall k,
      withScore k (App.generateCandidates evalReturn Date_now c o)
      = withScore k
          (results (App.dfs evalReturn Date_now c o (length o) [] Obj.empty
                            false initialState))) /\
  (forall k,
      withScore k (Solver.generateCandidates evalReturn Date_now c o)
      = withScore k
          (results (Solver.dfs evalReturn Date_now c o (length o) []
                               Obj.empty false initialState))).
Proof.
  unfold App.generateCandidates, Solver.generateCandidates.
  split; [apply sortByScore_sorted|].
  split; [apply sortByScore_sorted|].
  split; intros k; apply withScore_sortByScore.
Qed.

(** ** No string is found twice *)

Lemma NoDup_alphabet : NoDup alphabet.
Proof.
  replace alphabet with (nodup ascii_dec alphabet) by (vm_compute; reflexivity).
  apply NoDup_nodup.
Qed.

Lemma NoDup_allowedChars (c : ConstraintSet) : NoDup (allowedChars c).
Proof. unfold allowedChars. apply NoDup_filter, NoDup_alphabet. Qed.

Lemma firstn_snoc_prefix (current s : str) (ch : ascii) :
  firstn (List.length (current ++ [ch])) s = current ++ [ch] ->
  firstn (List.length current) s = current.
Proof.
  intros H.
  assert (E : firstn (List.length current)
                (firstn (List.length (current ++ [ch])) s)
              = firstn (List.length current) s).
  { rewrite firstn_firstn. f_equal. rewrite length_app. simpl. lia. }
  rewrite <- E, H. rewrite firstn_app, firstn_all, Nat.sub_diag. simpl.
  apply app_nil_r.
Qed.

Lemma Adds_nothing (current : str) (before after : list str) :
  after = before -> Adds current before after.
Proof.
  intros H. exists []. rewrite app_nil_r. split; [assumption|].
  split; [constructor | intros s []].
Qed.

Lemma Adds_loop (A : Type) (res : A -> list str) (current : str)
  (step : A -> ascii -> A) :
  (forall st ch, Adds (current ++ [ch]) (res st) (res (step st ch))) ->
  forall chars st,
    NoDup chars -> Adds current (res st) (res (fold_left step chars st)).
Proof.
  intros Hstep chars st Hnodup.
  assert (H : forall chars st0 more0,
             NoDup chars ->
             res st0 = res st ++ more0 ->
             NoDup more0 ->
             (forall s, In s more0 ->
                        exists ch, ~ In ch chars /\
                                   firstn (List.length (current ++ [ch])) s
                                   = current ++ [ch]) ->
             Adds current (res st) (res (fold_left step chars st0))).
  { clear chars Hnodup.
    induction chars as [|ch chars IH]; intros st0 more0 Hnd Hres Hmore Hpre.
    - simpl. exists more0. split; [assumption|]. split; [assumption|].
      intros s Hs. destruct (Hpre s Hs) as [ch [_ Hch]].
      now apply firstn_snoc_prefix with (ch := ch).
    - simpl. inversion Hnd as [|ch' chars' Hnotin Hnd']; subst.
      destruct (Hstep st0 ch) as [more1 [Hres1 [Hnd1 Hpre1]]].
      apply IH with (more0 := more0 ++ more1).
      + assumption.
      + now rewrite Hres1, Hres, app_assoc.
      + apply NoDup_app; [assumption | assumption |].
        intros s Hs0 Hs1. destruct (Hpre s Hs0) as [ch0 [Hch0 Heq0]].
        specialize (Hpre1 s Hs1).
        rewrite !length_app in Heq0. rewrite !length_app in Hpre1.
        simpl in Heq0, Hpre1. rewrite Hpre1 in Heq0.
        apply app_inv_head in Heq0. injection Heq0 as ->.
        apply Hch0. now left.
      + intros s Hs. apply in_app_or in Hs. destruct Hs as [Hs|Hs].
        * destruct (Hpre s Hs) as [ch0 [Hch0 Heq0]]. exists ch0.
          split; [|assumption]. intros Hin. apply Hch0. now right.
        * exists ch. split; [assumption | now apply Hpre1]. }
  apply H with (more0 := []); try assumption.
  - now rewrite app_nil_r.
  - constructor.
  - intros s [].
Qed.

Lemma Adds_deeper (current : str) (ch : ascii) (before after : list str) :
  Adds (current ++ [ch]) before after -> Adds current before after.
Proof.
  intros [more [Hres [Hnd Hpre]]]. exists more. split; [assumption|].
  split; [assumption|]. intros s Hs.
  apply firstn_snoc_prefix with (ch := ch). now apply Hpre.
Qed.

Section Distinct.
Variable evalReturn : str -> Completion.
Variable Date_now : nat -> Z.
Variable constraints : ConstraintSet.
Variable o : Options.

Lemma App_dfs_adds remaining :
  forall current used hasEqual st,
    Adds current (results st)
         (results (App.dfs evalReturn Date_now constraints o
                          remaining current used hasEqual st)).
Proof.
  induction remaining as [|remaining IH]; intros current used hasEqual st.
  - simpl.
    destruct (cancelledRef o _); [now apply Adds_nothing|].
    destruct (_ && _); [now apply Adds_nothing|].
    destruct (_ <=? _); [now apply Adds_nothing|].
    destruct (negb hasEqual); [now apply Adds_nothing|].
    destruct (negb _); [now apply Adds_nothing|].
    destruct (negb _); [now apply Adds_nothing|].
    exists [current]. split; [reflexivity|]. split.
    + constructor; [intros [] | constructor].
    + intros s [<-|[]]. apply firstn_all.
  - cbn [App.dfs].
    destruct (cancelledRef o _); [now apply Adds_nothing|].
    destruct (_ && _); [now apply Adds_nothing|].
    destruct (_ <=? _); [now apply Adds_nothing|].
    destruct (arrayGet (greens constraints) _) as [ch|].
    + destruct (_ && _); [now apply Adds_nothing|].
      destruct (exceedsMax _ _ _); [now apply Adds_nothing|].
      apply Adds_deeper with (ch := ch). apply (IH _ _ _ (countCall st)).
    + refine (@Adds_loop _ results current
               (fun st ch =>
                  if App.skips constraints o
                       (length o - S remaining) current used hasEqual ch
                  then st
                  else App.dfs evalReturn Date_now constraints o remaining
                         (current ++ [ch]) (increment used ch)
                         (hasEqual || Ascii.eqb ch "=") st)
               _ (allowedChars constraints) (countCall st) _).
      * intros st' ch.
        destruct (App.skips _ _ _ _ _ _ _); [now apply Adds_nothing|].
        apply IH.
      * apply NoDup_allowedChars.
Qed.

Lemma Solver_dfs_adds remaining :
  forall current used hasEqual st,
    Adds current (results st)
         (results (Solver.dfs evalReturn Date_now constraints o
                          remaining current used hasEqual st)).
Proof.
  induction remaining as [|remaining IH]; intros current used hasEqual st.
  - simpl.
    destruct (cancelledRef o _ || _); [now apply Adds_nothing|].
    destruct (_ <=? _); [now apply Adds_nothing|].
    destruct (negb hasEqual); [now apply Adds_nothing|].
    destruct (isValidEquation _ _); [|now apply Adds_nothing].
    destruct (meetsRequired _ _); [|now apply Adds_nothing].
    exists [current]. split; [reflexivity|]. split.
    + constructor; [intros [] | constructor].
    + intros s [<-|[]]. apply firstn_all.
  - cbn [Solver.dfs].
    destruct (cancelledRef o _ || _); [now apply Adds_nothing|].
    destruct (_ <=? _); [now apply Adds_nothing|].
    destruct (arrayGet (greens constraints) _) as [ch|].
    + destruct (exceedsMax _ _ _); [now apply Adds_nothing|].
      apply Adds_deeper with (ch := ch). apply (IH _ _ _ (countCall st)).
    + refine (@Adds_loop _ results current
               (fun st ch =>
                  if Solver.skips constraints o
                       (length o - S remaining) used hasEqual ch
                  then st
                  else Solver.dfs evalReturn Date_now constraints o remaining
                         (current ++ [ch]) (increment used ch)
                         (hasEqual || Ascii.eqb ch "=") st)
               _ (allowedChars constraints) (countCall st) _).
      * intros st' ch.
        destruct (Solver.skips _ _ _ _ _ _); [now apply Adds_nothing|].
        apply IH.
      * apply NoDup_allowedChars.
Qed.
End Distinct.

(** X4. The list that [generateCandidates] returns (either copy) holds no
    string twice: every path of the search spells a different string. *)
Theorem generateCandidates_no_duplicates
  (evalReturn : str -> Completion) (Date_now : nat -> Z)
  (c : ConstraintSet) (o : Options) :
  NoDup (App.generateCandidates evalReturn Date_now c o) /\
  NoDup (Solver.generateCandidates evalReturn Date_now c o).
Proof.
  unfold App.generateCandidates, Solver.generateCandidates. split.
  - apply (Permutation_NoDup (Permutation_sym (sortByScore_perm _))).
    destruct (App_dfs_adds evalReturn Date_now c o (length o) [] Obj.empty
                false initialState) as [more [Hres [Hnd _]]].
    rewrite Hres. exact Hnd.
  - apply (Permutation_NoDup (Permutation_sym (sortByScore_perm _))).
    destruct (Solver_dfs_adds evalReturn Date_now c o (length o) [] Obj.empty
                false initialState) as [more [Hres [Hnd _]]].
    rewrite Hres. exact Hnd.
Qed.

(** ** The search misses nothing *)

(** The tests of [dfs] read [used] only through [used[ch] || 0]. *)
Lemma increment_same (u u' : Obj.t nat) (ch : ascii) :
  (forall k, getOr0 u k = getOr0 u' k) ->
  forall k, getOr0 (increment u ch) k = getOr0 (increment u' ch) k.
Proof. intros H k. now rewrite !getOr0_increment, H. Qed.

Lemma exceedsMax_same (c : ConstraintSet) (u u' : Obj.t nat) (ch : ascii) :
  (forall k, getOr0 u k = getOr0 u' k) ->
  exceedsMax c u ch = exceedsMax c u' ch.
Proof. intros H. unfold exceedsMax. now rewrite H. Qed.

Lemma needMore_same (c : ConstraintSet) (u u' : Obj.t nat) :
  (forall k, getOr0 u k = getOr0 u' k) -> needMore c u = needMore c u'.
Proof.
  intros H. unfold needMore. apply fold_left_ext.
  intros acc [reqCh minCount]. now rewrite H.
Qed.

Lemma needOperators_same (c : ConstraintSet) (u u' : Obj.t nat) :
  (forall k, getOr0 u k = getOr0 u' k) ->
  needOperators c u = needOperators c u'.
Proof.
  intros H. unfold needOperators. apply fold_left_ext.
  intros acc [reqCh minCount]. now rewrite H.
Qed.

Lemma meetsRequired_same (c : ConstraintSet) (u u' : Obj.t nat) :
  (forall k, getOr0 u k = getOr0 u' k) ->
  meetsRequired c u = meetsRequired c u'.
Proof.
  intros H. unfold meetsRequired.
  induction (Obj.entries (requiredCounts c)) as [|[ch minCount] l IH]; simpl.
  - reflexivity.
  - now rewrite H, IH.
Qed.

Lemma App_skips_same (c : ConstraintSet) (o : Options) (pos : nat)
  (current : str) (u u' : Obj.t nat) (hasEqual : bool) (ch : ascii) :
  (forall k, getOr0 u k = getOr0 u' k) ->
  App.skips c o pos current u hasEqual ch
  = App.skips c o pos current u' hasEqual ch.
Proof.
  intros H. unfold App.skips.
  rewrite (@needOperators_same c u u' H).
  rewrite (@exceedsMax_same c _ _ ch (@increment_same u u' ch H)).
  rewrite (@needMore_same c _ _ (@increment_same u u' ch H)).
  reflexivity.
Qed.

Lemma Solver_skips_same (c : ConstraintSet) (o : Options) (pos : nat)
  (u u' : Obj.t nat) (hasEqual : bool) (ch : ascii) :
  (forall k, getOr0 u k = getOr0 u' k) ->
  Solver.skips c o pos u hasEqual ch = Solver.skips c o pos u' hasEqual ch.
Proof.
  intros H. unfold Solver.skips.
  rewrite (@exceedsMax_same c _ _ ch (@increment_same u u' ch H)).
  rewrite (@needMore_same c _ _ (@increment_same u u' ch H)).
  reflexivity.
Qed.

Lemma Tally_same (u u' : Obj.t nat) (s : str) :
  Tally u s -> Tally u' s -> forall k, getOr0 u k = getOr0 u' k.
Proof. intros H H' k. now rewrite H, H'. Qed.

Lemma meetsRequired_complete (c : ConstraintSet) (used : Obj.t nat) (s : str) :
  Tally used s -> MeetsRequired c s -> meetsRequired c used = true.
Proof.
  intros Ht Hm. unfold meetsRequired. apply forallb_forall.
  intros [ch n] Hin. apply negb_true_iff, Nat.ltb_ge. rewrite Ht.
  now apply Hm.
Qed.

Lemma firstn_next (s : str) (n : nat) (ch : ascii) :
  nth_error s n = Some ch -> firstn (S n) s = firstn n s ++ [ch].
Proof.
  revert n. induction s as [|x s IH]; intros n H.
  - destruct n; discriminate.
  - destruct n as [|n]; simpl in *.
    + now injection H as ->.
    + f_equal. now apply IH.
Qed.

(** A loop whose rounds only add results: what the round for [c] has when it
    ends is still there when the loop ends. *)
Lemma fold_left_reaches (A : Type) (res : A -> list str)
  (f : A -> ascii -> A) (chars : str) (c : ascii) :
  (forall st ch, exists more, res (f st ch) = res st ++ more) ->
  In c chars ->
  forall st, exists st' more,
    res (fold_left f chars st) = res (f st' c) ++ more.
Proof.
  intros Hgrow. induction chars as [|a chars IH]; intros Hin st.
  - contradiction.
  - simpl. destruct (ascii_dec a c) as [->|Hne].
    + exists st.
      apply (fold_left_invariant
               (fun x => exists more, res x = res (f st c) ++ more)).
      * exists []. now rewrite app_nil_r.
      * intros x b _ [more Hmore]. destruct (Hgrow x b) as [more' Hmore'].
        exists (more ++ more'). now rewrite Hmore', Hmore, app_assoc.
    + destruct Hin as [Heq|Hin]; [contradiction|]. now apply IH.
Qed.

Lemma Accepted_has_equal (evalReturn : str -> Completion) (s : str) :
  isValidEquation evalReturn s = true -> includes s "=" = true.
Proof.
  intros H. apply isValidEquation_shape in H. destruct H as [_ [_ H]].
  apply includes_In, countChar_pos_In. lia.
Qed.

Section AppComplete.
Variable evalReturn : str -> Completion.
Variable Date_now : nat -> Z.
Variable constraints : ConstraintSet.
Variable o : Options.
Hypothesis never_cancelled : forall n, cancelledRef o n = false.
Hypothesis in_time :
  forall n, (0 <? timeoutMs o)%Z
            && (timeoutMs o <? Date_now n - App.startTime Date_now)%Z = false.

Lemma App_dfs_complete remaining :
  forall current used hasEqual st s,
    List.length current + remaining = length o ->
    Tally used current ->
    hasEqual = includes current "=" ->
    List.length (results (App.dfs evalReturn Date_now constraints o
                                  remaining current used hasEqual st))
    < maxResults o ->
    AcceptedApp evalReturn constraints o s ->
    firstn (List.length current) s = current ->
    In s (results (App.dfs evalReturn Date_now constraints o
                           remaining current used hasEqual st)).
Proof.
  induction remaining as [|remaining IH];
    intros current used hasEqual st s Hlen Htally Heq Hroom Hacc Hpre.
  - destruct Hacc as [Hslen Hvalid Hreq Hpath].
    assert (s = current) as ->.
    { rewrite <- Hpre. symmetry. apply firstn_all2. lia. }
    cbn [App.dfs] in Hroom |- *.
    rewrite never_cancelled, in_time in Hroom |- *.
    destruct (maxResults o <=? _) eqn:Hcap.
    { apply Nat.leb_le in Hcap. lia. }
    rewrite Heq, (Accepted_has_equal _ _ Hvalid), Hvalid.
    rewrite (@meetsRequired_complete constraints used current Htally Hreq).
    simpl. apply in_or_app. right. now left.
  - cbn [App.dfs] in Hroom |- *.
    rewrite never_cancelled, in_time in Hroom |- *.
    destruct (maxResults o <=? _) eqn:Hcap.
    { apply Nat.leb_le in Hcap. lia. }
    replace (length o - S remaining) with (List.length current) in * by lia.
    assert (Hslen : List.length s = length o) by apply Hacc.
    destruct (nth_error s (List.length current)) as [c|] eqn:Hc.
    2:{ apply nth_error_None in Hc. lia. }
    assert (Hstep := accepted_path Hacc _ Hc).
    rewrite Hpre in Hstep. destruct Hstep as [used' [Htally' Hstep]].
    assert (Hsame := @Tally_same used' used current Htally' Htally).
    assert (Hnext : firstn (List.length (current ++ [c])) s = current ++ [c]).
    { rewrite length_app. simpl. rewrite Nat.add_1_r.
      rewrite (firstn_next _ _ Hc). now rewrite Hpre. }
    destruct (arrayGet (greens constraints) (List.length current)) as [ch|].
    + destruct Hstep as [-> Hok]. unfold fixedOkApp in Hok.
      apply andb_true_iff in Hok. destruct Hok as [Hok1 Hok2].
      apply negb_true_iff in Hok1, Hok2.
      rewrite (@exceedsMax_same constraints _ _ ch
                 (@increment_same used' used ch Hsame)) in Hok2.
      rewrite Hok1, Hok2 in Hroom |- *.
      apply IH; try assumption.
      * rewrite length_app. simpl. lia.
      * now apply Tally_step.
      * now rewrite includes_snoc_equal, Heq.
    + destruct Hstep as [Hin Hok]. unfold freeOkApp in Hok.
      apply negb_true_iff in Hok.
      rewrite (@App_skips_same constraints o _ _ used' used _ _ Hsame), <- Heq
        in Hok.
      match type of Hroom with
      | List.length (results (fold_left ?f ?l ?a)) < _ =>
          destruct (@fold_left_reaches _ results f l c) with (st := a)
            as [st' [more Hmore]]
      end.
      * intros x b. cbv beta. destruct (App.skips _ _ _ _ _ _ b).
        -- exists []. now rewrite app_nil_r.
        -- apply App_dfs_grows.
      * exact Hin.
      * rewrite Hmore in Hroom |- *. rewrite Hok in Hroom |- *.
        apply in_or_app. left.
        apply IH; try assumption.
        -- rewrite length_app. simpl. lia.
        -- now apply Tally_step.
        -- now rewrite includes_snoc_equal, Heq.
        -- rewrite length_app in Hroom. lia.
Qed.
End AppComplete.

Section SolverComplete.
Variable evalReturn : str -> Completion.
Variable Date_now : nat -> Z.
Variable constraints : ConstraintSet.
Variable o : Options.
Hypothesis never_cancelled : forall n, cancelledRef o n = false.
Hypothesis in_time :
  forall n, (timeoutMs o <? Date_now n - Solver.startTime Date_now)%Z = false.

Lemma Solver_dfs_complete remaining :
  forall current used hasEqual st s,
    List.length current + remaining = length o ->
    Tally used current ->
    hasEqual = includes current "=" ->
    List.length (results (Solver.dfs evalReturn Date_now constraints o
                                     remaining current used hasEqual st))
    < maxResults o ->
    AcceptedSolver evalReturn constraints o s ->
    firstn (List.length current) s = current ->
    In s (results (Solver.dfs evalReturn Date_now constraints o
                              remaining current used hasEqual st)).
Proof.
  induction remaining as [|remaining IH];
    intros current used hasEqual st s Hlen Htally Heq Hroom Hacc Hpre.
  - destruct Hacc as [Hslen Hvalid Hreq Hpath].
    assert (s = current) as ->.
    { rewrite <- Hpre. symmetry. apply firstn_all2. lia. }
    cbn [Solver.dfs] in Hroom |- *.
    rewrite never_cancelled, in_time in Hroom |- *. cbn [orb] in Hroom |- *.
    destruct (maxResults o <=? _) eqn:Hcap.
    { apply Nat.leb_le in Hcap. lia. }
    rewrite Heq, (Accepted_has_equal _ _ Hvalid), Hvalid.
    rewrite (@meetsRequired_complete constraints used current Htally Hreq).
    simpl. apply in_or_app. right. now left.
  - cbn [Solver.dfs] in Hroom |- *.
    rewrite never_cancelled, in_time in Hroom |- *. cbn [orb] in Hroom |- *.
    destruct (maxResults o <=? _) eqn:Hcap.
    { apply Nat.leb_le in Hcap. lia. }
    replace (length o - S remaining) with (List.length current) in * by lia.
    assert (Hslen : List.length s = length o) by apply Hacc.
    destruct (nth_error s (List.length current)) as [c|] eqn:Hc.
    2:{ apply nth_error_None in Hc. lia. }
    assert (Hstep := accepted_path Hacc _ Hc).
    rewrite Hpre in Hstep. destruct Hstep as [used' [Htally' Hstep]].
    assert (Hsame := @Tally_same used' used current Htally' Htally).
    assert (Hnext : firstn (List.length (current ++ [c])) s = current ++ [c]).
    { rewrite length_app. simpl. rewrite Nat.add_1_r.
      rewrite (firstn_next _ _ Hc). now rewrite Hpre. }
    destruct (arrayGet (greens constraints) (List.length current)) as [ch|].
    + destruct Hstep as [-> Hok]. unfold fixedOkSolver in Hok.
      apply negb_true_iff in Hok.
      rewrite (@exceedsMax_same constraints _ _ ch
                 (@increment_same used' used ch Hsame)) in Hok.
      rewrite Hok in Hroom |- *.
      apply IH; try assumption.
      * rewrite length_app. simpl. lia.
      * now apply Tally_step.
      * now rewrite includes_snoc_equal, Heq.
    + destruct Hstep as [Hin Hok]. unfold freeOkSolver in Hok.
      apply negb_true_iff in Hok.
      rewrite (@Solver_skips_same constraints o _ used' used _ _ Hsame), <- Heq
        in Hok.
      match type of Hroom with
      | List.length (results (fold_left ?f ?l ?a)) < _ =>
          destruct (@fold_left_reaches _ results f l c) with (st := a)
            as [st' [more Hmore]]
      end.
      * intros x b. cbv beta. destruct (Solver.skips _ _ _ _ _ b).
        -- exists []. now rewrite app_nil_r.
        -- apply Solver_dfs_grows.
      * exact Hin.
      * rewrite Hmore in Hroom |- *. rewrite Hok in Hroom |- *.
        apply in_or_app. left.
        apply IH; try assumption.
        -- rewrite length_app. simpl. lia.
        -- now apply Tally_step.
        -- now rewrite includes_snoc_equal, Heq.
        -- rewrite length_app in Hroom. lia.
Qed.
End SolverComplete.

(** X5. If the search of [src/app.js] is never cancelled, never runs past
    its time limit (none is set, or the clock stays within it) and returns
    fewer than [maxResults] strings, then it returns exactly the strings that
    pass its tests: a string is in the list if and only if it has the length
    asked for, is a valid equation, has every required count, and at every
    position holds the fixed character (which passed the tests of the fixed
    branch) or a character that is not excluded and that the loop does not
    skip.  So with room to spare nothing is missed. *)
Theorem App_search_is_exhaustive
  (evalReturn : str -> Completion) (Date_now : nat -> Z)
  (c : ConstraintSet) (o : Options) (s : str) :
  (forall n, cancelledRef o n = false) ->
  ((0 < timeoutMs o)%Z ->
   forall n, (Date_now n - Date_now O <= timeoutMs o)%Z) ->
  List.length (App.generateCandidates evalReturn Date_now c o) < maxResults o ->
  (In s (App.generateCandidates evalReturn Date_now c o)
   <-> AcceptedApp evalReturn c o s).
Proof.
  intros Hcancel Htime Hroom. split; [apply App_results_accepted|].
  intros Hacc. unfold App.generateCandidates in *.
  rewrite (Permutation_length (sortByScore_perm _)) in Hroom.
  apply In_sortByScore.
  apply App_dfs_complete with (s := s); try assumption.
  - intros n. unfold App.startTime.
    destruct (0 <? timeoutMs o)%Z eqn:Hpos; [|reflexivity].
    apply Z.ltb_lt in Hpos. simpl. apply Z.ltb_ge. now apply Htime.
  - reflexivity.
  - apply Tally_empty.
  - reflexivity.
  - reflexivity.
Qed.

Lemma App_search_is_exhaustive_witness :
  In (lit "3+3=6")
     (App.generateCandidates Engine.run frozenClock
        (App.buildConstraintsFromGuesses scenarioB 5) (App.defaultOptions 5))
  <-> AcceptedApp Engine.run (App.buildConstraintsFromGuesses scenarioB 5)
                  (App.defaultOptions 5) (lit "3+3=6").
Proof.
  apply (App_search_is_exhaustive Engine.run frozenClock
           (App.buildConstraintsFromGuesses scenarioB 5) (App.defaultOptions 5)
           (lit "3+3=6")).
  - intros n. reflexivity.
  - intros H. simpl in H. lia.
  - apply Nat.ltb_lt. vm_compute. reflexivity.
Defined.

(** X6. The same for the search of [src/solver.js], whose time limit always
    applies: if it is never cancelled, the clock never passes [timeoutMs]
    after the start, and fewer than [maxResults] strings are returned, then a
    string is returned if and only if it passes the tests of that copy. *)
Theorem Solver_search_is_exhaustive
  (evalReturn : str -> Completion) (Date_now : nat -> Z)
  (c : ConstraintSet) (o : Options) (s : str) :
  (forall n, cancelledRef o n = false) ->
  (forall n, (Date_now n - Date_now O <= timeoutMs o)%Z) ->
  List.length (Solver.generateCandidates evalReturn Date_now c o)
  < maxResults o ->
  (In s (Solver.generateCandidates evalReturn Date_now c o)
   <-> AcceptedSolver evalReturn c o s).
Proof.
  intros Hcancel Htime Hroom. split; [apply Solver_results_accepted|].
  intros Hacc. unfold Solver.generateCandidates in *.
  rewrite (Permutation_length (sortByScore_perm _)) in Hroom.
  apply In_sortByScore.
  apply Solver_dfs_complete with (s := s); try assumption.
  - intros n. unfold Solver.startTime. apply Z.ltb_ge. apply Htime.
  - reflexivity.
  - apply Tally_empty.
  - reflexivity.
  - reflexivity.
Qed.

Lemma Solver_search_is_exhaustive_witness :
  In (lit "3+3=6")
     (Solver.generateCandidates Engine.run frozenClock
        (Solver.buildConstraintsFromGuesses scenarioB 5)
        (Solver.defaultOptions 5))
  <-> AcceptedSolver Engine.run (Solver.buildConstraintsFromGuesses scenarioB 5)
                     (Solver.defaultOptions 5) (lit "3+3=6").
Proof.
  apply (Solver_search_is_exhaustive Engine.run frozenClock
           (Solver.buildConstraintsFromGuesses scenarioB 5)
           (Solver.defaultOptions 5) (lit "3+3=6")).
  - intros n. reflexivity.
  - intros n. vm_compute. discriminate.
  - apply Nat.ltb_lt. vm_compute. reflexivity.
Defined.

(** ** Fixed positions and excluded characters *)

Lemma Accepted_position (evalReturn : str -> Completion) (c : ConstraintSet)
  (len : nat) (fixedOk : nat -> str -> Obj.t nat -> ascii -> bool)
  (freeOk : nat -> str -> Obj.t nat -> bool -> ascii -> bool)
  (s : str) (i : nat) (ch : ascii) :
  Accepted evalReturn c len fixedOk freeOk s ->
  nth_error s i = Some ch ->
  match arrayGet (greens c) i with
  | Some fixed => ch = fixed
  | None => hasChar (excluded c) ch = false
  end.
Proof.
  intros [_ _ _ Hpath] Hi.
  destruct (Hpath i ch Hi) as [used [_ Hstep]].
  assert (Hlen : List.length (firstn i s) = i).
  { apply firstn_length_le. apply Nat.lt_le_incl.
    apply nth_error_Some. congruence. }
  rewrite Hlen in Hstep.
  destruct (arrayGet (greens c) i) as [fixed|].
  - apply Hstep.
  - destruct Hstep as [Hin _]. now apply allowedChars_In in Hin.
Qed.

(** X7. In every string that [generateCandidates] returns (either copy), a
    position that the constraint set fixes holds the fixed character, and
    every other position holds a character that is not in [excluded].  (The
    fixed character itself is not tested against [excluded].) *)
Theorem results_keep_fixed_and_avoid_excluded
  (evalReturn : str -> Completion) (Date_now : nat -> Z)
  (c : ConstraintSet) (o : Options) (s : str) (i : nat) (ch : ascii) :
  In s (App.generateCandidates evalReturn Date_now c o) \/
  In s (Solver.generateCandidates evalReturn Date_now c o) ->
  nth_error s i = Some ch ->
  match arrayGet (greens c) i with
  | Some fixed => ch = fixed
  | None => hasChar (excluded c) ch = false
  end.
Proof.
  intros [H|H] Hi.
  - apply App_results_accepted in H.
    eapply Accepted_position; eauto.
  - apply Solver_results_accepted in H.
    eapply Accepted_position; eauto.
Qed.

Lemma results_keep_fixed_and_avoid_excluded_witness :
  match arrayGet (greens (App.buildConstraintsFromGuesses scenarioB 5)) 0 with
  | Some fixed => "3"%char = fixed
  | None =>
      hasChar (excluded (App.buildConstraintsFromGuesses scenarioB 5)) "3"
      = false
  end.
Proof.
  apply (@results_keep_fixed_and_avoid_excluded Engine.run frozenClock
           (App.buildConstraintsFromGuesses scenarioB 5) (App.defaultOptions 5)
           (lit "3+3=6") 0 "3").
  - left. apply memStr_In. vm_compute. reflexivity.
  - reflexivity.
Defined.

(** ** The estimate of the search space *)

Lemma waysFrom_pos (c : ConstraintSet) (n : nat) :
  forall i, (1 <= waysFrom c i n)%Z.
Proof.
  induction n as [|n IH]; intros i; simpl.
  - lia.
  - specialize (IH (S i)).
    destruct (arrayGet (greens c) i); [lia|]. nia.
Qed.

Lemma estimateLoop_bounds (c : ConstraintSet) (remaining : nat) :
  forall i space,
    (1 <= space <= 1000000)%Z ->
    (1 <= estimateLoop c remaining i space <= 1000000)%Z.
Proof.
  induction remaining as [|remaining IH]; intros i space Hs; simpl.
  - exact Hs.
  - destruct (arrayGet (greens c) i).
    + destruct (1000000 <? space * 1)%Z eqn:Hcap; [lia|].
      apply Z.ltb_ge in Hcap. apply IH. lia.
    + destruct (1000000 <? space * Z.max (choicesAt c i) 1)%Z eqn:Hcap; [lia|].
      apply Z.ltb_ge in Hcap. apply IH. nia.
Qed.

Lemma estimateLoop_exact (c : ConstraintSet) (remaining : nat) :
  forall i space,
    (1 <= space)%Z ->
    (estimateLoop c remaining i space < 1000000)%Z ->
    estimateLoop c remaining i space = (space * waysFrom c i remaining)%Z.
Proof.
  induction remaining as [|remaining IH]; intros i space Hs Hlt; simpl in *.
  - lia.
  - destruct (arrayGet (greens c) i).
    + destruct (1000000 <? space * 1)%Z eqn:Hcap; [lia|].
      rewrite IH by (assumption || lia). lia.
    + destruct (1000000 <? space * Z.max (choicesAt c i) 1)%Z eqn:Hcap; [lia|].
      rewrite IH by (assumption || nia). lia.
Qed.

(** X8. [estimateSearchSpace] always returns a whole number from 1 to
    1000000, whatever the constraints and the length (for length 0 it
    returns 1). *)
Theorem estimateSearchSpace_range (c : ConstraintSet) (len : nat) :
  (1 <= estimateSearchSpace c len <= 1000000)%Z.
Proof. apply estimateLoop_bounds. lia. Qed.

Lemma choicesAt_count (c : ConstraintSet) (i : nat) :
  choicesAt c i
  = Z.of_nat (List.length (filter (fun ch => negb (forbiddenAt c ch i))
                                  (allowedChars c))).
Proof.
  unfold choicesAt.
  assert (H : forall l z,
             fold_left
               (fun choices ch =>
                  if forbiddenAt c ch i then choices - 1 else choices)%Z l z
             = (z - Z.of_nat (List.length l)
                + Z.of_nat (List.length
                              (filter (fun ch => negb (forbiddenAt c ch i)) l)))%Z).
  { induction l as [|ch l IH]; intros z; simpl fold_left; simpl filter.
    - simpl. lia.
    - rewrite IH. destruct (forbiddenAt c ch i); simpl negb; cbv iota;
        simpl List.length; lia. }
  rewrite H. lia.
Qed.

(** A loop in which a round adds at most [K] results, and none for a
    character that is skipped, adds at most [K] for each character that is
    not skipped. *)
Lemma fold_left_adds_at_most (f : SearchState -> ascii -> SearchState)
  (bad : ascii -> bool) (K : Z) :
  (0 <= K)%Z ->
  (forall st ch, bad ch = true -> f st ch = st) ->
  (forall st ch,
      (Z.of_nat (List.length (results (f st ch)))
       <= Z.of_nat (List.length (results st)) + K)%Z) ->
  forall chars st,
    (Z.of_nat (List.length (results (fold_left f chars st)))
     <= Z.of_nat (List.length (results st))
        + K * Z.of_nat (List.length (filter (fun ch => negb (bad ch)) chars)))%Z.
Proof.
  intros HK Hbad Hstep. induction chars as [|ch chars IH]; intros st.
  - simpl. lia.
  - simpl fold_left. simpl filter.
    destruct (bad ch) eqn:Hb; simpl negb; cbv iota.
    + rewrite (Hbad _ _ Hb). apply (IH st).
    + specialize (IH (f st ch)). specialize (Hstep st ch).
      simpl List.length. lia.
Qed.

Section SpaceBound.
Variable evalReturn : str -> Completion.
Variable Date_now : nat -> Z.
Variable constraints : ConstraintSet.
Variable o : Options.

Lemma App_dfs_adds_at_most remaining :
  forall current used hasEqual st,
    remaining <= length o ->
    (Z.of_nat (List.length
                 (results (App.dfs evalReturn Date_now constraints o
                                   remaining current used hasEqual st)))
     <= Z.of_nat (List.length (results st))
        + waysFrom constraints (length o - remaining) remaining)%Z.
Proof.
  induction remaining as [|remaining IH];
    intros current used hasEqual st Hle.
  - simpl.
    destruct (cancelledRef o _); [simpl; lia|].
    destruct (_ && _); [simpl; lia|].
    destruct (_ <=? _); [simpl; lia|].
    destruct (negb hasEqual); [simpl; lia|].
    destruct (negb _); [simpl; lia|].
    destruct (negb _); [simpl; lia|].
    simpl. rewrite length_app. simpl. lia.
  - cbn [App.dfs waysFrom].
    replace (S (length o - S remaining)) with (length o - remaining) by lia.
    assert (Hways := waysFrom_pos constraints remaining (length o - remaining)).
    assert (Hstay :
              (Z.of_nat (List.length (results (countCall st)))
               <= Z.of_nat (List.length (results st))
                  + match arrayGet (greens constraints)
                            (length o - S remaining) with
                    | Some _ => 1
                    | None =>
                        Z.max (choicesAt constraints (length o - S remaining)) 1
                    end * waysFrom constraints (length o - remaining) remaining)%Z).
    { simpl results. destruct (arrayGet _ _); nia. }
    destruct (cancelledRef o _); [exact Hstay|].
    destruct (_ && _); [exact Hstay|].
    destruct (_ <=? _); [exact Hstay|].
    clear Hstay.
    destruct (arrayGet (greens constraints) _) as [ch|].
    + destruct (_ && _); [simpl results; lia|].
      destruct (exceedsMax _ _ _); [simpl results; lia|].
      specialize (IH (current ++ [ch]) (increment used ch)
                     (hasEqual || Ascii.eqb ch "=") (countCall st)).
      simpl results in IH. lia.
    + match goal with
      | |- (Z.of_nat (List.length (results (fold_left ?f ?l ?a))) <= _)%Z =>
          assert (H := @fold_left_adds_at_most f
                         (fun ch => forbiddenAt constraints ch
                                      (length o - S remaining))
                         (waysFrom constraints (length o - remaining) remaining))
      end.
      rewrite choicesAt_count.
      assert (Hfold := fun H1 H2 H3 => H H1 H2 H3 (allowedChars constraints)
                                         (countCall st)).
      clear H. simpl results in Hfold.
      etransitivity; [apply Hfold|].
      * lia.
      * intros st' ch Hbad. unfold App.skips. rewrite Hbad.
        now rewrite !orb_true_r.
      * intros st' ch. destruct (App.skips _ _ _ _ _ _ _); [lia|].
        apply IH. lia.
      * nia.
Qed.

Lemma Solver_dfs_adds_at_most remaining :
  forall current used hasEqual st,
    remaining <= length o ->
    (Z.of_nat (List.length
                 (results (Solver.dfs evalReturn Date_now constraints o
                                      remaining current used hasEqual st)))
     <= Z.of_nat (List.length (results st))
        + waysFrom constraints (length o - remaining) remaining)%Z.
Proof.
  induction remaining as [|remaining IH];
    intros current used hasEqual st Hle.
  - simpl.
    destruct (cancelledRef o _ || _); [simpl; lia|].
    destruct (_ <=? _); [simpl; lia|].
    destruct (negb hasEqual); [simpl; lia|].
    destruct (isValidEquation _ _); [|simpl; lia].
    destruct (meetsRequired _ _); [|simpl; lia].
    simpl. rewrite length_app. simpl. lia.
  - cbn [Solver.dfs waysFrom].
    replace (S (length o - S remaining)) with (length o - remaining) by lia.
    assert (Hways := waysFrom_pos constraints remaining (length o - remaining)).
    assert (Hstay :
              (Z.of_nat (List.length (results (countCall st)))
               <= Z.of_nat (List.length (results st))
                  + match arrayGet (greens constraints)
                            (length o - S remaining) with
                    | Some _ => 1
                    | None =>
                        Z.max (choicesAt constraints (length o - S remaining)) 1
                    end * waysFrom constraints (length o - remaining) remaining)%Z).
    { simpl results. destruct (arrayGet _ _); nia. }
    destruct (cancelledRef o _ || _); [exact Hstay|].
    destruct (_ <=? _); [exact Hstay|].
    clear Hstay.
    destruct (arrayGet (greens constraints) _) as [ch|].
    + destruct (exceedsMax _ _ _); [simpl results; lia|].
      specialize (IH (current ++ [ch]) (increment used ch)
                     (hasEqual || Ascii.eqb ch "=") (countCall st)).
      simpl results in IH. lia.
    + match goal with
      | |- (Z.of_nat (List.length (results (fold_left ?f ?l ?a))) <= _)%Z =>
          assert (H := @fold_left_adds_at_most f
                         (fun ch => forbiddenAt constraints ch
                                      (length o - S remaining))
                         (waysFrom constraints (length o - remaining) remaining))
      end.
      rewrite choicesAt_count.
      assert (Hfold := fun H1 H2 H3 => H H1 H2 H3 (allowedChars constraints)
                                         (countCall st)).
      clear H. simpl results in Hfold.
      etransitivity; [apply Hfold|].
      * lia.
      * intros st' ch Hbad. unfold Solver.skips. rewrite Hbad.
        now rewrite !orb_true_r.
      * intros st' ch. destruct (Solver.skips _ _ _ _ _ _); [lia|].
        apply IH. lia.
      * nia.
Qed.
End SpaceBound.

(** X9. When [estimateSearchSpace(constraints, length)] is below its
    ceiling of 1000000, it bounds what the search can return: neither copy
    of [generateCandidates] returns more strings than the estimate. *)
Theorem estimateSearchSpace_bounds_results
  (evalReturn : str -> Completion) (Date_now : nat -> Z)
  (c : ConstraintSet) (o : Options) :
  (estimateSearchSpace c (length o) < 1000000)%Z ->
  (Z.of_nat (List.length (App.generateCandidates evalReturn Date_now c o))
   <= estimateSearchSpace c (length o))%Z /\
  (Z.of_nat (List.length (Solver.generateCandidates evalReturn Date_now c o))
   <= estimateSearchSpace c (length o))%Z.
Proof.
  intros Hlt. unfold estimateSearchSpace in *.
  rewrite estimateLoop_exact by (assumption || lia).
  unfold App.generateCandidates, Solver.generateCandidates.
  rewrite !(Permutation_length (sortByScore_perm _)). split.
  - assert (H := @App_dfs_adds_at_most evalReturn Date_now c o (length o) []
                   Obj.empty false initialState (le_n _)).
    rewrite Nat.sub_diag in H. simpl results in H. simpl List.length in H.
    lia.
  - assert (H := @Solver_dfs_adds_at_most evalReturn Date_now c o (length o) []
                   Obj.empty false initialState (le_n _)).
    rewrite Nat.sub_diag in H. simpl results in H. simpl List.length in H.
    lia.
Qed.

Lemma estimateSearchSpace_bounds_results_witness :
  (Z.of_nat (List.length
               (App.generateCandidates Engine.run frozenClock
                  (App.buildConstraintsFromGuesses scenarioB 5)
                  (App.defaultOptions 5)))
   <= estimateSearchSpace (App.buildConstraintsFromGuesses scenarioB 5) 5)%Z /\
  (Z.of_nat (List.length
               (Solver.generateCandidates Engine.run frozenClock
                  (App.buildConstraintsFromGuesses scenarioB 5)
                  (App.defaultOptions 5)))
   <= estimateSearchSpace (App.buildConstraintsFromGuesses scenarioB 5) 5)%Z.
Proof.
  apply (estimateSearchSpace_bounds_results Engine.run frozenClock
           (App.buildConstraintsFromGuesses scenarioB 5)
           (App.defaultOptions 5)).
  vm_compute. reflexivity.
Defined.

(** ** The forbidden positions that the builder records *)

Lemma hasPos_addPos (s : list nat) (i j : nat) :
  hasPos (addPos s i) j = Nat.eqb j i || hasPos s j.
Proof.
  unfold hasPos, addPos, JsSet.add.
  destruct (JsSet.has Nat.eqb s i) eqn:Hhas.
  - destruct (Nat.eqb_spec j i) as [->|Hne]; [now rewrite Hhas | reflexivity].
  - unfold JsSet.has. rewrite existsb_app. simpl.
    rewrite orb_false_r. apply orb_comm.
Qed.

Lemma forbiddenIn_forbid (f : Obj.t (list nat)) (ch' ch : ascii) (i' i : nat) :
  forbiddenIn (forbid f ch' i') ch i
  = (Ascii.eqb ch ch' && Nat.eqb i i') || forbiddenIn f ch i.
Proof.
  unfold forbiddenIn, forbid.
  destruct (Obj.get f ch') as [s|] eqn:Hget; rewrite get_set;
    destruct (Ascii.eqb_spec ch ch') as [->|Hne]; cbn [andb orb];
    try reflexivity.
  - rewrite Hget. apply hasPos_addPos.
  - rewrite Hget, hasPos_addPos. reflexivity.
Qed.

Lemma forbidStep_fold (cc : Obj.t Colors) (ps : list (nat * (ascii * ascii)))
  (ch : ascii) (i : nat) :
  forall f,
    forbiddenIn (fold_left (forbidStep cc) ps f) ch i = true <->
    forbiddenIn f ch i = true \/
    (In (i, (ch, "y"%char)) ps \/
     (In (i, (ch, "x"%char)) ps /\ hasGreenOrYellow cc ch = true)).
Proof.
  induction ps as [|[j [k color]] ps IH]; intros f.
  - simpl. tauto.
  - simpl fold_left. rewrite IH. clear IH. unfold forbidStep.
    destruct (Ascii.eqb color "g") eqn:Hg;
      [|destruct (Ascii.eqb color "y") eqn:Hy;
        [|destruct (Ascii.eqb color "x") eqn:Hx;
          [destruct (hasGreenOrYellow cc k) eqn:Hgy|]]];
      color_facts; subst; simpl In;
      try rewrite forbiddenIn_forbid;
      try rewrite orb_true_iff, andb_true_iff, Ascii.eqb_eq, Nat.eqb_eq.
    all: split; intros H;
      repeat match goal with
             | H : _ \/ _ |- _ => destruct H as [H|H]
             | H : _ /\ _ |- _ => destruct H
             | H : (_, (_, _)) = (_, (_, _)) |- _ => inversion H; clear H; subst
             end;
      subst; try congruence; try tauto.
Qed.

Lemma fold_left_projected (A B C : Type) (proj : A -> C) (F : A -> B -> A)
  (G : C -> B -> C) (l : list B) :
  (forall a b, proj (F a b) = G (proj a) b) ->
  forall a, proj (fold_left F l a) = fold_left G l (proj a).
Proof.
  intros H. induction l as [|b l IH]; intros a; simpl.
  - reflexivity.
  - now rewrite IH, H.
Qed.

Lemma App_applyPosition_forbidStep cc c p :
  yellowForbiddenPositions (App.applyPosition cc c p)
  = forbidStep cc (yellowForbiddenPositions c) p.
Proof.
  destruct p as [i [ch color]]. unfold App.applyPosition, forbidStep.
  destruct (Ascii.eqb color "g"); [reflexivity|].
  destruct (Ascii.eqb color "y"); [reflexivity|].
  destruct (Ascii.eqb color "x"); reflexivity.
Qed.

Lemma Solver_applyPosition_forbidStep cc c p :
  yellowForbiddenPositions (Solver.applyPosition cc c p)
  = forbidStep cc (yellowForbiddenPositions c) p.
Proof.
  destruct p as [i [ch color]].
  unfold Solver.applyPosition, forbidStep, hasGreenOrYellow.
  destruct (Ascii.eqb color "g"); [reflexivity|].
  destruct (Ascii.eqb color "y"); [reflexivity|].
  destruct (Ascii.eqb color "x"); [|reflexivity].
  destruct (Obj.get cc ch); reflexivity.
Qed.

Lemma hasGreenOrYellow_marked (g p : str) (ch : ascii) :
  hasGreenOrYellow (charColorsOf g p) ch = true <-> 0 < marked ch g p.
Proof.
  destruct (charColorsOf_counts g p ch) as [H _].
  unfold hasGreenOrYellow, greenOf, yellowOf in *.
  destruct (Obj.get (charColorsOf g p) ch) as [colors|].
  - rewrite orb_true_iff, !Nat.ltb_lt. lia.
  - split; [discriminate | lia].
Qed.

Lemma guess_forbids (g p : str) (f : Obj.t (list nat)) (ch : ascii) (i : nat) :
  forbiddenIn (fold_left (forbidStep (charColorsOf g p)) (positions g p) f)
              ch i = true <->
  forbiddenIn f ch i = true \/ ForbidsAt ch i g p.
Proof.
  rewrite forbidStep_fold, !In_positions, hasGreenOrYellow_marked.
  unfold ForbidsAt. tauto.
Qed.

Lemma App_addGuess_forbids b r ch i :
  forbiddenIn (yellowForbiddenPositions (App.constraints (App.addGuess b r)))
              ch i = true <->
  forbiddenIn (yellowForbiddenPositions (App.constraints b)) ch i = true \/
  exists g p, counted r = Some (g, p) /\ ForbidsAt ch i g p.
Proof.
  destruct (counted r) as [[g p]|] eqn:Hc.
  - rewrite (App_addGuess_counted b _ Hc). cbn [App.constraints].
    rewrite (fold_left_projected yellowForbiddenPositions _ _ _
               (App_applyPosition_forbidStep (charColorsOf g p))).
    rewrite recordRequirement_constraints, guess_forbids.
    split; intros [H|H]; auto.
    + right. now exists g, p.
    + destruct H as [g' [p' [Heq H]]]. injection Heq as <- <-. now right.
  - rewrite (App_addGuess_skipped b _ Hc).
    split; [auto|]. intros [H|[g [p [Heq _]]]]; [assumption | discriminate].
Qed.

Lemma Solver_addGuess_forbids c r ch i :
  forbiddenIn (yellowForbiddenPositions (Solver.addGuess c r)) ch i = true <->
  forbiddenIn (yellowForbiddenPositions c) ch i = true \/
  exists g p, countedSolver r = Some (g, p) /\ ForbidsAt ch i g p.
Proof.
  unfold Solver.addGuess, countedSolver.
  destruct (firstPattern (patterns r)) as [p|].
  - destruct (patternMismatch (Some p) (guess r)).
    + split; [auto|]. intros [H|[g [p' [Heq _]]]]; [assumption | discriminate].
    + rewrite (fold_left_projected yellowForbiddenPositions _ _ _
                 (Solver_applyPosition_forbidStep (charColorsOf (guess r) p))).
      rewrite guess_forbids.
      split; intros [H|H]; auto.
      * right. now exists (guess r), p.
      * destruct H as [g' [p' [Heq H]]]. injection Heq as <- <-. now right.
  - split; [auto|]. intros [H|[g [p' [Heq _]]]]; [assumption | discriminate].
Qed.

(** A loop over the history in which every round adds the facts of its
    record: the facts at the end are those at the start and those of every
    record. *)
Lemma history_fold (A : Type) (step : A -> GuessRecord -> A)
  (holds : A -> Prop) (adds : GuessRecord -> Prop) :
  (forall a r, holds (step a r) <-> holds a \/ adds r) ->
  forall hist a,
    holds (fold_left step hist a) <->
    holds a \/ exists r, In r hist /\ adds r.
Proof.
  intros Hstep. induction hist as [|r hist IH]; intros a; simpl.
  - split; [auto|]. intros [H|[r [[] _]]]. assumption.
  - rewrite IH, Hstep. split.
    + intros [[H|H]|[r' [Hin H]]]; eauto.
    + intros [H|[r' [[<-|Hin] H]]]; eauto.
Qed.

Lemma App_forbidden_iff (hist : list GuessRecord) (len : nat) (ch : ascii) (i : nat) :
  forbiddenAt (App.buildConstraintsFromGuesses hist len) ch i = true <->
  exists r g p, In r hist /\ counted r = Some (g, p) /\ ForbidsAt ch i g p.
Proof.
  unfold App.buildConstraintsFromGuesses, forbiddenAt.
  cbn [yellowForbiddenPositions].
  change (forbiddenIn
            (yellowForbiddenPositions
               (App.constraints
                  (fold_left App.addGuess hist
                     {| App.constraints := App.emptyConstraints len;
                        App.charRequirements := Obj.empty;
                        App.charMaxLimits := Obj.empty |}))) ch i = true
          <-> exists r g p,
              In r hist /\ counted r = Some (g, p) /\ ForbidsAt ch i g p).
  rewrite (history_fold App.addGuess
             (fun b => forbiddenIn (yellowForbiddenPositions
                                      (App.constraints b)) ch i = true)
             (fun r => exists g p, counted r = Some (g, p)
                                   /\ ForbidsAt ch i g p))
    by (intros; apply App_addGuess_forbids).
  split.
  + intros [H|[r [Hin [g [p H]]]]]; [discriminate|]. now exists r, g, p.
  + intros [r [g [p [Hin H]]]]. right. exists r. split; [assumption|].
    now exists g, p.
Qed.

Lemma Solver_forbidden_iff (hist : list GuessRecord) (len : nat) (ch : ascii) (i : nat) :
  forbiddenAt (Solver.buildConstraintsFromGuesses hist len) ch i = true <->
  exists r g p,
    In r hist /\ countedSolver r = Some (g, p) /\ ForbidsAt ch i g p.
Proof.
  unfold Solver.buildConstraintsFromGuesses.
  change (forbiddenIn
            (yellowForbiddenPositions
               (fold_left Solver.addGuess hist
                  {| greens := repeat None len;
                     requiredCounts := Obj.empty;
                     maxCounts := Obj.empty;
                     excluded := [];
                     yellowForbiddenPositions := Obj.empty |})) ch i = true
          <-> exists r g p,
              In r hist /\ countedSolver r = Some (g, p)
              /\ ForbidsAt ch i g p).
  rewrite (history_fold Solver.addGuess
             (fun c => forbiddenIn (yellowForbiddenPositions c) ch i = true)
             (fun r => exists g p, countedSolver r = Some (g, p)
                                   /\ ForbidsAt ch i g p))
    by (intros; apply Solver_addGuess_forbids).
  split.
  + intros [H|[r [Hin [g [p H]]]]]; [discriminate|]. now exists r, g, p.
  + intros [r [g [p [Hin H]]]]. right. exists r. split; [assumption|].
    now exists g, p.
Qed.

(** X10. After [buildConstraintsFromGuesses], index [i] is forbidden for
    the character [ch] exactly when some guess that counts has [ch] at [i]
    marked yellow, or marked gray while the same guess marks another [ch]
    green or yellow.  A guess counts when its (first) pattern is not empty
    and as long as the guess and, in [src/app.js], it is not [solved]. *)
Theorem builder_forbidden_positions
  (hist : list GuessRecord) (len : nat) (ch : ascii) (i : nat) :
  (forbiddenAt (App.buildConstraintsFromGuesses hist len) ch i = true <->
   exists r g p, In r hist /\ counted r = Some (g, p) /\ ForbidsAt ch i g p) /\
  (forbiddenAt (Solver.buildConstraintsFromGuesses hist len) ch i = true <->
   exists r g p,
     In r hist /\ countedSolver r = Some (g, p) /\ ForbidsAt ch i g p).
Proof.
  split.
  - apply App_forbidden_iff.
  - apply Solver_forbidden_iff.
Qed.

(** ** The excluded characters that the builder records *)

Lemma In_addChar (s : list ascii) (k ch : ascii) :
  In ch (addChar s k) <-> In ch s \/ ch = k.
Proof.
  unfold addChar, JsSet.add.
  destruct (JsSet.has Ascii.eqb s k) eqn:Hhas.
  - apply hasChar_In in Hhas. split; [auto|]. intros [H| ->]; assumption.
  - rewrite in_app_iff. simpl. intuition (subst; auto).
Qed.

Lemma GrayIn_counted (g p : str) (ch : ascii) :
  GrayIn ch g p -> Obj.get (charColorsOf g p) ch <> None.
Proof.
  intros [i [Hg Hp]] Hnone.
  destruct (charColorsOf_counts g p ch) as [_ Hgray].
  unfold grayOf in Hgray. rewrite Hnone in Hgray.
  assert (Hin : In (ch, "x"%char) (combine g p)).
  { assert (H : In (i, (ch, "x"%char)) (positions g p))
      by (apply In_positions; auto).
    unfold positions in H. now apply in_combine_r in H. }
  unfold colorCount in Hgray.
  assert (Hf : In (ch, "x"%char)
                  (filter (fun x => Ascii.eqb (fst x) ch
                                    && Ascii.eqb (snd x) "x")
                          (combine g p))).
  { apply filter_In. split; [assumption|]. simpl.
    now rewrite !Ascii.eqb_refl. }
  destruct (filter _ (combine g p)); [contradiction | discriminate].
Qed.

Lemma App_positions_excluded cc ps ch :
  forall c,
    In ch (excluded (fold_left (App.applyPosition cc) ps c)) <->
    In ch (excluded c) \/
    ((exists i, In (i, (ch, "x"%char)) ps) /\ hasGreenOrYellow cc ch = false).
Proof.
  induction ps as [|[j [k color]] ps IH]; intros c.
  - simpl. split; [auto|]. intros [H|[[i []] _]]. assumption.
  - simpl fold_left. rewrite IH. clear IH. unfold App.applyPosition.
    fold (hasGreenOrYellow cc k).
    destruct (Ascii.eqb color "g") eqn:Hg;
      [|destruct (Ascii.eqb color "y") eqn:Hy;
        [|destruct (Ascii.eqb color "x") eqn:Hx;
          [destruct (hasGreenOrYellow cc k) eqn:Hgy|]]];
      color_facts; subst; cbn [excluded negb]; try rewrite In_addChar.
    all: split; intros H;
      repeat match goal with
             | H : _ \/ _ |- _ => destruct H as [H|H]
             | H : _ /\ _ |- _ => destruct H
             | H : exists _, _ |- _ => destruct H
             | H : In _ (_ :: _) |- _ => destruct H
             | H : (_, (_, _)) = (_, (_, _)) |- _ => inversion H; clear H; subst
             end;
      subst; try congruence; try tauto; eauto 6 using in_eq, in_cons.
Qed.

Lemma Solver_positions_excluded cc ps ch :
  forall c,
    In ch (excluded (fold_left (Solver.applyPosition cc) ps c)) <->
    In ch (excluded c) \/
    ((exists i, In (i, (ch, "x"%char)) ps) /\ Obj.get cc ch <> None
     /\ hasGreenOrYellow cc ch = false).
Proof.
  induction ps as [|[j [k color]] ps IH]; intros c.
  - simpl. split; [auto|]. intros [H|[[i []] _]]. assumption.
  - simpl fold_left. rewrite IH. clear IH.
    unfold Solver.applyPosition, hasGreenOrYellow.
    destruct (Ascii.eqb color "g") eqn:Hg;
      [|destruct (Ascii.eqb color "y") eqn:Hy;
        [|destruct (Ascii.eqb color "x") eqn:Hx;
          [destruct (Obj.get cc k) as [colors|] eqn:Hget;
           [destruct ((0 <? green colors) || (0 <? yellow colors)) eqn:Hgy|]|]]];
      color_facts; subst; cbn [excluded negb]; try rewrite In_addChar.
    all: split; intros H;
      repeat match goal with
             | H : _ \/ _ |- _ => destruct H as [H|H]
             | H : _ /\ _ |- _ => destruct H
             | H : exists _, _ |- _ => destruct H
             | H : In _ (_ :: _) |- _ => destruct H
             | H : (_, (_, _)) = (_, (_, _)) |- _ => inversion H; clear H; subst
             end;
      subst; try congruence; try tauto; eauto 7 using in_eq, in_cons.
    all: rewrite Hget in *; try congruence.
    right. split; [eexists; apply in_eq | split; congruence].
Qed.

Lemma not_hasGreenOrYellow_marked (g p : str) (ch : ascii) :
  hasGreenOrYellow (charColorsOf g p) ch = false <-> marked ch g p = 0.
Proof.
  destruct (hasGreenOrYellow (charColorsOf g p) ch) eqn:H.
  - apply hasGreenOrYellow_marked in H. split; [discriminate | lia].
  - split; [|reflexivity]. intros _.
    destruct (Nat.eq_dec (marked ch g p) 0) as [E|E]; [assumption|].
    assert (H' : hasGreenOrYellow (charColorsOf g p) ch = true)
      by (apply hasGreenOrYellow_marked; lia).
    congruence.
Qed.

Lemma GrayIn_positions (g p : str) (ch : ascii) :
  (exists i, In (i, (ch, "x"%char)) (positions g p)) <-> GrayIn ch g p.
Proof.
  unfold GrayIn. split; intros [i H]; exists i; now apply In_positions.
Qed.

Lemma App_addGuess_excludes b r ch :
  In ch (excluded (App.constraints (App.addGuess b r))) <->
  In ch (excluded (App.constraints b)) \/
  exists g p, counted r = Some (g, p) /\ GrayIn ch g p /\ marked ch g p = 0.
Proof.
  destruct (counted r) as [[g p]|] eqn:Hc.
  - rewrite (App_addGuess_counted b _ Hc). cbn [App.constraints].
    rewrite App_positions_excluded, recordRequirement_constraints.
    rewrite GrayIn_positions, not_hasGreenOrYellow_marked.
    split; intros [H|H]; auto.
    + right. now exists g, p.
    + destruct H as [g' [p' [Heq H]]]. injection Heq as <- <-. now right.
  - rewrite (App_addGuess_skipped b _ Hc).
    split; [auto|]. intros [H|[g [p [Heq _]]]]; [assumption | discriminate].
Qed.

Lemma Solver_addGuess_excludes c r ch :
  In ch (excluded (Solver.addGuess c r)) <->
  In ch (excluded c) \/
  exists g p,
    countedSolver r = Some (g, p) /\ GrayIn ch g p /\ marked ch g p = 0.
Proof.
  unfold Solver.addGuess, countedSolver.
  destruct (firstPattern (patterns r)) as [p|].
  - destruct (patternMismatch (Some p) (guess r)).
    + split; [auto|]. intros [H|[g [p' [Heq _]]]]; [assumption | discriminate].
    + rewrite Solver_positions_excluded.
      rewrite GrayIn_positions, not_hasGreenOrYellow_marked.
      split; intros [H|H]; auto.
      * right. exists (guess r), p. tauto.
      * destruct H as [g' [p' [Heq [Hgray Hm]]]]. injection Heq as <- <-.
        right. split; [assumption|]. split; [|assumption].
        now apply GrayIn_counted.
  - split; [auto|]. intros [H|[g [p' [Heq _]]]]; [assumption | discriminate].
Qed.

Lemma unexclude_iff (gc req : Obj.t nat) (ks : list ascii) (ch : ascii) :
  forall ex,
    In ch (fold_left
             (fun ex k =>
                if (0 <? getOr0 req k) || (0 <? getOr0 gc k)
                then deleteChar ex k
                else ex) ks ex) <->
    In ch ex /\
    (In ch ks -> (0 <? getOr0 req ch) || (0 <? getOr0 gc ch) = false).
Proof.
  induction ks as [|k ks IH]; intros ex.
  - simpl. tauto.
  - simpl fold_left. rewrite IH. clear IH.
    destruct ((0 <? getOr0 req k) || (0 <? getOr0 gc k)) eqn:Ht.
    + rewrite In_deleteChar. split.
      * intros [[Hin Hne] Hks]. split; [assumption|].
        intros [Heq|Hin']; [contradiction | now apply Hks].
      * intros [Hin Hks]. split; [split; [assumption|] |].
        -- intros ->. rewrite Hks in Ht by now left. discriminate.
        -- intros Hin'. apply Hks. now right.
    + split.
      * intros [Hin Hks]. split; [assumption|].
        intros [<-|Hin']; [assumption | now apply Hks].
      * intros [Hin Hks]. split; [assumption|]. intros Hin'. apply Hks.
        now right.
Qed.

Lemma requirementsOf_nil (ch : ascii) (hist : list GuessRecord) :
  requirementsOf ch hist = [] <->
  forall r g p, In r hist -> counted r = Some (g, p) -> marked ch g p = 0.
Proof.
  induction hist as [|r hist IH].
  - simpl. split; [intros _ r g p [] | reflexivity].
  - unfold requirementsOf in *. simpl flat_map. split.
    + intros H. apply app_eq_nil in H. destruct H as [Hr Hrest].
      intros r' g p [<-|Hin] Hc.
      * rewrite Hc in Hr. destruct (0 <? marked ch g p) eqn:Hm;
          [discriminate|]. apply Nat.ltb_ge in Hm. lia.
      * apply (proj1 IH Hrest r' g p Hin Hc).
    + intros H. rewrite (proj2 IH) by (intros r' g p Hin; apply H; now right).
      rewrite app_nil_r. destruct (counted r) as [[g p]|] eqn:Hc;
        [|reflexivity].
      rewrite (H r g p (or_introl eq_refl) Hc). reflexivity.
Qed.

Lemma requirementsOf_positive (ch : ascii) (hist : list GuessRecord) (x : nat) :
  In x (requirementsOf ch hist) -> 0 < x.
Proof.
  unfold requirementsOf. rewrite in_flat_map. intros [r [_ H]].
  destruct (counted r) as [[g p]|]; [|contradiction].
  destruct (0 <? marked ch g p) eqn:Hm; [|contradiction].
  destruct H as [<-|[]]. now apply Nat.ltb_lt.
Qed.

Lemma App_excluded_iff (hist : list GuessRecord) (len : nat) (ch : ascii) :
  hasChar (excluded (App.buildConstraintsFromGuesses hist len)) ch = true <->
  (exists r g p, In r hist /\ counted r = Some (g, p) /\ GrayIn ch g p) /\
  (forall r g p, In r hist -> counted r = Some (g, p) -> marked ch g p = 0).
Proof.
  rewrite hasChar_In, <- requirementsOf_nil.
  pose proof (App_builder_required hist len ch) as [Hnone Hsome].
  revert Hnone Hsome.
  unfold App.buildConstraintsFromGuesses.
  set (b := fold_left App.addGuess hist _) in *.
  cbn [requiredCounts greens excluded].
  set (gc := App.greenCountsOf (greens (App.constraints b))).
  set (req := App.subtractGreens gc _).
  intros Hnone Hsome.
  unfold App.unexclude. rewrite unexclude_iff.
  assert (Hex : In ch (excluded (App.constraints b)) <->
                exists r g p, In r hist /\ counted r = Some (g, p) /\
                              GrayIn ch g p /\ marked ch g p = 0).
  { subst b.
    rewrite (history_fold App.addGuess
               (fun b => In ch (excluded (App.constraints b)))
               (fun r => exists g p, counted r = Some (g, p) /\
                                     GrayIn ch g p /\ marked ch g p = 0))
      by (intros; apply App_addGuess_excludes).
    split.
    - intros [[]|[r [Hin [g [p H]]]]]. now exists r, g, p.
    - intros [r [g [p [Hin H]]]]. right. exists r. split; [assumption|].
      now exists g, p. }
  rewrite Hex. clear Hex. split.
  + intros [[r [g [p [Hin [Hc [Hgray Hm]]]]]] Hkeys]. split.
    * now exists r, g, p.
    * destruct (requirementsOf ch hist) as [|x l] eqn:Hreq; [reflexivity|].
      exfalso.
      assert (Hne : x :: l <> []) by discriminate.
      destruct (Hsome Hne) as [m [[Hm_in _] Hget]].
      assert (Hpos : 0 < m).
      { apply requirementsOf_positive with (ch := ch) (hist := hist).
        now rewrite Hreq. }
      assert (Hin_keys : In ch (Obj.keys req)).
      { apply (In_keys req ch). now apply get_Some_key with (v := m - fixedCount ch (greens (App.constraints b))). }
      specialize (Hkeys Hin_keys). apply orb_false_iff in Hkeys.
      destruct Hkeys as [H1 H2]. apply Nat.ltb_ge in H1, H2.
      destruct (greenCountsOf_spec (greens (App.constraints b)) ch)
        as [_ G2].
      fold gc in G2. unfold getOr0 at 1 in H1. rewrite Hget in H1. lia.
  + intros [[r [g [p [Hin [Hc Hgray]]]]] Hreq]. split.
    * exists r, g, p. repeat split; try assumption.
      apply (proj1 (requirementsOf_nil ch hist) Hreq r g p Hin Hc).
    * intros Hin_keys. exfalso.
      apply (In_keys req ch) in Hin_keys.
      apply (get_None_key req ch); [|exact Hin_keys].
      now apply Hnone.
Qed.

Lemma Solver_excluded_iff (hist : list GuessRecord) (len : nat) (ch : ascii) :
  hasChar (excluded (Solver.buildConstraintsFromGuesses hist len)) ch = true
  <->
  exists r g p,
    In r hist /\ countedSolver r = Some (g, p) /\ GrayIn ch g p /\
    marked ch g p = 0.
Proof.
  rewrite hasChar_In. unfold Solver.buildConstraintsFromGuesses.
  rewrite (history_fold Solver.addGuess
             (fun c => In ch (excluded c))
             (fun r => exists g p, countedSolver r = Some (g, p) /\
                                   GrayIn ch g p /\ marked ch g p = 0))
    by (intros; apply Solver_addGuess_excludes).
  split.
  + intros [[]|[r [Hin [g [p H]]]]]. now exists r, g, p.
  + intros [r [g [p [Hin H]]]]. right. exists r. split; [assumption|].
    now exists g, p.
Qed.

(** X11. Which characters end up in [excluded].  In [src/app.js]: the
    characters that some guess that counts marks gray and that no guess that
    counts marks green or yellow.  In [src/solver.js]: the characters that
    some guess marks gray without marking them green or yellow in that same
    guess, whatever the other guesses say. *)
Theorem builder_excluded_characters
  (hist : list GuessRecord) (len : nat) (ch : ascii) :
  (hasChar (excluded (App.buildConstraintsFromGuesses hist len)) ch = true <->
   (exists r g p, In r hist /\ counted r = Some (g, p) /\ GrayIn ch g p) /\
   (forall r g p, In r hist -> counted r = Some (g, p) -> marked ch g p = 0)) /\
  (hasChar (excluded (Solver.buildConstraintsFromGuesses hist len)) ch = true
   <->
   exists r g p,
     In r hist /\ countedSolver r = Some (g, p) /\ GrayIn ch g p /\
     marked ch g p = 0).
Proof.
  split.
  - apply App_excluded_iff.
  - apply Solver_excluded_iff.
Qed.

(** ** The fixed positions that the builder records *)

Lemma NoDup_positions (g p : str) : NoDup (map fst (positions g p)).
Proof.
  unfold positions.
  assert (H : forall (a : list nat) (b : list (ascii * ascii)),
             NoDup a -> NoDup (map fst (combine a b))).
  { induction a as [|x a IH]; intros b Ha; simpl.
    - constructor.
    - destruct b as [|y b]; simpl; [constructor|].
      inversion Ha as [|x' a' Hx Ha']; subst. constructor.
      + intros Hin. apply Hx. apply in_map_iff in Hin.
        destruct Hin as [[x' y'] [Heq Hin]]. simpl in Heq. subst x'.
        now apply in_combine_l in Hin.
      + now apply IH. }
  apply H, seq_NoDup.
Qed.

Lemma greens_positions (ap : ConstraintSet -> nat * (ascii * ascii)
                             -> ConstraintSet) (i : nat) (ch : ascii) :
  (forall c j k color,
      greens (ap c (j, (k, color)))
      = if Ascii.eqb color "g" then arraySet (greens c) j k else greens c) ->
  forall ps c,
    NoDup (map fst ps) ->
    (arrayGet (greens (fold_left ap ps c)) i = Some ch <->
     In (i, (ch, "g"%char)) ps \/
     (arrayGet (greens c) i = Some ch /\
      forall ch', ~ In (i, (ch', "g"%char)) ps)).
Proof.
  intros Hap. induction ps as [|[j [k color]] ps IH]; intros c Hnd.
  - simpl. split; [intros H; right; auto | intros [[]|[H _]]; assumption].
  - inversion Hnd as [|j' ps' Hj Hnd']; subst. simpl fold_left.
    rewrite (IH _ Hnd'), Hap. clear IH.
    assert (Hfresh : forall a, In (j, a) ps -> False).
    { intros a Hin. apply Hj. apply in_map_iff. now exists (j, a). }
    destruct (Ascii.eqb color "g") eqn:Hg; color_facts; subst.
    + rewrite arrayGet_arraySet.
      destruct (Nat.eqb_spec i j) as [->|Hne].
      * split.
        -- intros [H|[H _]]; [exfalso; eauto|]. injection H as ->.
           left. now left.
        -- intros [[H|H]|[_ H]].
           ++ injection H as ->. right. split; [reflexivity|].
              intros ch' Hin. eauto.
           ++ exfalso. eauto.
           ++ exfalso. apply (H k). now left.
      * split.
        -- intros [H|[H Hno]]; [left; now right|].
           right. split; [assumption|].
           intros ch' [Heq|Hin]; [congruence | now apply (Hno ch')].
        -- intros [[H|H]|[H Hno]]; [congruence | now left |].
           right. split; [assumption|]. intros ch' Hin.
           apply (Hno ch'). now right.
    + split.
      * intros [H|[H Hno]]; [left; now right|].
        right. split; [assumption|].
        intros ch' [Heq|Hin]; [congruence | now apply (Hno ch')].
      * intros [[H|H]|[H Hno]]; [congruence | now left |].
        right. split; [assumption|]. intros ch' Hin.
        apply (Hno ch'). now right.
Qed.

Lemma App_applyPosition_greens cc c j k color :
  greens (App.applyPosition cc c (j, (k, color)))
  = if Ascii.eqb color "g" then arraySet (greens c) j k else greens c.
Proof.
  unfold App.applyPosition.
  destruct (Ascii.eqb color "g"); [reflexivity|].
  destruct (Ascii.eqb color "y"); [reflexivity|].
  destruct (Ascii.eqb color "x"); reflexivity.
Qed.

Lemma Solver_applyPosition_greens cc c j k color :
  greens (Solver.applyPosition cc c (j, (k, color)))
  = if Ascii.eqb color "g" then arraySet (greens c) j k else greens c.
Proof.
  unfold Solver.applyPosition.
  destruct (Ascii.eqb color "g"); [reflexivity|].
  destruct (Ascii.eqb color "y"); [reflexivity|].
  destruct (Ascii.eqb color "x"); [|reflexivity].
  destruct (Obj.get cc k); reflexivity.
Qed.

Lemma guess_greens (ap : ConstraintSet -> nat * (ascii * ascii)
                         -> ConstraintSet) (g p : str) (c : ConstraintSet)
  (i : nat) (ch : ascii) :
  (forall c j k color,
      greens (ap c (j, (k, color)))
      = if Ascii.eqb color "g" then arraySet (greens c) j k else greens c) ->
  List.length p = List.length g ->
  (arrayGet (greens (fold_left ap (positions g p) c)) i = Some ch <->
   GreenAt ch i g p \/
   (arrayGet (greens c) i = Some ch /\ nth_error p i <> Some "g"%char)).
Proof.
  intros Hap Hlen.
  rewrite (greens_positions ap i ch Hap _ c (NoDup_positions g p)).
  rewrite In_positions. unfold GreenAt.
  split; intros [H|[H Hno]]; auto; right; (split; [assumption|]).
  - intros Hp.
    destruct (nth_error g i) as [k|] eqn:Hk.
    + apply (Hno k). apply In_positions. auto.
    + apply nth_error_None in Hk.
      assert (nth_error p i <> None) by congruence.
      apply nth_error_Some in H0. lia.
  - intros ch' Hin. apply In_positions in Hin. now destruct Hin.
Qed.

Lemma counted_lengths (r : GuessRecord) (g p : str) :
  countedSolver r = Some (g, p) -> List.length p = List.length g.
Proof.
  unfold countedSolver. destruct (firstPattern (patterns r)) as [q|];
    [|discriminate].
  destruct (patternMismatch (Some q) (guess r)) eqn:Hm; [discriminate|].
  intros H. injection H as <- <-. unfold patternMismatch in Hm.
  apply orb_false_iff in Hm. destruct Hm as [_ Hm].
  apply negb_false_iff, Nat.eqb_eq in Hm. exact Hm.
Qed.

Lemma counted_countedSolver (r : GuessRecord) (g p : str) :
  counted r = Some (g, p) -> countedSolver r = Some (g, p).
Proof.
  unfold counted, countedSolver. destruct (solved r); [discriminate|]. auto.
Qed.

Lemma App_addGuess_fixes b r i ch :
  arrayGet (greens (App.constraints (App.addGuess b r))) i = Some ch <->
  (exists g p, counted r = Some (g, p) /\ GreenAt ch i g p) \/
  (arrayGet (greens (App.constraints b)) i = Some ch /\
   ~ MarksGreen counted i r).
Proof.
  unfold MarksGreen. destruct (counted r) as [[g p]|] eqn:Hc.
  - rewrite (App_addGuess_counted b _ Hc). cbn [App.constraints].
    rewrite (guess_greens _ g p _ i ch
               (App_applyPosition_greens (charColorsOf g p))
               (counted_lengths r (counted_countedSolver r Hc))).
    rewrite recordRequirement_constraints.
    split; intros [H|[H Hno]].
    + left. now exists g, p.
    + right. split; [assumption|]. intros [g' [p' [Heq Hp]]].
      injection Heq as <- <-. contradiction.
    + destruct H as [g' [p' [Heq H]]]. injection Heq as <- <-. now left.
    + right. split; [assumption|]. intros Hp. apply Hno. now exists g, p.
  - rewrite (App_addGuess_skipped b _ Hc). split.
    + intros H. right. split; [assumption|].
      intros [g [p [Heq _]]]. discriminate.
    + intros [[g [p [Heq _]]]|[H _]]; [discriminate | assumption].
Qed.

Lemma Solver_addGuess_fixes c r i ch :
  arrayGet (greens (Solver.addGuess c r)) i = Some ch <->
  (exists g p, countedSolver r = Some (g, p) /\ GreenAt ch i g p) \/
  (arrayGet (greens c) i = Some ch /\ ~ MarksGreen countedSolver i r).
Proof.
  unfold MarksGreen.
  destruct (countedSolver r) as [[g p]|] eqn:Hc.
  - assert (Hlen := counted_lengths r Hc).
    unfold Solver.addGuess. unfold countedSolver in Hc.
    destruct (firstPattern (patterns r)) as [q|]; [|discriminate].
    destruct (patternMismatch (Some q) (guess r)); [discriminate|].
    injection Hc as <- <-.
    rewrite (guess_greens _ (guess r) q _ i ch
               (Solver_applyPosition_greens (charColorsOf (guess r) q)) Hlen).
    split; intros [H|[H Hno]].
    + left. now exists (guess r), q.
    + right. split; [assumption|]. intros [g' [p' [Heq Hp]]].
      injection Heq as <- <-. contradiction.
    + destruct H as [g' [p' [Heq H]]]. injection Heq as <- <-. now left.
    + right. split; [assumption|]. intros Hp. apply Hno.
      now exists (guess r), q.
  - assert (Hsame : Solver.addGuess c r = c).
    { unfold Solver.addGuess. unfold countedSolver in Hc.
      destruct (firstPattern (patterns r)) as [q|]; [|reflexivity].
      destruct (patternMismatch (Some q) (guess r)); [reflexivity|].
      discriminate. }
    rewrite Hsame. split.
    + intros H. right. split; [assumption|].
      intros [g [p [Heq _]]]. discriminate.
    + intros [[g [p [Heq _]]]|[H _]]; [discriminate | assumption].
Qed.

(** A loop over the history in which every round either sets the value or
    leaves it: the value at the end is the one set by the last round that
    set any, or the value at the start if no round did. *)
Lemma history_last (A : Type) (step : A -> GuessRecord -> A)
  (counts : GuessRecord -> option (str * str))
  (value : A -> option ascii) (i : nat) (ch : ascii) :
  (forall a r,
      value (step a r) = Some ch <->
      (exists g p, counts r = Some (g, p) /\ GreenAt ch i g p) \/
      (value a = Some ch /\ ~ MarksGreen counts i r)) ->
  forall hist a,
    value (fold_left step hist a) = Some ch <->
    LastGreen counts hist i ch \/
    (value a = Some ch /\ forall r, In r hist -> ~ MarksGreen counts i r).
Proof.
  intros Hstep. induction hist as [|r hist IH]; intros a.
  - simpl. split.
    + intros H. right. split; [assumption | intros r []].
    + intros [[before [r [after [g [p [Heq _]]]]]]|[H _]]; [|assumption].
      destruct before; discriminate.
  - simpl fold_left. rewrite IH, Hstep. clear IH. split.
    + intros [[before [r' [after [g [p [Heq [Hc [Hg Hno]]]]]]]]
             |[[[g [p [Hc Hg]]]|[Ha Hr]] Hno]].
      * left. exists (r :: before), r', after, g, p. subst hist.
        repeat split; try assumption; apply Hg.
      * left. exists [], r, hist, g, p. repeat split; try assumption;
          apply Hg.
      * right. split; [assumption|]. intros r' [<-|Hin]; auto.
    + intros [[before [r' [after [g [p [Heq [Hc [Hg Hno]]]]]]]]|[Ha Hno]].
      * destruct before as [|r0 before]; simpl in Heq;
          injection Heq as E1 E2; subst.
        -- right. split; [|assumption]. left. now exists g, p.
        -- left. now exists before, r', after, g, p.
      * right. split.
        -- right. split; [assumption|]. apply Hno. now left.
        -- intros r' Hin. apply Hno. now right.
Qed.

Lemma App_fixed_iff (hist : list GuessRecord) (len : nat) (i : nat) (ch : ascii) :
  arrayGet (greens (App.buildConstraintsFromGuesses hist len)) i = Some ch
  <-> LastGreen counted hist i ch.
Proof.
  unfold App.buildConstraintsFromGuesses. cbn [greens].
  rewrite (@history_last _ App.addGuess counted
             (fun b => arrayGet (greens (App.constraints b)) i) i ch)
    by (intros; apply App_addGuess_fixes).
  cbn [App.constraints App.emptyConstraints greens].
  rewrite arrayGet_repeat_None. split; [|auto].
  intros [H|[H _]]; [assumption | discriminate].
Qed.

Lemma Solver_fixed_iff (hist : list GuessRecord) (len : nat) (i : nat) (ch : ascii) :
  arrayGet (greens (Solver.buildConstraintsFromGuesses hist len)) i = Some ch
  <-> LastGreen countedSolver hist i ch.
Proof.
  unfold Solver.buildConstraintsFromGuesses.
  rewrite (@history_last _ Solver.addGuess countedSolver
             (fun c => arrayGet (greens c) i) i ch)
    by (intros; apply Solver_addGuess_fixes).
  cbn [greens]. rewrite arrayGet_repeat_None. split; [|auto].
  intros [H|[H _]]; [assumption | discriminate].
Qed.

(** X12. The fixed positions after [buildConstraintsFromGuesses]: index
    [i] is fixed to [ch] exactly when the last guess that counts and marks
    [i] green has [ch] there.  If no such guess exists the position is not
    fixed; a later green mark on the same index replaces an earlier one. *)
Theorem builder_fixed_positions
  (hist : list GuessRecord) (len : nat) (i : nat) (ch : ascii) :
  (arrayGet (greens (App.buildConstraintsFromGuesses hist len)) i = Some ch
   <-> LastGreen counted hist i ch) /\
  (arrayGet (greens (Solver.buildConstraintsFromGuesses hist len)) i = Some ch
   <-> LastGreen countedSolver hist i ch).
Proof.
  split.
  - apply App_fixed_iff.
  - apply Solver_fixed_iff.
Qed.

(** ** The search that gives way to the event loop *)

Lemma insertByPriority_perm (x : ascii * Z) (l : list (ascii * Z)) :
  Permutation (AppAsync.insertByPriority x l) (x :: l).
Proof.
  induction l as [|y l IH]; simpl.
  - apply Permutation_refl.
  - destruct (snd x <? snd y)%Z.
    + rewrite IH. apply perm_swap.
    + apply Permutation_refl.
Qed.

Lemma sortByPriority_perm (l : list (ascii * Z)) :
  Permutation (AppAsync.sortByPriority l) l.
Proof.
  induction l as [|x l IH]; simpl.
  - apply perm_nil.
  - rewrite insertByPriority_perm. now apply perm_skip.
Qed.

Lemma getSortedChars_perm c o pos used hasEqual :
  Permutation
    (AppAsync.getSortedChars c o pos used hasEqual)
    (filter (fun ch => negb (AppAsync.filtered c o pos used hasEqual ch))
            (allowedChars c)).
Proof.
  unfold AppAsync.getSortedChars.
  rewrite (Permutation_map fst (sortByPriority_perm _)).
  rewrite map_map. simpl. rewrite map_id. apply Permutation_refl.
Qed.

Lemma getSortedChars_In c o pos used hasEqual ch :
  In ch (AppAsync.getSortedChars c o pos used hasEqual) <->
  In ch (allowedChars c) /\ AppAsync.filtered c o pos used hasEqual ch = false.
Proof.
  split.
  - intros H. apply (Permutation_in _ (getSortedChars_perm c o pos used hasEqual))
      in H.
    apply filter_In in H. destruct H as [H1 H2].
    split; [assumption | now apply negb_true_iff].
  - intros [H1 H2].
    apply (Permutation_in _ (Permutation_sym
                               (getSortedChars_perm c o pos used hasEqual))).
    apply filter_In. split; [assumption | now apply negb_true_iff].
Qed.

Lemma NoDup_getSortedChars c o pos used hasEqual :
  NoDup (AppAsync.getSortedChars c o pos used hasEqual).
Proof.
  apply (Permutation_NoDup
           (Permutation_sym (getSortedChars_perm c o pos used hasEqual))).
  apply NoDup_filter, NoDup_allowedChars.
Qed.

(** The loop of the synchronous search skips a character exactly when
    [getSortedChars] leaves it out or the loop of this search skips it. *)
Lemma App_skips_split c o pos cur used hasEqual ch :
  App.skips c o pos cur used hasEqual ch
  = AppAsync.filtered c o pos used hasEqual ch
    || AppAsync.skips c o pos cur used hasEqual ch.
Proof.
  unfold App.skips, AppAsync.filtered, AppAsync.skips.
  assert (Hmax : match Obj.get (maxCounts c) ch with
                 | Some max => negb (Nat.eqb max 0) && (max <=? getOr0 used ch)
                 | None => false
                 end = exceedsMax c (increment used ch) ch).
  { unfold exceedsMax. rewrite getOr0_increment, Ascii.eqb_refl.
    destruct (Obj.get (maxCounts c) ch) as [max|]; [|reflexivity].
    f_equal. destruct (max <=? getOr0 used ch) eqn:H1;
      destruct (max <? getOr0 used ch + 1) eqn:H2; try reflexivity.
    - apply Nat.leb_le in H1. apply Nat.ltb_ge in H2. lia.
    - apply Nat.leb_gt in H1. apply Nat.ltb_lt in H2. lia. }
  rewrite Hmax.
  destruct (includes operators ch && _);
    destruct (Ascii.eqb ch "=");
    destruct (match lastCharOf pos cur with
              | Some lc => includes operators lc
              | None => false
              end);
    destruct hasEqual; destruct (Nat.eqb pos 0);
    destruct (Nat.eqb pos (length o - 1));
    destruct (0 <? needOperators c used);
    destruct (includes (lit "*/+") ch);
    destruct (forbiddenAt c ch pos);
    destruct (exceedsMax c (increment used ch) ch);
    destruct (length o - pos - 1 <? needMore c (increment used ch));
    reflexivity.
Qed.

Lemma checkpoint_results world st cur :
  AppAsync.results (fst (AppAsync.checkpoint world st cur))
  = AppAsync.results st.
Proof.
  unfold AppAsync.checkpoint.
  destruct (_ && _); [|reflexivity].
  destruct (AppAsync.flagAfterYield world _); reflexivity.
Qed.

Lemma checkpoint_goes_on world st cur :
  (forall n, AppAsync.flagAfterYield world n = false) ->
  snd (AppAsync.checkpoint world st cur) = false.
Proof.
  intros H. unfold AppAsync.checkpoint.
  destruct (_ && _); [|reflexivity]. now rewrite H.
Qed.

Section AsyncSearch.
Variable evalReturn : str -> Completion.
Variable world : AppAsync.World.
Variable constraints : ConstraintSet.
Variable o : Options.

Ltac enter st1 Hres :=
  cbn [AppAsync.dfs];
  match goal with
  | |- context [AppAsync.checkpoint ?w ?s ?c] =>
      pose proof (checkpoint_results w s c) as Hres;
      destruct (AppAsync.checkpoint w s c) as [st1 [|]];
      cbn [fst AppAsync.countCall AppAsync.results] in Hres
  end.

Lemma Async_dfs_sound (remaining : nat) :
  forall (cur : str) (used : Obj.t nat) (hasEqual : bool)
         (st : AppAsync.State),
    remaining <= length o ->
    List.length cur = length o - remaining ->
    Tally used cur ->
    hasEqual = includes cur "=" ->
    PathOk constraints (fixedOkApp constraints) (freeOkApp constraints o) cur ->
    Forall (AcceptedApp evalReturn constraints o) (AppAsync.results st) ->
    Forall (AcceptedApp evalReturn constraints o)
      (AppAsync.results (AppAsync.dfs evalReturn world constraints o
                                      remaining cur used hasEqual st)).
Proof.
  induction remaining as [|remaining IH];
    intros cur used hasEqual st Hle Hlen Htally Heq Hpath Hst.
  - enter st1 Hres; (destruct (AppAsync.flagAtEntry world _); [assumption|]);
      [now rewrite Hres|].
    rewrite <- Hres in Hst.
    destruct (_ <=? _); [assumption|].
    destruct hasEqual; cbn [negb]; [|assumption].
    destruct (isValidEquation evalReturn cur) eqn:Hvalid; cbn [negb];
      [|assumption].
    destruct (meetsRequired constraints used) eqn:Hreq; cbn [negb];
      [|assumption].
    cbn [AppAsync.report AppAsync.pushResult AppAsync.results].
    apply Forall_app. split; [assumption|].
    constructor; [|constructor].
    constructor; try assumption.
    + lia.
    + now apply meetsRequired_sound with used.
  - enter st1 Hres; (destruct (AppAsync.flagAtEntry world _); [assumption|]);
      [now rewrite Hres|].
    rewrite <- Hres in Hst. clear Hres.
    destruct (_ <=? _); [assumption|].
    assert (Hpos : length o - S remaining = List.length cur) by lia.
    rewrite Hpos.
    destruct (arrayGet (greens constraints) (List.length cur)) as [ch|]
      eqn:Hfixed.
    + destruct (Ascii.eqb ch "=" && _) eqn:Hprune; [assumption|].
      destruct (exceedsMax constraints (increment used ch) ch) eqn:Hmax;
        [assumption|].
      apply IH; try assumption.
      * lia.
      * rewrite length_app. simpl. lia.
      * now apply Tally_step.
      * now rewrite includes_snoc_equal, Heq.
      * apply PathOk_snoc; [assumption|].
        exists used. split; [assumption|]. rewrite Hfixed.
        split; [reflexivity|].
        unfold fixedOkApp. now rewrite Hprune, Hmax.
    + apply fold_left_invariant; [assumption|].
      intros st' ch Hin Hst'. cbv beta.
      destruct (AppAsync.skips constraints o (List.length cur) cur
                               used hasEqual ch) eqn:Hskip; [assumption|].
      apply getSortedChars_In in Hin. destruct Hin as [Hin Hfilter].
      apply IH; try assumption.
      * lia.
      * rewrite length_app. simpl. lia.
      * now apply Tally_step.
      * now rewrite includes_snoc_equal, Heq.
      * apply PathOk_snoc; [assumption|].
        exists used. split; [assumption|]. rewrite Hfixed.
        split; [assumption|].
        unfold freeOkApp. rewrite <- Heq, App_skips_split, Hfilter, Hskip.
        reflexivity.
Qed.


Lemma Async_dfs_adds (remaining : nat) :
  forall cur used hasEqual st,
    Adds cur (AppAsync.results st)
         (AppAsync.results (AppAsync.dfs evalReturn world constraints o
                                         remaining cur used hasEqual st)).
Proof.
  induction remaining as [|remaining IH]; intros cur used hasEqual st.
  - enter st1 Hres;
      (destruct (AppAsync.flagAtEntry world _);
       [now apply Adds_nothing|]);
      [now apply Adds_nothing|].
    rewrite <- Hres.
    destruct (_ <=? _); [now apply Adds_nothing|].
    destruct (negb hasEqual); [now apply Adds_nothing|].
    destruct (negb _); [now apply Adds_nothing|].
    destruct (negb _); [now apply Adds_nothing|].
    exists [cur]. split; [reflexivity|]. split.
    + constructor; [intros [] | constructor].
    + intros s [<-|[]]. apply firstn_all.
  - enter st1 Hres;
      (destruct (AppAsync.flagAtEntry world _);
       [now apply Adds_nothing|]);
      [now apply Adds_nothing|].
    rewrite <- Hres. clear Hres.
    destruct (_ <=? _); [now apply Adds_nothing|].
    destruct (arrayGet (greens constraints) _) as [ch|].
    + destruct (_ && _); [now apply Adds_nothing|].
      destruct (exceedsMax _ _ _); [now apply Adds_nothing|].
      apply Adds_deeper with (ch := ch). apply IH.
    + refine (@Adds_loop _ AppAsync.results cur
                (fun st ch =>
                   if AppAsync.skips constraints o
                        (length o - S remaining) cur used hasEqual ch
                   then st
                   else AppAsync.dfs evalReturn world constraints o remaining
                          (cur ++ [ch]) (increment used ch)
                          (hasEqual || Ascii.eqb ch "=") st)
                _ _ st1 _).
      * intros st' ch.
        destruct (AppAsync.skips _ _ _ _ _ _ ch); [now apply Adds_nothing|].
        apply IH.
      * apply NoDup_getSortedChars.
Qed.

Lemma Async_dfs_grows (remaining : nat) cur used hasEqual st :
  exists more,
    AppAsync.results (AppAsync.dfs evalReturn world constraints o
                                   remaining cur used hasEqual st)
    = AppAsync.results st ++ more.
Proof.
  destruct (Async_dfs_adds remaining cur used hasEqual st) as [more [H _]].
  now exists more.
Qed.

Hypothesis never_cancelled : forall n, AppAsync.flagAtEntry world n = false.
Hypothesis never_cancelled' : forall n, AppAsync.flagAfterYield world n = false.

Lemma Async_dfs_complete (remaining : nat) :
  forall cur used hasEqual st s,
    List.length cur + remaining = length o ->
    Tally used cur ->
    hasEqual = includes cur "=" ->
    List.length
      (AppAsync.results (AppAsync.dfs evalReturn world constraints o
                                      remaining cur used hasEqual st))
    < maxResults o ->
    AcceptedApp evalReturn constraints o s ->
    firstn (List.length cur) s = cur ->
    In s (AppAsync.results (AppAsync.dfs evalReturn world constraints o
                                         remaining cur used hasEqual st)).
Proof.
  induction remaining as [|remaining IH];
    intros cur used hasEqual st s Hlen Htally Heq Hroom Hacc Hpre.
  - destruct Hacc as [Hslen Hvalid Hreq Hpath].
    assert (s = cur) as ->.
    { rewrite <- Hpre. symmetry. apply firstn_all2. lia. }
    cbn [AppAsync.dfs] in Hroom |- *.
    rewrite never_cancelled in Hroom |- *.
    pose proof (checkpoint_goes_on world
                  (AppAsync.countCall st) cur never_cancelled') as Hgo.
    destruct (AppAsync.checkpoint world (AppAsync.countCall st) cur)
      as [st1 returned].
    cbn [snd] in Hgo. subst returned.
    destruct (maxResults o <=? _) eqn:Hcap.
    { apply Nat.leb_le in Hcap. lia. }
    rewrite Heq, (Accepted_has_equal _ _ Hvalid), Hvalid.
    rewrite (@meetsRequired_complete constraints used cur Htally Hreq).
    cbn [negb AppAsync.report AppAsync.pushResult AppAsync.results].
    apply in_or_app. right. now left.
  - cbn [AppAsync.dfs] in Hroom |- *.
    rewrite never_cancelled in Hroom |- *.
    pose proof (checkpoint_goes_on world
                  (AppAsync.countCall st) cur never_cancelled') as Hgo.
    destruct (AppAsync.checkpoint world (AppAsync.countCall st) cur)
      as [st1 returned].
    cbn [snd] in Hgo. subst returned.
    destruct (maxResults o <=? _) eqn:Hcap.
    { apply Nat.leb_le in Hcap. lia. }
    replace (length o - S remaining) with (List.length cur) in * by lia.
    assert (Hslen : List.length s = length o) by apply Hacc.
    destruct (nth_error s (List.length cur)) as [c|] eqn:Hc.
    2:{ apply nth_error_None in Hc. lia. }
    assert (Hstep := accepted_path Hacc _ Hc).
    rewrite Hpre in Hstep. destruct Hstep as [used' [Htally' Hstep]].
    assert (Hsame := @Tally_same used' used cur Htally' Htally).
    assert (Hnext : firstn (List.length (cur ++ [c])) s = cur ++ [c]).
    { rewrite length_app. simpl. rewrite Nat.add_1_r.
      rewrite (firstn_next _ _ Hc). now rewrite Hpre. }
    destruct (arrayGet (greens constraints) (List.length cur)) as [ch|].
    + destruct Hstep as [-> Hok]. unfold fixedOkApp in Hok.
      apply andb_true_iff in Hok. destruct Hok as [Hok1 Hok2].
      apply negb_true_iff in Hok1, Hok2.
      rewrite (@exceedsMax_same constraints _ _ ch
                 (@increment_same used' used ch Hsame)) in Hok2.
      rewrite Hok1, Hok2 in Hroom |- *.
      apply IH; try assumption.
      * rewrite length_app. simpl. lia.
      * now apply Tally_step.
      * now rewrite includes_snoc_equal, Heq.
    + destruct Hstep as [Hin Hok]. unfold freeOkApp in Hok.
      apply negb_true_iff in Hok.
      rewrite (@App_skips_same constraints o _ _ used' used _ _ Hsame), <- Heq
        in Hok.
      rewrite App_skips_split in Hok. apply orb_false_iff in Hok.
      destruct Hok as [Hfilter Hskip].
      assert (Hsorted : In c (AppAsync.getSortedChars constraints o
                                (List.length cur) used hasEqual))
        by (apply getSortedChars_In; auto).
      match type of Hroom with
      | List.length (AppAsync.results (fold_left ?f ?l ?a)) < _ =>
          destruct (@fold_left_reaches _ AppAsync.results f l c)
            with (st := a) as [st' [more Hmore]]
      end.
      * intros x b. cbv beta. destruct (AppAsync.skips _ _ _ _ _ _ b).
        -- exists []. now rewrite app_nil_r.
        -- apply Async_dfs_grows.
      * exact Hsorted.
      * rewrite Hmore in Hroom |- *. rewrite Hskip in Hroom |- *.
        apply in_or_app. left.
        apply IH; try assumption.
        -- rewrite length_app. simpl. lia.
        -- now apply Tally_step.
        -- now rewrite includes_snoc_equal, Heq.
        -- rewrite length_app in Hroom. lia.
Qed.
End AsyncSearch.

Lemma Async_results_accepted evalReturn world c o s :
  In s (AppAsync.generateCandidatesAsync evalReturn world c o) ->
  AcceptedApp evalReturn c o s.
Proof.
  unfold AppAsync.generateCandidatesAsync. rewrite In_sortByScore. intros Hin.
  assert (H : Forall (AcceptedApp evalReturn c o)
                (AppAsync.results
                   (AppAsync.dfs evalReturn world c o (length o) [] Obj.empty
                                 false (AppAsync.initialState world)))).
  { apply Async_dfs_sound.
    - lia.
    - simpl. lia.
    - apply Tally_empty.
    - reflexivity.
    - apply PathOk_nil.
    - constructor. }
  rewrite Forall_forall in H. now apply H.
Qed.

(** X13. Every string that [generateCandidatesAsync] returns, whatever the
    flag and the clock do: has the length asked for; is a valid equation;
    has every character at least as often as [requiredCounts] says and at
    most as often as a non-zero [maxCounts] entry says; holds the fixed
    character at every fixed position; and at every other position holds a
    character that is neither excluded nor forbidden there. *)
Theorem async_results_meet_the_constraints
  (evalReturn : str -> Completion) (world : AppAsync.World)
  (c : ConstraintSet) (o : Options) (s : str) :
  In s (AppAsync.generateCandidatesAsync evalReturn world c o) ->
  List.length s = length o /\
  isValidEquation evalReturn s = true /\
  (forall ch n, Obj.get (requiredCounts c) ch = Some n -> n <= countChar ch s) /\
  (forall ch max, Obj.get (maxCounts c) ch = Some max -> max <> 0 ->
                  countChar ch s <= max) /\
  (forall i ch,
      nth_error s i = Some ch ->
      match arrayGet (greens c) i with
      | Some fixed => ch = fixed
      | None => hasChar (excluded c) ch = false /\ forbiddenAt c ch i = false
      end).
Proof.
  intros H. apply Async_results_accepted in H.
  destruct (Accepted_equation H) as [Hlen [_ [Hvalid Hreq]]].
  split; [assumption|]. split; [assumption|]. split; [|split].
  - intros ch n Hget. apply Hreq. now apply get_In_entries.
  - intros ch max Hget Hmax.
    eapply Accepted_max; eauto using fixedOkApp_max, freeOkApp_max.
  - intros i ch Hi.
    assert (Hpos := @Accepted_position evalReturn c (length o) (fixedOkApp c)
                      (freeOkApp c o) s i ch H Hi).
    destruct (arrayGet (greens c) i) eqn:Hfixed; [assumption|].
    split; [assumption|].
    eapply Accepted_forbidden; eauto using freeOkApp_forbidden.
Qed.

Lemma async_results_meet_the_constraints_witness :
  List.length (lit "3+3=6") = 5 /\
  isValidEquation Engine.run (lit "3+3=6") = true.
Proof.
  assert (H : In (lit "3+3=6")
                (AppAsync.generateCandidatesAsync Engine.run quietWorld
                   (App.buildConstraintsFromGuesses scenarioB 5)
                   (App.defaultOptions 5))).
  { apply memStr_In. vm_compute. reflexivity. }
  destruct (async_results_meet_the_constraints Engine.run quietWorld
              (App.buildConstraintsFromGuesses scenarioB 5)
              (App.defaultOptions 5) (lit "3+3=6") H)
    as [Hlen [Hvalid _]].
  split; assumption.
Defined.

(** X14. When nobody cancels either search, the synchronous one has no
    time limit (or stays within it) and [generateCandidatesAsync] returns
    fewer than [maxResults] strings, the two searches of [src/app.js] return
    the same strings: each list is a rearrangement of the other.  The order
    in which [getSortedChars] tries the characters changes the order of
    discovery only. *)
Theorem async_and_sync_find_the_same
  (evalReturn : str -> Completion) (world : AppAsync.World)
  (Date_now : nat -> Z) (c : ConstraintSet) (o : Options) :
  (forall n, AppAsync.flagAtEntry world n = false) ->
  (forall n, AppAsync.flagAfterYield world n = false) ->
  (forall n, cancelledRef o n = false) ->
  ((0 < timeoutMs o)%Z ->
   forall n, (Date_now n - Date_now O <= timeoutMs o)%Z) ->
  List.length (AppAsync.generateCandidatesAsync evalReturn world c o)
  < maxResults o ->
  Permutation (AppAsync.generateCandidatesAsync evalReturn world c o)
              (App.generateCandidates evalReturn Date_now c o).
Proof.
  intros Hflag Hflag' Hcancel Htime Hroom.
  assert (Hasync : forall s,
             AcceptedApp evalReturn c o s ->
             In s (AppAsync.generateCandidatesAsync evalReturn world c o)).
  { intros s Hacc. unfold AppAsync.generateCandidatesAsync in *.
    rewrite (Permutation_length (sortByScore_perm _)) in Hroom.
    apply In_sortByScore.
    apply Async_dfs_complete with (s := s); try assumption; try reflexivity.
    apply Tally_empty. }
  assert (Hnd_async :
            NoDup (AppAsync.generateCandidatesAsync evalReturn world c o)).
  { unfold AppAsync.generateCandidatesAsync.
    apply (Permutation_NoDup (Permutation_sym (sortByScore_perm _))).
    destruct (Async_dfs_adds evalReturn world c o (length o) [] Obj.empty
                false (AppAsync.initialState world)) as [more [Hres [Hnd _]]].
    rewrite Hres. exact Hnd. }
  assert (Hnd_sync : NoDup (App.generateCandidates evalReturn Date_now c o)).
  { unfold App.generateCandidates.
    apply (Permutation_NoDup (Permutation_sym (sortByScore_perm _))).
    destruct (App_dfs_adds evalReturn Date_now c o (length o) [] Obj.empty
                false initialState) as [more [Hres [Hnd _]]].
    rewrite Hres. exact Hnd. }
  assert (Hincl : incl (App.generateCandidates evalReturn Date_now c o)
                       (AppAsync.generateCandidatesAsync evalReturn world c o)).
  { intros s Hs. apply Hasync. now apply App_results_accepted in Hs. }
  assert (Hroom' : List.length (App.generateCandidates evalReturn Date_now c o)
                   < maxResults o).
  { pose proof (NoDup_incl_length Hnd_sync Hincl). lia. }
  apply NoDup_Permutation; try assumption.
  intros s. split.
  - intros Hs. apply Async_results_accepted in Hs.
    unfold App.generateCandidates in *.
    rewrite (Permutation_length (sortByScore_perm _)) in Hroom'.
    apply In_sortByScore.
    apply App_dfs_complete with (s := s); try assumption; try reflexivity.
    + intros n. unfold App.startTime.
      destruct (0 <? timeoutMs o)%Z eqn:Hpos; [|reflexivity].
      apply Z.ltb_lt in Hpos. simpl. apply Z.ltb_ge. now apply Htime.
    + apply Tally_empty.
  - apply Hincl.
Qed.

Lemma async_and_sync_find_the_same_witness :
  Permutation
    (AppAsync.generateCandidatesAsync Engine.run quietWorld
       (App.buildConstraintsFromGuesses scenarioB 5) (App.defaultOptions 5))
    (App.generateCandidates Engine.run frozenClock
       (App.buildConstraintsFromGuesses scenarioB 5) (App.defaultOptions 5)).
Proof.
  apply (async_and_sync_find_the_same Engine.run quietWorld frozenClock
           (App.buildConstraintsFromGuesses scenarioB 5)
           (App.defaultOptions 5)).
  - intros n. reflexivity.
  - intros n. reflexivity.
  - intros n. reflexivity.
  - intros H. simpl in H. lia.
  - apply Nat.ltb_lt. vm_compute. reflexivity.
Defined.


Lemma newResults_app (a b : list AppAsync.Progress) :
  newResults (a ++ b) = newResults a ++ newResults b.
Proof. unfold newResults. apply flat_map_app. Qed.

Lemma checkpoint_newResults world st cur :
  newResults (AppAsync.reported (fst (AppAsync.checkpoint world st cur)))
  = newResults (AppAsync.reported st).
Proof.
  unfold AppAsync.checkpoint.
  destruct (_ && _); [|reflexivity].
  destruct (AppAsync.flagAfterYield world _); [reflexivity|].
  cbn [fst AppAsync.report AppAsync.reported AppAsync.yield].
  rewrite newResults_app. simpl. apply app_nil_r.
Qed.

Lemma Async_dfs_reports evalReturn world c o (remaining : nat) :
  forall cur used hasEqual st,
    newResults (AppAsync.reported st) = AppAsync.results st ->
    newResults
      (AppAsync.reported (AppAsync.dfs evalReturn world c o
                                       remaining cur used hasEqual st))
    = AppAsync.results (AppAsync.dfs evalReturn world c o
                                     remaining cur used hasEqual st).
Proof.
  induction remaining as [|remaining IH]; intros cur used hasEqual st Hst.
  - cbn [AppAsync.dfs].
    destruct (AppAsync.flagAtEntry world _); [exact Hst|].
    pose proof (checkpoint_results world (AppAsync.countCall st) cur) as Hres.
    pose proof (checkpoint_newResults world (AppAsync.countCall st) cur)
      as Hnew.
    destruct (AppAsync.checkpoint world (AppAsync.countCall st) cur)
      as [st1 returned].
    cbn [fst AppAsync.countCall AppAsync.results AppAsync.reported]
      in Hres, Hnew.
    assert (Hst1 : newResults (AppAsync.reported st1) = AppAsync.results st1)
      by congruence.
    destruct returned; [exact Hst1|].
    destruct (_ <=? _); [exact Hst1|].
    destruct (negb hasEqual); [exact Hst1|].
    destruct (negb _); [exact Hst1|].
    destruct (negb _); [exact Hst1|].
    cbn [AppAsync.report AppAsync.pushResult AppAsync.results
         AppAsync.reported AppAsync.newResult].
    rewrite newResults_app, Hst1. reflexivity.
  - cbn [AppAsync.dfs].
    destruct (AppAsync.flagAtEntry world _); [exact Hst|].
    pose proof (checkpoint_results world (AppAsync.countCall st) cur) as Hres.
    pose proof (checkpoint_newResults world (AppAsync.countCall st) cur)
      as Hnew.
    destruct (AppAsync.checkpoint world (AppAsync.countCall st) cur)
      as [st1 returned].
    cbn [fst AppAsync.countCall AppAsync.results AppAsync.reported]
      in Hres, Hnew.
    assert (Hst1 : newResults (AppAsync.reported st1) = AppAsync.results st1)
      by congruence.
    destruct returned; [exact Hst1|].
    destruct (_ <=? _); [exact Hst1|].
    destruct (arrayGet (greens c) _) as [ch|].
    + destruct (_ && _); [exact Hst1|].
      destruct (exceedsMax _ _ _); [exact Hst1|].
      now apply IH.
    + apply (fold_left_invariant
               (fun st' => newResults (AppAsync.reported st')
                           = AppAsync.results st')); [exact Hst1|].
      intros st' ch _ Hst'. cbv beta.
      destruct (AppAsync.skips _ _ _ _ _ _ ch); [exact Hst'|].
      now apply IH.
Qed.

(** X16. [generateCandidatesAsync] hands every string it finds to
    [onProgress] as [newResult], once and in the order of discovery: the
    strings so reported, in the order of the calls, are the array [results]
    as the search filled it, and no string is among them twice.  The list
    returned is a rearrangement of them (none lost, none added) in order of
    falling score, strings of equal score in the order in which they were
    reported. *)
Theorem async_reports_every_result
  (evalReturn : str -> Completion) (world : AppAsync.World)
  (c : ConstraintSet) (o : Options) :
  newResults
    (AppAsync.reported
       (AppAsync.dfs evalReturn world c o (length o) [] Obj.empty false
                     (AppAsync.initialState world)))
  = AppAsync.results
      (AppAsync.dfs evalReturn world c o (length o) [] Obj.empty false
                    (AppAsync.initialState world)) /\
  NoDup
    (newResults
       (AppAsync.reported
          (AppAsync.dfs evalReturn world c o (length o) [] Obj.empty false
                        (AppAsync.initialState world)))) /\
  Permutation
    (AppAsync.generateCandidatesAsync evalReturn world c o)
    (newResults
       (AppAsync.reported
          (AppAsync.dfs evalReturn world c o (length o) [] Obj.empty false
                        (AppAsync.initialState world)))) /\
  StronglySorted scoreOrder
    (AppAsync.generateCandidatesAsync evalReturn world c o) /\
  (forall k,
      withScore k (AppAsync.generateCandidatesAsync evalReturn world c o)
      = withScore k
          (newResults
             (AppAsync.reported
                (AppAsync.dfs evalReturn world c o (length o) [] Obj.empty
                              false (AppAsync.initialState world))))).
Proof.
  assert (Hreported :
            newResults
              (AppAsync.reported
                 (AppAsync.dfs evalReturn world c o (length o) [] Obj.empty
                               false (AppAsync.initialState world)))
            = AppAsync.results
                (AppAsync.dfs evalReturn world c o (length o) [] Obj.empty
                              false (AppAsync.initialState world))).
  { apply Async_dfs_reports. reflexivity. }
  split; [exact Hreported|]. rewrite Hreported.
  unfold AppAsync.generateCandidatesAsync. split; [|split; [|split]].
  - destruct (Async_dfs_adds evalReturn world c o (length o) [] Obj.empty
                false (AppAsync.initialState world)) as [more [Hres [Hnd _]]].
    rewrite Hres. exact Hnd.
  - apply sortByScore_perm.
  - apply sortByScore_sorted.
  - intros k. apply withScore_sortByScore.
Qed.

(** ** The counts that the builder of [src/solver.js] records *)

Lemma get_increment (o : Obj.t nat) (k k' : ascii) :
  Obj.get (increment o k) k'
  = if Ascii.eqb k' k then Some (getOr0 o k + 1) else Obj.get o k'.
Proof. unfold increment. apply get_set. Qed.

Lemma Solver_positions_required cc ps ch :
  forall c,
    getOr0 (requiredCounts (fold_left (Solver.applyPosition cc) ps c)) ch
    = getOr0 (requiredCounts c) ch
      + List.length (filter (isMarked ch) (map snd ps)) /\
    (Obj.get (requiredCounts (fold_left (Solver.applyPosition cc) ps c)) ch
     = None <->
     Obj.get (requiredCounts c) ch = None /\
     List.length (filter (isMarked ch) (map snd ps)) = 0).
Proof.
  induction ps as [|[j [k color]] ps IH]; intros c.
  - simpl. split; [lia | tauto].
  - cbn [fold_left]. destruct (IH (Solver.applyPosition cc c (j, (k, color))))
      as [IH1 IH2].
    rewrite IH1, IH2. clear IH IH1 IH2. cbn [map snd].
    assert (Hlen : List.length (filter (isMarked ch) ((k, color) :: map snd ps))
                   = (if isMarked ch (k, color) then 1 else 0)
                     + List.length (filter (isMarked ch) (map snd ps))).
    { simpl. destruct (isMarked ch (k, color)); reflexivity. }
    rewrite Hlen. clear Hlen.
    generalize (List.length (filter (isMarked ch) (map snd ps))) as n.
    intros n. unfold isMarked. cbn [fst snd].
    assert (Hkey : Obj.get (increment (requiredCounts c) k) ch = None <->
                   k <> ch /\ Obj.get (requiredCounts c) ch = None).
    { rewrite get_increment.
      destruct (Ascii.eqb_spec ch k) as [->|Hne].
      - split; [discriminate | intros [H _]; congruence].
      - split; [intros H; split; congruence | tauto]. }
    assert (Hval : getOr0 (increment (requiredCounts c) k) ch
                   = getOr0 (requiredCounts c) ch
                     + (if Ascii.eqb k ch then 1 else 0)).
    { rewrite getOr0_increment. now rewrite (eqb_sym ch k). }
    unfold Solver.applyPosition.
    destruct (Ascii.eqb color "g") eqn:Hg;
      [|destruct (Ascii.eqb color "y") eqn:Hy;
        [|destruct (Ascii.eqb color "x") eqn:Hx;
          [destruct (Obj.get cc k)|]]];
      cbn [requiredCounts orb]; try rewrite Hkey; try rewrite Hval;
      destruct (Ascii.eqb_spec k ch) as [->|Hne]; cbn [andb];
      (split; [lia|]); split; intros H; intuition (try lia; try congruence).
Qed.

Lemma existsb_filter (A : Type) (f : A -> bool) (l : list A) :
  existsb f l = (0 <? List.length (filter f l)).
Proof.
  induction l as [|x l IH]; simpl; [reflexivity|].
  destruct (f x); simpl; [reflexivity | assumption].
Qed.

Lemma Solver_positions_max cc ps ch :
  forall c,
    Obj.get (maxCounts (fold_left (Solver.applyPosition cc) ps c)) ch
    = if existsb (fun x => Ascii.eqb (fst x) ch && Ascii.eqb (snd x) "x")
                 (map snd ps)
         && hasGreenOrYellow cc ch
      then Some (greenOf cc ch + yellowOf cc ch)
      else Obj.get (maxCounts c) ch.
Proof.
  induction ps as [|[j [k color]] ps IH]; intros c.
  - reflexivity.
  - cbn [fold_left]. rewrite IH. clear IH. cbn [map snd existsb fst].
    destruct (existsb _ (map snd ps) && hasGreenOrYellow cc ch) eqn:Hrest.
    + apply andb_true_iff in Hrest. destruct Hrest as [H1 H2].
      now rewrite H1, H2, orb_true_r.
    + destruct (Ascii.eqb color "x") eqn:Hx.
      * assert (Hstep : maxCounts (Solver.applyPosition cc c (j, (k, color)))
                        = match Obj.get cc k with
                          | Some colors =>
                              if (0 <? green colors) || (0 <? yellow colors)
                              then Obj.set (maxCounts c) k
                                     (green colors + yellow colors)
                              else maxCounts c
                          | None => maxCounts c
                          end).
        { unfold Solver.applyPosition. apply Ascii.eqb_eq in Hx. subst color.
          cbn [Ascii.eqb Bool.eqb andb].
          destruct (Obj.get cc k) as [colors|]; [|reflexivity].
          destruct ((0 <? green colors) || (0 <? yellow colors)); reflexivity. }
        rewrite Hstep. clear Hstep. rewrite andb_true_r.
        unfold hasGreenOrYellow, greenOf, yellowOf in *.
        destruct (Ascii.eqb_spec k ch) as [->|Hne]; cbn [orb].
        -- destruct (Obj.get cc ch) as [colors|]; [|now rewrite andb_false_r].
           destruct ((0 <? green colors) || (0 <? yellow colors)).
           ++ now rewrite get_set, Ascii.eqb_refl.
           ++ now rewrite andb_false_r.
        -- rewrite Hrest.
           destruct (Obj.get cc k) as [colors|]; [|reflexivity].
           destruct ((0 <? green colors) || (0 <? yellow colors));
             [|reflexivity].
           rewrite get_set.
           destruct (Ascii.eqb_spec ch k) as [->|_]; [congruence | reflexivity].
      * assert (Hstep : maxCounts (Solver.applyPosition cc c (j, (k, color)))
                        = maxCounts c).
        { unfold Solver.applyPosition. rewrite Hx.
          destruct (Ascii.eqb color "g"); [reflexivity|].
          destruct (Ascii.eqb color "y"); reflexivity. }
        rewrite Hstep, andb_false_r. cbn [orb]. now rewrite Hrest.
Qed.

Lemma Solver_addGuess_counted c r g p :
  countedSolver r = Some (g, p) ->
  Solver.addGuess c r
  = fold_left (Solver.applyPosition (charColorsOf g p)) (positions g p) c.
Proof.
  unfold countedSolver, Solver.addGuess.
  destruct (firstPattern (patterns r)) as [q|]; [|discriminate].
  destruct (patternMismatch (Some q) (guess r)); [discriminate|].
  intros H. now injection H as <- <-.
Qed.

Lemma Solver_addGuess_skipped c r :
  countedSolver r = None -> Solver.addGuess c r = c.
Proof.
  unfold countedSolver, Solver.addGuess.
  destruct (firstPattern (patterns r)) as [q|]; [|reflexivity].
  destruct (patternMismatch (Some q) (guess r)); [reflexivity | discriminate].
Qed.

Lemma lastOf_app (l l' : list nat) :
  lastOf (l ++ l') = match lastOf l' with Some x => Some x | None => lastOf l end.
Proof.
  unfold lastOf. rewrite rev_app_distr.
  destruct (rev l') as [|x rest]; reflexivity.
Qed.

Lemma markedTotal_cons (ch : ascii) (r : GuessRecord) (hist : list GuessRecord) :
  markedTotal ch (r :: hist)
  = match countedSolver r with
    | Some (g, p) => marked ch g p
    | None => 0
    end + markedTotal ch hist.
Proof. reflexivity. Qed.

Lemma capsOfSolver_cons (ch : ascii) (r : GuessRecord)
  (hist : list GuessRecord) :
  capsOfSolver ch (r :: hist)
  = match countedSolver r with
    | Some (g, p) =>
        if (0 <? colorCount "x" ch g p) && (0 <? marked ch g p)
        then [marked ch g p]
        else []
    | None => []
    end ++ capsOfSolver ch hist.
Proof. reflexivity. Qed.

Lemma Solver_history_counts (ch : ascii) (hist : list GuessRecord) :
  forall c,
    getOr0 (requiredCounts (fold_left Solver.addGuess hist c)) ch
    = getOr0 (requiredCounts c) ch + markedTotal ch hist /\
    (Obj.get (requiredCounts (fold_left Solver.addGuess hist c)) ch = None <->
     Obj.get (requiredCounts c) ch = None /\ markedTotal ch hist = 0) /\
    Obj.get (maxCounts (fold_left Solver.addGuess hist c)) ch
    = match lastOf (capsOfSolver ch hist) with
      | Some x => Some x
      | None => Obj.get (maxCounts c) ch
      end.
Proof.
  induction hist as [|r hist IH]; intros c.
  - simpl. unfold markedTotal. simpl. split; [lia|]. split; [tauto|].
    reflexivity.
  - cbn [fold_left]. destruct (IH (Solver.addGuess c r)) as [IH1 [IH2 IH3]].
    rewrite IH1, IH2, IH3. clear IH IH1 IH2 IH3.
    rewrite markedTotal_cons, capsOfSolver_cons, lastOf_app.
    destruct (countedSolver r) as [[g p]|] eqn:Hc.
    + rewrite (Solver_addGuess_counted c _ Hc).
      destruct (Solver_positions_required (charColorsOf g p) (positions g p)
                  ch c) as [H1 H2].
      rewrite H1, H2, Solver_positions_max.
      unfold positions. rewrite map_snd_positions_from.
      fold (marked ch g p). rewrite existsb_filter. fold (colorCount "x" ch g p).
      split; [lia|]. split; [intuition lia|].
      destruct (lastOf (capsOfSolver ch hist)); [reflexivity|].
      destruct (charColorsOf_counts g p ch) as [Hm _]. rewrite Hm.
      destruct (0 <? colorCount "x" ch g p); cbn [andb]; [|reflexivity].
      destruct (hasGreenOrYellow (charColorsOf g p) ch) eqn:Hgy.
      * apply hasGreenOrYellow_marked in Hgy.
        now rewrite (proj2 (Nat.ltb_lt 0 _) Hgy).
      * apply not_hasGreenOrYellow_marked in Hgy. now rewrite Hgy.
    + rewrite (Solver_addGuess_skipped c _ Hc).
      split; [lia|]. split; [intuition lia|].
      destruct (lastOf (capsOfSolver ch hist)); reflexivity.
Qed.

(** X17. What [buildConstraintsFromGuesses] of [src/solver.js] records
    as counts: [requiredCounts[ch]] is the number of green and yellow marks
    of [ch] added up over all the guesses that count (absent when there is
    none), and [maxCounts[ch]] is the green+yellow count of [ch] in the last
    guess that marks [ch] gray as well as green or yellow (absent when there
    is none). *)
Theorem solver_builder_counts
  (hist : list GuessRecord) (len : nat) (ch : ascii) :
  getOr0 (requiredCounts (Solver.buildConstraintsFromGuesses hist len)) ch
  = markedTotal ch hist /\
  (Obj.get (requiredCounts (Solver.buildConstraintsFromGuesses hist len)) ch
   = None <-> markedTotal ch hist = 0) /\
  Obj.get (maxCounts (Solver.buildConstraintsFromGuesses hist len)) ch
  = lastOf (capsOfSolver ch hist).
Proof.
  unfold Solver.buildConstraintsFromGuesses.
  destruct (Solver_history_counts ch hist
              {| greens := repeat None len;
                 requiredCounts := Obj.empty;
                 maxCounts := Obj.empty;
                 excluded := [];
                 yellowForbiddenPositions := Obj.empty |}) as [H1 [H2 H3]].
  split; [exact H1|]. split.
  - rewrite H2. cbn [requiredCounts]. split; [tauto | auto].
  - rewrite H3. cbn [maxCounts].
    destruct (lastOf (capsOfSolver ch hist)); reflexivity.
Qed.

(** ** A guess that is all green *)

Lemma allGreen_nth (p : str) (i : nat) (color : ascii) :
  allGreen p = true -> nth_error p i = Some color -> color = "g"%char.
Proof.
  unfold allGreen. rewrite forallb_forall. intros H Hi.
  apply Ascii.eqb_eq. apply H. now apply nth_error_In with i.
Qed.

Lemma all_green_LastGreen (counts : GuessRecord -> option (str * str))
  (hist : list GuessRecord) (r : GuessRecord) (g p : str) (i : nat)
  (ch : ascii) :
  counts r = Some (g, p) ->
  List.length p = List.length g ->
  allGreen p = true ->
  nth_error g i = Some ch ->
  LastGreen counts (hist ++ [r]) i ch.
Proof.
  intros Hc Hlen Hall Hi. exists hist, r, [], g, p.
  split; [reflexivity|]. split; [assumption|]. split.
  - split; [assumption|].
    destruct (nth_error p i) as [color|] eqn:Hp.
    + now rewrite (allGreen_nth _ _ Hall Hp).
    + apply nth_error_None in Hp.
      assert (nth_error g i <> None) by congruence.
      apply nth_error_Some in H. lia.
  - intros r' [].
Qed.

Lemma fixed_everywhere (evalReturn : str -> Completion) (c : ConstraintSet)
  (len : nat) (fixedOk : nat -> str -> Obj.t nat -> ascii -> bool)
  (freeOk : nat -> str -> Obj.t nat -> bool -> ascii -> bool) (g s : str) :
  len = List.length g ->
  (forall i ch, nth_error g i = Some ch -> arrayGet (greens c) i = Some ch) ->
  Accepted evalReturn c len fixedOk freeOk s ->
  s = g.
Proof.
  intros Hlen Hfixed Hacc.
  assert (Hslen : List.length s = len) by apply Hacc.
  apply nth_error_ext. intros n.
  destruct (nth_error g n) as [ch|] eqn:Hg.
  - destruct (nth_error s n) as [c'|] eqn:Hs.
    + pose proof (@Accepted_position evalReturn c len fixedOk freeOk s n c'
                    Hacc Hs) as Hpos.
      rewrite (Hfixed _ _ Hg) in Hpos. now subst.
    + apply nth_error_None in Hs.
      assert (nth_error g n <> None) by congruence.
      apply nth_error_Some in H. lia.
  - apply nth_error_None in Hg. apply nth_error_None. lia.
Qed.

(** X18. When the last guess of the history counts, is as long as the
    strings searched for, and has a pattern that is all green, every search
    on the constraints built from that history returns nothing but that
    guess: each of the three searches returns the empty list or the list
    with that one string. *)
Theorem all_green_guess_pins_the_search
  (evalReturn : str -> Completion) (Date_now : nat -> Z)
  (world : AppAsync.World) (hist : list GuessRecord) (r : GuessRecord)
  (len : nat) (o : Options) (g p s : str) :
  allGreen p = true ->
  length o = List.length g ->
  (counted r = Some (g, p) ->
   In s (App.generateCandidates evalReturn Date_now
           (App.buildConstraintsFromGuesses (hist ++ [r]) len) o) \/
   In s (AppAsync.generateCandidatesAsync evalReturn world
           (App.buildConstraintsFromGuesses (hist ++ [r]) len) o) ->
   s = g) /\
  (countedSolver r = Some (g, p) ->
   In s (Solver.generateCandidates evalReturn Date_now
           (Solver.buildConstraintsFromGuesses (hist ++ [r]) len) o) ->
   s = g).
Proof.
  intros Hall Hlen. split.
  - intros Hc Hin.
    assert (Hacc : AcceptedApp evalReturn
                     (App.buildConstraintsFromGuesses (hist ++ [r]) len) o s).
    { destruct Hin as [Hin|Hin];
        [now apply App_results_accepted in Hin
        | now apply Async_results_accepted in Hin]. }
    eapply fixed_everywhere; [exact Hlen | | exact Hacc].
    intros i ch Hi. apply App_fixed_iff.
    apply all_green_LastGreen with (g := g) (p := p); try assumption.
    apply (counted_lengths r (counted_countedSolver r Hc)).
  - intros Hc Hin. apply Solver_results_accepted in Hin.
    eapply fixed_everywhere; [exact Hlen | | exact Hin].
    intros i ch Hi. apply Solver_fixed_iff.
    apply all_green_LastGreen with (g := g) (p := p); try assumption.
    apply (counted_lengths r Hc).
Qed.

Lemma all_green_guess_pins_the_search_witness :
  forallb (strEqb (lit "3+3=6"))
    (App.generateCandidates Engine.run frozenClock
       (App.buildConstraintsFromGuesses
          ([] ++ [recordOf (lit "3+3=6") (lit "ggggg")]) 5)
       (App.defaultOptions 5)) = true /\
  lit "3+3=6" = lit "3+3=6".
Proof.
  split; [vm_compute; reflexivity|].
  destruct (all_green_guess_pins_the_search Engine.run frozenClock quietWorld
              [] (recordOf (lit "3+3=6") (lit "ggggg")) 5
              (App.defaultOptions 5) (lit "3+3=6") (lit "ggggg")
              (lit "3+3=6") eq_refl eq_refl) as [H _].
  apply H; [reflexivity|].
  left. apply memStr_In. vm_compute. reflexivity.
Defined.

(** ** A guess checked against the constraints of itself *)

Lemma marked_position (g p : str) (i : nat) (ch color : ascii) :
  nth_error g i = Some ch -> nth_error p i = Some color ->
  color = "g"%char \/ color = "y"%char ->
  0 < marked ch g p.
Proof.
  intros Hg Hp Hcolor.
  assert (Hin : In (ch, color) (combine g p)).
  { assert (H : In (i, (ch, color)) (positions g p))
      by (apply In_positions; auto).
    unfold positions in H. now apply in_combine_r in H. }
  unfold marked.
  assert (Hf : In (ch, color) (filter (isMarked ch) (combine g p))).
  { apply filter_In. split; [assumption|]. unfold isMarked. simpl.
    rewrite Ascii.eqb_refl. destruct Hcolor as [-> | ->]; reflexivity. }
  destruct (filter (isMarked ch) (combine g p)); [contradiction | simpl; lia].
Qed.

Lemma recordOf_counted (g p : str) :
  p <> [] -> List.length p = List.length g ->
  counted (recordOf g p) = Some (g, p) /\
  countedSolver (recordOf g p) = Some (g, p).
Proof.
  intros Hne Hlen. unfold counted, countedSolver, recordOf.
  cbn [solved guess patterns firstPattern].
  assert (H : patternMismatch (Some p) g = false).
  { unfold patternMismatch. apply orb_false_iff. split.
    - destruct p; [congruence | reflexivity].
    - apply negb_false_iff, Nat.eqb_eq, Hlen. }
  rewrite H. split; reflexivity.
Qed.

Lemma LastGreen_single (counts : GuessRecord -> option (str * str))
  (r : GuessRecord) (g p : str) (i : nat) (ch : ascii) :
  counts r = Some (g, p) ->
  LastGreen counts [r] i ch -> GreenAt ch i g p.
Proof.
  intros Hc [before [r' [after [g' [p' [Heq [Hc' [Hg _]]]]]]]].
  destruct before as [|x before].
  - simpl in Heq. injection Heq as -> _. rewrite Hc in Hc'.
    now injection Hc' as <- <-.
  - simpl in Heq. injection Heq as _ Heq. destruct before; discriminate.
Qed.

(** What the position tests can object to when the constraints come from
    the guess itself: only a yellow mark, and only where yellow marks on
    forbidden positions count. *)
Lemma own_constraints_positions (yellowToo : bool) (c : ConstraintSet)
  (g p : str) (i : nat) (ch color : ascii) :
  (forall j k, arrayGet (greens c) j = Some k -> GreenAt k j g p) ->
  (forall k, hasChar (excluded c) k = true -> marked k g p = 0) ->
  (forall j k, forbiddenAt c k j = true -> ForbidsAt k j g p) ->
  nth_error g i = Some ch -> nth_error p i = Some color ->
  PositionViolation yellowToo c i ch color ->
  yellowToo = true /\ color = "y"%char.
Proof.
  intros Hfixed Hexcl Hforb Hg Hp [[fixed [Hf [Hne Hc]]]|[[Hf Hc]|[[He Hc]|[Hf Hc]]]].
  - apply Hfixed in Hf. destruct Hf as [Hf _]. congruence.
  - apply Hfixed in Hf. destruct Hf as [_ Hf]. congruence.
  - apply Hexcl in He. pose proof (marked_position _ _ _ Hg Hp Hc). lia.
  - destruct Hc as [Hc|Hc]; [|assumption].
    apply Hforb in Hf. destruct Hf as [_ [Hf|[Hf _]]]; congruence.
Qed.

(** X19. Checking a guess against the constraints built from that same
    guess with the same marks (the pattern not empty and as long as the
    guess): [checkPatternConsistency] of [src/app.js] always answers valid;
    the one of [src/solver.js] answers invalid exactly when the pattern has a
    yellow mark, because it rejects a yellow mark on a position that the
    same yellow mark made forbidden. *)
Theorem guess_against_its_own_constraints (g p : str) (len : nat) :
  p <> [] ->
  List.length p = List.length g ->
  valid (App.checkPatternConsistency g (Single p)
           (App.buildConstraintsFromGuesses [recordOf g p] len)) = true /\
  (valid (Solver.checkPatternConsistency g (Single p)
            (Solver.buildConstraintsFromGuesses [recordOf g p] len)) = false
   <-> In "y"%char p).
Proof.
  intros Hne Hlen.
  destruct (recordOf_counted g Hne Hlen) as [Hc Hcs].
  split.
  - destruct (valid (App.checkPatternConsistency g (Single p) _)) eqn:Hv;
      [reflexivity|]. exfalso.
    apply App_check_spec in Hv.
    destruct Hv as [Hv|[Hv|[[i [ch [color [Hg [Hp Hv]]]]]|[ch [max [Hget Hlt]]]]]];
      try contradiction.
    + apply own_constraints_positions with (g := g) (p := p) in Hv;
        try assumption.
      * destruct Hv. discriminate.
      * intros j k Hj. apply App_fixed_iff in Hj.
        now apply (LastGreen_single Hc).
      * intros k Hk. apply App_excluded_iff in Hk. destruct Hk as [_ Hk].
        apply (Hk (recordOf g p) g p); [now left | assumption].
      * intros j k Hj. apply App_forbidden_iff in Hj.
        destruct Hj as [r [g' [p' [[<-|[]] [Hc' H]]]]].
        rewrite Hc in Hc'. now injection Hc' as <- <-.
    + destruct (App_builder_max [recordOf g p] len ch) as [Hnone Hsome].
      destruct (capsOf ch [recordOf g p]) as [|x l] eqn:Hcaps.
      * rewrite Hnone in Hget by reflexivity. discriminate.
      * destruct Hsome as [m [[Hin _] Hget']]; [discriminate|].
        rewrite Hget in Hget'. injection Hget' as <-.
        rewrite <- Hcaps in Hin. unfold capsOf in Hin. simpl in Hin.
        rewrite Hc, app_nil_r in Hin.
        destruct (_ && _); [|contradiction].
        destruct Hin as [<-|[]]. lia.
  - rewrite Solver_check_spec. split.
    + intros [Hv|[Hv|[[i [ch [color [Hg [Hp Hv]]]]]|[ch [max [Hget Hlt]]]]]];
        try contradiction.
      * apply own_constraints_positions with (g := g) (p := p) in Hv;
          try assumption.
        -- destruct Hv as [_ ->]. now apply nth_error_In with i.
        -- intros j k Hj. apply Solver_fixed_iff in Hj.
           now apply (LastGreen_single Hcs).
        -- intros k Hk. apply Solver_excluded_iff in Hk.
           destruct Hk as [r [g' [p' [[<-|[]] [Hc' [_ H]]]]]].
           rewrite Hcs in Hc'. now injection Hc' as <- <-.
        -- intros j k Hj. apply Solver_forbidden_iff in Hj.
           destruct Hj as [r [g' [p' [[<-|[]] [Hc' H]]]]].
           rewrite Hcs in Hc'. now injection Hc' as <- <-.
      * exfalso.
        destruct (Solver_history_counts ch [recordOf g p]
                    {| greens := repeat None len;
                       requiredCounts := Obj.empty;
                       maxCounts := Obj.empty;
                       excluded := [];
                       yellowForbiddenPositions := Obj.empty |})
          as [_ [_ Hmax]].
        unfold Solver.buildConstraintsFromGuesses in Hget.
        rewrite Hmax in Hget. clear Hmax.
        unfold capsOfSolver in Hget. simpl flat_map in Hget.
        rewrite Hcs, app_nil_r in Hget.
        destruct (_ && _); [|discriminate].
        unfold lastOf in Hget. simpl in Hget. injection Hget as <-. lia.
    + intros Hy. right. right. left.
      apply In_nth_error in Hy. destruct Hy as [i Hp].
      destruct (nth_error g i) as [ch|] eqn:Hg.
      2:{ apply nth_error_None in Hg.
          assert (nth_error p i <> None) by congruence.
          apply nth_error_Some in H. lia. }
      exists i, ch, "y"%char. split; [exact Hg|]. split; [exact Hp|].
      right. right. right. split; [|right; split; reflexivity].
      apply Solver_forbidden_iff. exists (recordOf g p), g, p.
      split; [now left|]. split; [assumption|].
      split; [assumption | now left].
Qed.

Lemma guess_against_its_own_constraints_witness :
  valid (App.checkPatternConsistency (lit "1+2=3") (Single (lit "yxxgx"))
           (App.buildConstraintsFromGuesses
              [recordOf (lit "1+2=3") (lit "yxxgx")] 5)) = true /\
  (valid (Solver.checkPatternConsistency (lit "1+2=3") (Single (lit "yxxgx"))
            (Solver.buildConstraintsFromGuesses
               [recordOf (lit "1+2=3") (lit "yxxgx")] 5)) = false
   <-> In "y"%char (lit "yxxgx")).
Proof.
  apply (@guess_against_its_own_constraints (lit "1+2=3") (lit "yxxgx") 5).
  - discriminate.
  - reflexivity.
Defined.

(** ** A search that is cut short *)

(** X20. Whatever the flag and the clock do to it, [generateCandidatesAsync]
    returns only strings that the undisturbed search returns: if on the same
    constraints and options the search that nobody cancels stays below
    [maxResults], every string of a cancelled search is in its list. *)
Theorem async_partial_results_are_results
  (evalReturn : str -> Completion) (world quiet : AppAsync.World)
  (c : ConstraintSet) (o : Options) (s : str) :
  (forall n, AppAsync.flagAtEntry quiet n = false) ->
  (forall n, AppAsync.flagAfterYield quiet n = false) ->
  List.length (AppAsync.generateCandidatesAsync evalReturn quiet c o)
  < maxResults o ->
  In s (AppAsync.generateCandidatesAsync evalReturn world c o) ->
  In s (AppAsync.generateCandidatesAsync evalReturn quiet c o).
Proof.
  intros Hflag Hflag' Hroom Hin.
  apply Async_results_accepted in Hin.
  unfold AppAsync.generateCandidatesAsync in *.
  rewrite (Permutation_length (sortByScore_perm _)) in Hroom.
  apply In_sortByScore.
  apply Async_dfs_complete with (s := s); try assumption; try reflexivity.
  apply Tally_empty.
Qed.

Lemma async_partial_results_are_results_witness :
  In (lit "1+0=1")
     (AppAsync.generateCandidatesAsync Engine.run quietWorld
        (App.buildConstraintsFromGuesses scenarioB 5) (App.defaultOptions 5)).
Proof.
  apply (async_partial_results_are_results Engine.run cancelledWorld quietWorld
           (App.buildConstraintsFromGuesses scenarioB 5) (App.defaultOptions 5)
           (lit "1+0=1")).
  - intros n. reflexivity.
  - intros n. reflexivity.
  - apply Nat.ltb_lt. vm_compute. reflexivity.
  - apply memStr_In. vm_compute. reflexivity.
Defined.

(** ** The order in which the characters are tried *)

Lemma insertByPriority_sorted (x : ascii * Z) (l : list (ascii * Z)) :
  StronglySorted priorityOrder l ->
  StronglySorted priorityOrder (AppAsync.insertByPriority x l).
Proof.
  induction l as [|y l IH]; intros Hs; simpl.
  - constructor; constructor.
  - inversion Hs as [|y' l' Hl Hy]; subst.
    destruct (snd x <? snd y)%Z eqn:Hlt.
    + apply Z.ltb_lt in Hlt. constructor; [now apply IH|].
      apply Forall_forall. intros z Hz.
      apply (Permutation_in _ (insertByPriority_perm x l)) in Hz.
      destruct Hz as [<-|Hz].
      * unfold priorityOrder. lia.
      * rewrite Forall_forall in Hy. now apply Hy.
    + apply Z.ltb_ge in Hlt. constructor; [assumption|].
      constructor; [exact Hlt|].
      apply Forall_forall. intros z Hz. rewrite Forall_forall in Hy.
      specialize (Hy z Hz). unfold priorityOrder in *. lia.
Qed.

Lemma sortByPriority_sorted (l : list (ascii * Z)) :
  StronglySorted priorityOrder (AppAsync.sortByPriority l).
Proof.
  induction l as [|x l IH]; simpl.
  - constructor.
  - now apply insertByPriority_sorted.
Qed.

Lemma sorted_nth (l : list (ascii * Z)) :
  StronglySorted priorityOrder l ->
  forall i j a b,
    i < j -> nth_error l i = Some a -> nth_error l j = Some b ->
    (snd b <= snd a)%Z.
Proof.
  induction 1 as [|x l Hl IH Hx]; intros i j a b Hlt Hi Hj.
  - destruct i; discriminate.
  - destruct j as [|j]; [lia|]. simpl in Hj. destruct i as [|i].
    + simpl in Hi. injection Hi as <-.
      rewrite Forall_forall in Hx. apply (Hx b).
      now apply nth_error_In with j.
    + simpl in Hi. apply (IH i j); [lia | assumption | assumption].
Qed.

Lemma priority2_needed c o pos used ch :
  getOr0 used ch < getOr0 (requiredCounts c) ch ->
  (1900 <= AppAsync.priority2 c o pos used ch)%Z.
Proof.
  intros H. unfold AppAsync.priority2. unfold getOr0 at 2 in H.
  destruct (Obj.get (requiredCounts c) ch) as [required|]; [|lia].
  destruct (Nat.eqb_spec required 0) as [->|Hne]; [lia|].
  destruct (0 <? Z.of_nat required - Z.of_nat (getOr0 used ch))%Z eqn:Hn.
  2:{ apply Z.ltb_ge in Hn. lia. }
  apply Z.ltb_lt in Hn.
  destruct (isDigit ch); destruct (Ascii.eqb ch "=");
    destruct (includes operators ch && Nat.ltb pos 2);
    destruct (Ascii.eqb ch "1"); destruct (Ascii.eqb ch "2");
    destruct (Ascii.eqb ch "0");
    destruct (Ascii.eqb ch "+" || Ascii.eqb ch "-");
    destruct (Ascii.eqb ch "*" || Ascii.eqb ch "/"); lia.
Qed.

Lemma priority2_not_needed c o pos used ch :
  getOr0 (requiredCounts c) ch <= getOr0 used ch ->
  (AppAsync.priority2 c o pos used ch <= 340)%Z.
Proof.
  intros H. unfold AppAsync.priority2. unfold getOr0 at 1 in H.
  assert (Hfirst :
            (match Obj.get (requiredCounts c) ch with
             | Some required =>
                 if Nat.eqb required 0 then 0
                 else
                   if 0 <? Z.of_nat required - Z.of_nat (getOr0 used ch)
                   then 2 * ((Z.of_nat required - Z.of_nat (getOr0 used ch))
                             * 1000)
                   else 0
             | None => 0
             end = 0)%Z).
  { destruct (Obj.get (requiredCounts c) ch) as [required|]; [|reflexivity].
    destruct (Nat.eqb required 0); [reflexivity|].
    destruct (0 <? Z.of_nat required - Z.of_nat (getOr0 used ch))%Z eqn:Hn;
      [|reflexivity].
    apply Z.ltb_lt in Hn. lia. }
  cbv zeta. rewrite Hfirst.
  destruct (isDigit ch); destruct (Ascii.eqb ch "=");
    destruct (includes operators ch && Nat.ltb pos 2);
    destruct (Ascii.eqb ch "1"); destruct (Ascii.eqb ch "2");
    destruct (Ascii.eqb ch "0");
    destruct (Ascii.eqb ch "+" || Ascii.eqb ch "-");
    destruct (Ascii.eqb ch "*" || Ascii.eqb ch "/"); lia.
Qed.

Lemma sorted_pairs_priority c o pos used (l : str) (x : ascii) (z : Z) :
  In (x, z) (AppAsync.sortByPriority
               (map (fun ch => (ch, AppAsync.priority2 c o pos used ch)) l)) ->
  z = AppAsync.priority2 c o pos used x.
Proof.
  intros H. apply (Permutation_in _ (sortByPriority_perm _)) in H.
  apply in_map_iff in H. destruct H as [ch [Heq _]].
  now injection Heq as <- <-.
Qed.

(** X21. [getSortedChars] puts the characters that are still required
    first: a character used fewer times than [requiredCounts] asks stands
    before every character that is not (or no longer) required. *)
Theorem getSortedChars_required_first
  (c : ConstraintSet) (o : Options) (pos : nat) (used : Obj.t nat)
  (hasEqual : bool) (i j : nat) (ch ch' : ascii) :
  nth_error (AppAsync.getSortedChars c o pos used hasEqual) i = Some ch ->
  nth_error (AppAsync.getSortedChars c o pos used hasEqual) j = Some ch' ->
  getOr0 used ch < getOr0 (requiredCounts c) ch ->
  getOr0 (requiredCounts c) ch' <= getOr0 used ch' ->
  i < j.
Proof.
  unfold AppAsync.getSortedChars.
  set (l := AppAsync.sortByPriority _).
  intros Hi Hj Hneeded Hnot.
  rewrite nth_error_map in Hi, Hj.
  destruct (nth_error l i) as [[x zx]|] eqn:Hli; [|discriminate].
  destruct (nth_error l j) as [[y zy]|] eqn:Hlj; [|discriminate].
  simpl in Hi, Hj. injection Hi as ->. injection Hj as ->.
  assert (Hzx : zx = AppAsync.priority2 c o pos used ch).
  { apply sorted_pairs_priority with
      (l := filter (fun ch => negb (AppAsync.filtered c o pos used hasEqual ch))
                   (allowedChars c)).
    now apply nth_error_In with i. }
  assert (Hzy : zy = AppAsync.priority2 c o pos used ch').
  { apply sorted_pairs_priority with
      (l := filter (fun ch => negb (AppAsync.filtered c o pos used hasEqual ch))
                   (allowedChars c)).
    now apply nth_error_In with j. }
  pose proof (priority2_needed c o pos used ch Hneeded) as Hhigh.
  pose proof (priority2_not_needed c o pos used ch' Hnot) as Hlow.
  destruct (Nat.lt_trichotomy i j) as [Hlt|[Heq|Hgt]]; [assumption| |].
  - exfalso. subst j. rewrite Hli in Hlj. injection Hlj as <- <-. lia.
  - exfalso.
    pose proof (sorted_nth (sortByPriority_sorted _) Hgt Hlj Hli) as Hle.
    simpl in Hle. lia.
Qed.

Lemma getSortedChars_required_first_witness : 0 < 1.
Proof.
  apply (@getSortedChars_required_first needsSeven (App.defaultOptions 5) 0
           Obj.empty false 0 1 "7" "1").
  - reflexivity.
  - reflexivity.
  - vm_compute. lia.
  - vm_compute. lia.
Defined.

(** ** Four targets *)

Lemma targetRecord_counted (g p : str) :
  p <> [] -> List.length p = List.length g ->
  counted (targetRecord g (Some p)) = Some (g, p) /\
  countedSolver (targetRecord g (Some p)) = Some (g, p).
Proof. apply recordOf_counted. Qed.

Lemma nth_error_targets (A : Type) (f : nat -> A) (t : nat) :
  t < 4 -> nth_error (map f (seq 0 4)) t = Some (f t).
Proof.
  intros H. destruct t as [|[|[|[|t]]]]; try reflexivity. lia.
Qed.

(** X22. In 4-target mode every target is searched on the patterns of
    that target, and [solved] is not looked at.  So when the last row of
    the history has, for target [t], a pattern that is all green (not empty
    and as long as the guess), the list for target [t] holds nothing but the
    guess of that row: in [generateCandidatesFor4Mode] of either copy and in
    [searchSingleTargetAsync], also when the row is marked [solved]. *)
Theorem solved_target_keeps_its_equation
  (evalReturn : str -> Completion) (Date_now : nat -> nat -> Z)
  (flag : nat -> nat -> bool) (world : AppAsync.World)
  (hist : list GuessRecord) (r : GuessRecord) (o : Options)
  (l : list str) (p : str) (t : nat) (s : str) :
  patterns r = Multi l ->
  nth_error l t = Some p ->
  t < 4 ->
  p <> [] ->
  allGreen p = true ->
  List.length p = List.length (guess r) ->
  length o = List.length (guess r) ->
  (forall found,
      nth_error (App4.generateCandidatesFor4Mode evalReturn Date_now flag
                   (hist ++ [r]) o) t = Some found ->
      In s found -> s = guess r) /\
  (forall found,
      nth_error (Solver4.generateCandidatesFor4Mode evalReturn Date_now flag
                   (hist ++ [r]) o) t = Some found ->
      In s found -> s = guess r) /\
  (In s (App4.searchSingleTargetAsync evalReturn world t (hist ++ [r]) o) ->
   s = guess r).
Proof.
  intros Hps Hp Ht Hne Hall Hlen Hlen'.
  destruct (targetRecord_counted (guess r) Hne Hlen) as [Hc Hcs].
  assert (Happ : App4.targetGuesses t (hist ++ [r])
                 = App4.targetGuesses t hist
                   ++ [targetRecord (guess r) (Some p)]).
  { unfold App4.targetGuesses. rewrite map_app. simpl.
    now rewrite Hps; simpl; rewrite Hp. }
  assert (Hsol : Solver4.targetGuesses t (hist ++ [r])
                 = Solver4.targetGuesses t hist
                   ++ [targetRecord (guess r) (Some p)]).
  { unfold Solver4.targetGuesses. rewrite map_app. simpl.
    now rewrite Hps; simpl; rewrite Hp. }
  assert (Hfixed_app :
            forall i ch, nth_error (guess r) i = Some ch ->
              arrayGet (greens (App.buildConstraintsFromGuesses
                                  (App4.targetGuesses t (hist ++ [r]))
                                  (length o))) i = Some ch).
  { intros i ch Hi. rewrite Happ. apply App_fixed_iff.
    now apply all_green_LastGreen with (g := guess r) (p := p). }
  assert (Hfixed_sol :
            forall i ch, nth_error (guess r) i = Some ch ->
              arrayGet (greens (Solver.buildConstraintsFromGuesses
                                  (Solver4.targetGuesses t (hist ++ [r]))
                                  (length o))) i = Some ch).
  { intros i ch Hi. rewrite Hsol. apply Solver_fixed_iff.
    now apply all_green_LastGreen with (g := guess r) (p := p). }
  split; [|split].
  - intros found Hfound Hin.
    unfold App4.generateCandidatesFor4Mode in Hfound.
    rewrite nth_error_targets in Hfound by assumption.
    injection Hfound as <-. apply App_results_accepted in Hin.
    eapply fixed_everywhere; [| exact Hfixed_app | exact Hin].
    exact Hlen'.
  - intros found Hfound Hin.
    unfold Solver4.generateCandidatesFor4Mode in Hfound.
    rewrite nth_error_targets in Hfound by assumption.
    injection Hfound as <-. apply Solver_results_accepted in Hin.
    eapply fixed_everywhere; [| exact Hfixed_sol | exact Hin].
    exact Hlen'.
  - intros Hin. unfold App4.searchSingleTargetAsync in Hin.
    apply Async_results_accepted in Hin.
    eapply fixed_everywhere; [| exact Hfixed_app | exact Hin].
    exact Hlen'.
Qed.

Lemma solved_target_keeps_its_equation_witness :
  In (lit "3+3=6")
     (App.generateCandidates Engine.run frozenClock
        (App.buildConstraintsFromGuesses
           (App4.targetGuesses 0 ([] ++ [solvedRow])) 5)
        (withFlag (App.defaultOptions 5) (fun _ => false))) /\
  lit "3+3=6" = guess solvedRow.
Proof.
  assert (Hin : In (lit "3+3=6")
                  (App.generateCandidates Engine.run frozenClock
                     (App.buildConstraintsFromGuesses
                        (App4.targetGuesses 0 ([] ++ [solvedRow])) 5)
                     (withFlag (App.defaultOptions 5) (fun _ => false)))).
  { apply memStr_In. vm_compute. reflexivity. }
  split; [exact Hin|].
  assert (Hne : lit "ggggg" <> []) by discriminate.
  destruct (@solved_target_keeps_its_equation Engine.run
              (fun _ => frozenClock) (fun _ _ => false) quietWorld []
              solvedRow (App.defaultOptions 5)
              [lit "ggggg"; lit "xxxxx"; lit "xyxxx"; lit "xxxxx"]
              (lit "ggggg") 0 (lit "3+3=6")
              eq_refl eq_refl (Nat.lt_0_succ 3) Hne eq_refl eq_refl eq_refl)
    as [H _].
  apply (H _ eq_refl Hin).
Defined.

Lemma Solver_history_skipped (hist : list GuessRecord) :
  (forall r, In r hist -> countedSolver r = None) ->
  forall c, fold_left Solver.addGuess hist c = c.
Proof.
  induction hist as [|r hist IH]; intros Hskip c.
  - reflexivity.
  - simpl. rewrite (Solver_addGuess_skipped c r) by (apply Hskip; now left).
    apply IH. intros r' Hin. apply Hskip. now right.
Qed.

(** X23. A history recorded with one pattern per row (a string, not an
    array of four) in 4-target mode: [generateCandidatesFor4Mode] of
    [src/app.js] uses that pattern for every target, only dropping the
    [solved] marks; the one of [src/solver.js] indexes the string, gets a
    single character or nothing, and so (the guesses having two characters
    or more) builds the constraints of the empty history for every
    target. *)
Theorem string_patterns_in_4_target_mode
  (hist : list GuessRecord) (t len : nat) :
  (forall r, In r hist ->
             exists p, patterns r = Single p /\ 2 <= List.length (guess r)) ->
  App4.targetGuesses t hist = map unsolved hist /\
  Solver.buildConstraintsFromGuesses (Solver4.targetGuesses t hist) len
  = Solver.buildConstraintsFromGuesses [] len.
Proof.
  intros Hsingle. split.
  - unfold App4.targetGuesses. apply map_ext_in. intros r Hin.
    destruct (Hsingle r Hin) as [p [Hp _]].
    unfold targetRecord, unsolved. now rewrite Hp.
  - unfold Solver.buildConstraintsFromGuesses.
    apply Solver_history_skipped. intros r' Hin.
    unfold Solver4.targetGuesses in Hin. apply in_map_iff in Hin.
    destruct Hin as [r [<- Hin]].
    destruct (Hsingle r Hin) as [p [Hp Hlen]]. rewrite Hp.
    unfold Solver4.targetPattern.
    destruct (nth_error p t) as [c|]; [|reflexivity].
    unfold countedSolver, targetRecord. cbn [patterns guess firstPattern
                                             option_map].
    unfold patternMismatch. simpl List.length.
    replace (Nat.eqb 1 (List.length (guess r))) with false; [reflexivity|].
    symmetry. apply Nat.eqb_neq. lia.
Qed.

Lemma string_patterns_in_4_target_mode_witness :
  App4.targetGuesses 2 scenarioB = map unsolved scenarioB /\
  Solver.buildConstraintsFromGuesses (Solver4.targetGuesses 2 scenarioB) 5
  = Solver.buildConstraintsFromGuesses [] 5.
Proof.
  apply (string_patterns_in_4_target_mode scenarioB 2 5).
  intros r [<-|[]]. exists (lit "xgxgx"). split; [reflexivity|].
  simpl. lia.
Defined.
